(** * MetroWave: playback queue and play-request coordination

    A shallow embedding of the playback core of MetroWave
    ([src/renderer.js]: [playSong], [playAudioAndUpdateUI] and the
    [QueueManager] class) and of the validated bridge of
    [src/preload.js], followed by the properties of the design document
    that were checked against it.

    Conventions.
    - JavaScript arrays are lists, indices that can be [-1] are [Z].
    - An [await] splits a function in two: the part before it registers a
      pending task, the part after it runs when the environment settles
      the task with an [Outcome].  [Player.step] is the event loop.
    - Rendering ([renderUpNext], theme, like button, recently-played
      storage) writes only to the DOM or to local storage
      and is left out of the player.  Of [renderQueue] it is kept
      whether the call returns, as the statements after it run only
      then.
    - The favourites, the playlists and the recently-played list, the
      navigation history, the video overlay, [escapeHTML] and the helpers
      and handlers of the main process have modules of their own, after
      the notions used by the properties of the player. *)

From Stdlib Require Import ZArith Ascii String.
From stdpp Require Import base option list strings gmap.

Local Open Scope string_scope.
Local Open Scope list_scope.
Local Open Scope Z_scope.

(** ** JavaScript glue *)

Module Js.

(** The values that cross the preload bridge. *)
Inductive Value :=
| VUndefined
| VNull
| VBool (b : bool)
| VNumber (n : Z)
| VString (s : string)
| VObject.

(** A settled asynchronous call: fulfilled with a value, or rejected
    with an [Error] whose [message] is kept. *)
Inductive Outcome (A : Type) :=
| Fulfilled (v : A)
| Rejected (message : string).
Arguments Fulfilled {A} v.
Arguments Rejected {A} message.

(** Truthiness of a string: only the empty string is falsy. *)
Definition truthy (s : string) : bool :=
  match s with EmptyString => false | String _ _ => true end.

(** [a || b] on strings. *)
Definition or_else (a b : string) : string := if truthy a then a else b.

(** [Array.prototype.splice] start normalisation: a negative start
    counts from the end, and the result is clamped to [0..len]. *)
Definition rel_index (len : nat) (start : Z) : nat :=
  if start <? 0 then Z.to_nat (Z.max (Z.of_nat len + start) 0)
  else Z.to_nat (Z.min start (Z.of_nat len)).

Section Arrays.
Context {A : Type}.

(** [const [x] = arr.splice(start, 1)]: the removed element
    ([None] is [undefined]) and the array left. *)
Definition splice_take1 (start : Z) (arr : list A) : option A * list A :=
  let k := rel_index (length arr) start in (arr !! k, delete k arr).

(** [arr.splice(start, 0, x)]. *)
Definition splice_put (start : Z) (x : A) (arr : list A) : list A :=
  let k := rel_index (length arr) start in take k arr ++ x :: drop k arr.

(** [arr.splice(start, 1)] when only the remaining array is used. *)
Definition splice_drop1 (start : Z) (arr : list A) : list A :=
  snd (splice_take1 start arr).

(** [arr.findIndex(p)]: the first index whose element satisfies [p],
    [-1] when there is none. *)
Definition findIndex (p : A → bool) (arr : list A) : Z :=
  match list_find (λ x, p x = true) arr with
  | Some (i, _) => Z.of_nat i
  | None => -1
  end.

(** [arr[i]] for an integer [i]: [undefined] out of range. *)
Definition at_index (arr : list A) (i : Z) : option A :=
  if i <? 0 then None else arr !! Z.to_nat i.

(** [arr.pop()] when only the remaining array is used. *)
Definition pop (arr : list A) : list A := removelast arr.
End Arrays.

End Js.

(** ** The preload bridge ([src/preload.js]) *)

Module Preload.
Import Js.

(** The character class [[a-zA-Z0-9_-]] of the regular expression. *)
Definition in_class (c : ascii) : bool :=
  let n := nat_of_ascii c in
  ((97 <=? n) && (n <=? 122) || (65 <=? n) && (n <=? 90)
   || (48 <=? n) && (n <=? 57) || (n =? 95) || (n =? 45))%nat.

Fixpoint all_in_class (s : string) : bool :=
  match s with
  | EmptyString => true
  | String c r => in_class c && all_in_class r
  end.

(** [/^[a-zA-Z0-9_-]+$/.test(s)]: one or more characters of the class
    and nothing else. *)
Definition regex_test (s : string) : bool :=
  match s with
  | EmptyString => false
  | String c r => in_class c && all_in_class r
  end.

Definition isValidVideoId (videoId : Value) : bool :=
  match videoId with
  | VString s => (String.length s =? 11)%nat && regex_test s
  | _ => false
  end.

(** What an exposed operation hands back to the renderer: a promise
    already resolved in the preload script, or one that stands for a
    call made to the main process over IPC. *)
Inductive Promise (A : Type) :=
| Resolved (v : A)
| Invoke (channel : string) (args : list Value).
Arguments Resolved {A} v.
Arguments Invoke {A} channel args.

(** The IPC calls an exposed operation has made. *)
Definition ipc_calls {A} (p : Promise A) : list (string * list Value) :=
  match p with
  | Resolved _ => []
  | Invoke channel args => [(channel, args)]
  end.

Definition getUpNexts (videoId countryCode : Value) : Promise (list Value) :=
  if isValidVideoId videoId
  then Invoke "get-up-nexts" [videoId; countryCode]
  else Resolved [].

Definition getAudioStream (videoId : Value) : Promise Value :=
  if isValidVideoId videoId
  then Invoke "get-audio-stream" [videoId]
  else Resolved VNull.

Definition getVideoStream (videoId : Value) : Promise Value :=
  if isValidVideoId videoId
  then Invoke "get-video-stream" [videoId]
  else Resolved VNull.

(** The sixty-four characters a video id is made of. *)
Definition alphabet : string :=
  "abcdefghijklmnopqrstuvwxyzABCDEFGHIJKLMNOPQRSTUVWXYZ0123456789_-".

(** A well-formed video id, in the words of the interface: a string
    of eleven characters, each one of the alphabet. *)
Definition well_formed_id (v : Value) : Prop :=
  ∃ s, v = VString s ∧ String.length s = 11%nat ∧
       Forall (λ c, In c (list_ascii_of_string alphabet)) (list_ascii_of_string s).

End Preload.

(** ** The player ([src/renderer.js]) *)

Module Player.
Import Js.

(** *** Data *)

(** An element of an [artists] array, or a bare [artists] field. *)
Inductive Scalar :=
| SUndefined
| SNull
| SStr (s : string).

(** The catalogue hands out [artists] either as an array or as a bare
    scalar. *)
Inductive Artists :=
| ArtistScalar (v : Scalar)
| ArtistArray (names : list Scalar).

(** A song object.  [thumbnails] keeps the [url] of each descriptor;
    a missing [id] is the empty string (both are falsy, and equal only
    to themselves). *)
Record Track := mkTrack {
  id : string;
  title : string;
  artists : Artists;
  thumbnails : list string
}.

(** An album or a playlist handed to [playSong]: albums carry
    [tracks], local playlists carry [songs]; [None] is an absent
    field. *)
Record Playlist := mkPlaylist {
  tracks : option (list Track);
  songs : option (list Track)
}.

(** The fields of [QueueManager] that are not DOM handles. *)
Record QueueManager := mkQueueManager {
  songQueue : list Track;
  currentSongIndex : Z;
  upNextSongs : list Track;
  prefetchedUrl : option string;
  prefetchedId : option string;
  playedHistory : list string
}.

(** The [<audio>] element, as far as the core reads it. *)
Record Audio := mkAudio {
  src : string;
  paused : bool
}.

(** The player bar: [player-thumbnail], [current-song-title],
    [current-song-artist], and whether [now-playing-info] is shown. *)
Record NowPlaying := mkNowPlaying {
  playerThumbnail : string;
  currentSongTitle : string;
  currentSongArtist : string;
  nowPlayingShown : bool
}.

(** What a suspended function waits for, with the variables its
    continuation has captured. *)
Inductive Task :=
| AwaitStream (song : Track) (token : Z)    (* playAudioAndUpdateUI, getAudioStream *)
| AwaitPlay (song : Track) (token : Z)      (* playAudioAndUpdateUI, audioPlayer.play *)
| AwaitPrefetch (nextSong : Track)          (* prefetchNext, getAudioStream *)
| AwaitUpNexts (currentSong : Track).       (* fetchUpNext, getUpNexts *)

(** What [getUpNexts] resolves with: anything that is not an array, or
    an array whose falsy items are [None]. *)
Inductive UpNextsReply :=
| NotAnArray
| ArrayOf (items : list (option Track)).

(** The renderer's state.  [isSongLoading] also stands for the loading
    overlay and the [buffering] class, which are set with it;
    [notifications] are the toasts shown so far, newest first, each
    with its type. *)
Record App := mkApp {
  latestPlayRequestToken : Z;
  isSongLoading : bool;
  audioPlayer : Audio;
  nowPlaying : NowPlaying;
  notifications : list (string * string);
  queueManager : QueueManager;
  pending : gmap nat Task;
  nextTaskId : nat
}.

Definition initialQueueManager : QueueManager :=
  mkQueueManager [] (-1) [] None None [].

Definition initial : App :=
  mkApp 0 false (mkAudio "" true) (mkNowPlaying "" "" "" false) []
        initialQueueManager ∅ 0.

(** *** Field updates *)

Definition set_songQueue (q : list Track) (m : QueueManager) : QueueManager :=
  mkQueueManager q (currentSongIndex m) (upNextSongs m)
                 (prefetchedUrl m) (prefetchedId m) (playedHistory m).

Definition set_currentSongIndex (i : Z) (m : QueueManager) : QueueManager :=
  mkQueueManager (songQueue m) i (upNextSongs m)
                 (prefetchedUrl m) (prefetchedId m) (playedHistory m).

Definition set_upNextSongs (u : list Track) (m : QueueManager) : QueueManager :=
  mkQueueManager (songQueue m) (currentSongIndex m) u
                 (prefetchedUrl m) (prefetchedId m) (playedHistory m).

Definition set_prefetched (url idv : option string) (m : QueueManager) : QueueManager :=
  mkQueueManager (songQueue m) (currentSongIndex m) (upNextSongs m)
                 url idv (playedHistory m).

Definition set_playedHistory (h : list string) (m : QueueManager) : QueueManager :=
  mkQueueManager (songQueue m) (currentSongIndex m) (upNextSongs m)
                 (prefetchedUrl m) (prefetchedId m) h.

Definition with_queueManager (f : QueueManager → QueueManager) (a : App) : App :=
  mkApp (latestPlayRequestToken a) (isSongLoading a) (audioPlayer a) (nowPlaying a)
        (notifications a) (f (queueManager a)) (pending a) (nextTaskId a).

Definition set_token (t : Z) (a : App) : App :=
  mkApp t (isSongLoading a) (audioPlayer a) (nowPlaying a)
        (notifications a) (queueManager a) (pending a) (nextTaskId a).

Definition set_isSongLoading (b : bool) (a : App) : App :=
  mkApp (latestPlayRequestToken a) b (audioPlayer a) (nowPlaying a)
        (notifications a) (queueManager a) (pending a) (nextTaskId a).

Definition set_audioPlayer (p : Audio) (a : App) : App :=
  mkApp (latestPlayRequestToken a) (isSongLoading a) p (nowPlaying a)
        (notifications a) (queueManager a) (pending a) (nextTaskId a).

Definition set_nowPlaying (n : NowPlaying) (a : App) : App :=
  mkApp (latestPlayRequestToken a) (isSongLoading a) (audioPlayer a) n
        (notifications a) (queueManager a) (pending a) (nextTaskId a).

(** [showNotification(message, type)]. *)
Definition showNotification (message type : string) (a : App) : App :=
  mkApp (latestPlayRequestToken a) (isSongLoading a) (audioPlayer a) (nowPlaying a)
        ((message, type) :: notifications a) (queueManager a) (pending a) (nextTaskId a).

(** Suspend on an external call: the task gets a fresh handle. *)
Definition spawn (t : Task) (a : App) : App :=
  mkApp (latestPlayRequestToken a) (isSongLoading a) (audioPlayer a) (nowPlaying a)
        (notifications a) (queueManager a)
        (<[nextTaskId a := t]> (pending a)) (S (nextTaskId a)).

(** A settled task leaves the pending set. *)
Definition retire (k : nat) (a : App) : App :=
  mkApp (latestPlayRequestToken a) (isSongLoading a) (audioPlayer a) (nowPlaying a)
        (notifications a) (queueManager a) (delete k (pending a)) (nextTaskId a).

(** [audioPlayer.play()], [audioPlayer.pause()], [audioPlayer.src = url]. *)
Definition audio_play (a : App) : App :=
  set_audioPlayer (mkAudio (src (audioPlayer a)) false) a.
Definition audio_pause (a : App) : App :=
  set_audioPlayer (mkAudio (src (audioPlayer a)) true) a.
Definition audio_set_src (url : string) (a : App) : App :=
  set_audioPlayer (mkAudio url (paused (audioPlayer a))) a.

(** *** Joining the artists of a track *)

(** An element of a joined array prints as itself, [undefined] and
    [null] as nothing. *)
Definition scalar_text (v : Scalar) : string :=
  match v with SStr s => s | _ => "" end.

(** [(song.artists || []).join(', ')]; [None] when the receiver is a
    non-empty string, which has no [join]. *)
Definition artists_text (v : Artists) : option string :=
  match v with
  | ArtistArray names => Some (String.concat ", " (map scalar_text names))
  | ArtistScalar (SStr s) => if truthy s then None else Some ""
  | ArtistScalar _ => Some ""
  end.

(** The message of the [TypeError] raised in that case. *)
Definition join_type_error : string :=
  "(song.artists || []).join is not a function".

(** *** [QueueManager] methods *)

(** [addToHistory(songId)]. *)
Definition addToHistory (songId : string) (m : QueueManager) : QueueManager :=
  if negb (truthy songId) then m
  else
    let filtered := filter (λ x, x ≠ songId) (playedHistory m) in
    let unshifted := songId :: filtered in
    set_playedHistory
      (if (50 <? length unshifted)%nat then pop unshifted else unshifted) m.

(** [s => s.id === song.id]. *)
Definition same_id (songId : string) (s : Track) : bool :=
  bool_decide (id s = songId).

(** [sourcePlaylist.tracks || sourcePlaylist.songs || []]
    (an array, even an empty one, is truthy). *)
Definition tracklist_of (p : Playlist) : list Track :=
  match tracks p with
  | Some t => t
  | None => match songs p with Some s => s | None => [] end
  end.

(** [setSongForPlayback(song, sourcePlaylist)]. *)
Definition setSongForPlayback (song : Track) (sourcePlaylist : option Playlist)
    (m : QueueManager) : QueueManager :=
  match sourcePlaylist with
  | Some p =>
      let tracklist := tracklist_of p in
      set_currentSongIndex (findIndex (same_id (id song)) tracklist)
        (set_songQueue tracklist m)
  | None =>
      let existingIndex := findIndex (same_id (id song)) (songQueue m) in
      if negb (existingIndex =? -1) then set_currentSongIndex existingIndex m
      else
        set_currentSongIndex (currentSongIndex m + 1)
          (set_songQueue
             (splice_put (currentSongIndex m + 1) song (songQueue m)) m)
  end.

(** [getCurrentItem()]: [None] is [null]. *)
Definition getCurrentItem (m : QueueManager) : option Track :=
  at_index (songQueue m) (currentSongIndex m).

(** [getPrefetchedUrl(songId)] and [clearPrefetchedUrl()]. *)
Definition getPrefetchedUrl (songId : string) (m : QueueManager) : option string :=
  if bool_decide (prefetchedId m = Some songId) then prefetchedUrl m else None.

Definition clearPrefetchedUrl (m : QueueManager) : QueueManager :=
  set_prefetched None None m.

(** [renderQueue()] writes one list item for every entry of
    [songQueue], with [(item.artists || []).join(', ')] in it, so it
    throws at an entry whose [artists] has no [join].  The list it
    writes is not kept here, only whether the call returns; the page
    holds the element the list is written to. *)
Definition renderQueue (m : QueueManager) : bool :=
  forallb (λ item, match artists_text (artists item) with
                   | Some _ => true
                   | None => false
                   end)
          (songQueue m).

(** [addSongToPlayNext(song)]: the toast comes after [renderQueue()]. *)
Definition addSongToPlayNext (song : Track) (a : App) : App :=
  let a1 :=
    with_queueManager
      (λ m, set_songQueue
              (splice_put (currentSongIndex m + 1) song (songQueue m)) m) a in
  if renderQueue (queueManager a1)
  then showNotification "Will play next" "info" a1
  else a1.

(** [prefetchNext()] up to its [await].  When [songQueue[nextIndex]]
    is [undefined], reading its [id] throws inside the [try] and the
    handler clears the (already cleared) cache. *)
Definition prefetchNext (a : App) : App :=
  let a1 := with_queueManager clearPrefetchedUrl a in
  let m := queueManager a1 in
  let nextIndex := currentSongIndex m + 1 in
  if nextIndex <? Z.of_nat (length (songQueue m)) then
    match at_index (songQueue m) nextIndex with
    | Some nextSong => spawn (AwaitPrefetch nextSong) a1
    | None => with_queueManager clearPrefetchedUrl a1
    end
  else a1.

(** [prefetchNext()] after its [await]. *)
Definition prefetchNext_resume (nextSong : Track) (o : Outcome (option string))
    (a : App) : App :=
  match o with
  | Fulfilled url =>
      with_queueManager (set_prefetched url (Some (id nextSong))) a
  | Rejected _ => with_queueManager clearPrefetchedUrl a
  end.

(** [fetchUpNext()] up to its [await]. *)
Definition fetchUpNext (a : App) : App :=
  match getCurrentItem (queueManager a) with
  | None => with_queueManager (set_upNextSongs []) a
  | Some currentSong => spawn (AwaitUpNexts currentSong) a
  end.

(** [Array.isArray(song.artists) ? song.artists : [song.artists]]. *)
Definition normalize_artists (v : Artists) : Artists :=
  match v with
  | ArtistArray names => ArtistArray names
  | ArtistScalar x => ArtistArray [x]
  end.

Definition normalize (song : Track) : Track :=
  mkTrack (id song) (title song) (normalize_artists (artists song)) (thumbnails song).

(** The filter of [fetchUpNext]:
    [song && !playedHistory.includes(song.id) && !currentQueueIds.includes(song.id)]. *)
Definition keep_candidate (history currentQueueIds : list string)
    (item : option Track) : option Track :=
  match item with
  | None => None
  | Some song =>
      if negb (bool_decide (id song ∈ history))
         && negb (bool_decide (id song ∈ currentQueueIds))
      then Some song else None
  end.

(** [fetchUpNext()] after its [await]. *)
Definition fetchUpNext_resume (o : Outcome UpNextsReply) (a : App) : App :=
  match o with
  | Fulfilled upNexts =>
      let m := queueManager a in
      let currentQueueIds := map id (songQueue m) in
      let items := match upNexts with ArrayOf l => l | NotAnArray => [] end in
      with_queueManager
        (set_upNextSongs
           (map normalize
              (omap (keep_candidate (playedHistory m) currentQueueIds) items))) a
  | Rejected _ => with_queueManager (set_upNextSongs []) a
  end.

(** *** [playAudioAndUpdateUI] *)

(** The [catch] block: every error but the stale marker is shown. *)
Definition on_error (message : string) (a : App) : App :=
  if bool_decide (message = "Stale request") then a
  else showNotification (or_else message "Could not play song.") "error" a.

(** The [finally] block. *)
Definition on_exit (a : App) : App := set_isSongLoading false a.

(** [!streamUrl]. *)
Definition no_url (streamUrl : option string) : bool :=
  match streamUrl with Some u => negb (truthy u) | None => true end.

(** Up to [await window.electronAPI.getAudioStream(song.id)]. *)
Definition playAudioAndUpdateUI (song : option Track) (token : Z) (a : App) : App :=
  match song with
  | None => a
  | Some song =>
      if negb (truthy (id song)) then a
      else if negb (token =? latestPlayRequestToken a) then a
      else spawn (AwaitStream song token) (set_isSongLoading true a)
  end.

(** From the stream's settlement to [await audioPlayer.play()]. *)
Definition playAudio_afterStream (song : Track) (token : Z)
    (o : Outcome (option string)) (a : App) : App :=
  match o with
  | Rejected message => on_exit (on_error message a)
  | Fulfilled streamUrl =>
      if negb (token =? latestPlayRequestToken a)
      then on_exit (on_error "Stale request" a)
      else if no_url streamUrl
      then on_exit (on_error "Could not fetch stream URL" a)
      else
        spawn (AwaitPlay song token)
          (audio_play
             (audio_set_src (default "" streamUrl)
                (with_queueManager clearPrefetchedUrl a)))
  end.

(** From the settlement of [audioPlayer.play()] to the end. *)
Definition playAudio_afterPlay (song : Track) (o : Outcome unit) (a : App) : App :=
  match o with
  | Rejected message => on_exit (on_error message a)
  | Fulfilled _ =>
      let thumbnailUrl :=
        or_else (default "" (head (thumbnails song)))
                "assets/icons/default-art.png" in
      let np := nowPlaying a in
      match artists_text (artists song) with
      | None =>
          on_exit (on_error join_type_error
            (set_nowPlaying
               (mkNowPlaying thumbnailUrl (title song)
                             (currentSongArtist np) (nowPlayingShown np)) a))
      | Some text =>
          let a1 :=
            set_nowPlaying (mkNowPlaying thumbnailUrl (title song) text true) a in
          on_exit
            (fetchUpNext
               (prefetchNext
                  (with_queueManager (addToHistory (id song)) a1)))
      end
  end.

(** *** Play requests *)

(** [++latestPlayRequestToken]: the state with the counter advanced;
    the captured token is its new value. *)
Definition next_token (a : App) : App :=
  set_token (latestPlayRequestToken a + 1) a.

(** [playSong(song, sourcePlaylist)].  [setSongForPlayback] ends with
    [renderQueue()]: when that throws, the call is over with the token
    advanced and the queue written, and nothing is requested. *)
Definition playSong (song : option Track) (sourcePlaylist : option Playlist)
    (a : App) : App :=
  match song with
  | None => a
  | Some song =>
      if negb (truthy (id song)) then a
      else
        let resume :=
          match getCurrentItem (queueManager a) with
          | Some currentItem =>
              truthy (src (audioPlayer a))
              && bool_decide (id song = id currentItem)
              && paused (audioPlayer a)
          | None => false
          end in
        if resume then audio_play a
        else
          let a1 := next_token a in
          let playToken := latestPlayRequestToken a1 in
          let a2 := with_queueManager (setSongForPlayback song sourcePlaylist) a1 in
          if renderQueue (queueManager a2)
          then playAudioAndUpdateUI (getCurrentItem (queueManager a2)) playToken a2
          else a2
  end.

(** [addSongToQueue(song)]: the toast and the start of playback come
    after [renderQueue()]. *)
Definition addSongToQueue (song : Track) (a : App) : App :=
  let a1 := with_queueManager (λ m, set_songQueue (songQueue m ++ [song]) m) a in
  if renderQueue (queueManager a1) then
    let a2 := showNotification "Added to queue" "info" a1 in
    let m := queueManager a2 in
    if (currentSongIndex m =? -1) && (length (songQueue m) =? 1)%nat
    then playSong (head (songQueue m)) None a2
    else a2
  else a1.

(** [playNextOrUpNext()], also [next()] and the [ended] handler.  In
    this method and in those below [renderQueue()] is the last
    statement, or is followed by another rendering only: when it
    throws, the state is written already. *)
Definition playNextOrUpNext (a : App) : App :=
  let a1 := next_token a in
  let playToken := latestPlayRequestToken a1 in
  let m := queueManager a1 in
  if currentSongIndex m <? Z.of_nat (length (songQueue m)) - 1 then
    let a2 := with_queueManager (set_currentSongIndex (currentSongIndex m + 1)) a1 in
    playAudioAndUpdateUI
      (at_index (songQueue m) (currentSongIndex m + 1)) playToken a2
  else
    match upNextSongs m with
    | nextSongToPlay :: rest =>
        let a2 :=
          with_queueManager
            (λ m, set_currentSongIndex (currentSongIndex m + 1)
                    (set_songQueue (songQueue m ++ [nextSongToPlay])
                       (set_upNextSongs rest m))) a1 in
        playAudioAndUpdateUI (Some nextSongToPlay) playToken a2
    | [] => audio_pause a1
    end.

(** [previous()]; [lateInTrack] is [audioPlayer.currentTime > 3] as
    read by the call, in which case the track is rewound and nothing
    else changes. *)
Definition previous (lateInTrack : bool) (a : App) : App :=
  let m := queueManager a in
  if (length (songQueue m) =? 0)%nat then a
  else if lateInTrack then a
  else if 0 <? currentSongIndex m then
    let a1 := with_queueManager (set_currentSongIndex (currentSongIndex m - 1)) a in
    let a2 := next_token a1 in
    playAudioAndUpdateUI
      (at_index (songQueue m) (currentSongIndex m - 1))
      (latestPlayRequestToken a2) a2
  else a.

(** [removeItem(index)]. *)
Definition removeItem (index : Z) (a : App) : App :=
  let m := queueManager a in
  if (index <? 0) || (Z.of_nat (length (songQueue m)) <=? index) then a
  else
    let isRemovingCurrent := index =? currentSongIndex m in
    let a1 :=
      with_queueManager (set_songQueue (splice_drop1 index (songQueue m))) a in
    if isRemovingCurrent then
      playNextOrUpNext
        (with_queueManager (set_currentSongIndex (currentSongIndex m - 1)) a1)
    else if index <? currentSongIndex m then
      with_queueManager (set_currentSongIndex (currentSongIndex m - 1)) a1
    else a1.

(** [reorderItem(oldIndex, newIndex)].  When [oldIndex] is past the
    end nothing is removed and [undefined] is inserted: the queue is no
    longer an array of songs, and the result is [None]. *)
Definition reorderItem (oldIndex newIndex : Z) (m : QueueManager)
    : option QueueManager :=
  if oldIndex =? newIndex then Some m
  else
    let currentSongId := default "" (id <$> getCurrentItem m) in
    match splice_take1 oldIndex (songQueue m) with
    | (Some movedItem, rest) =>
        let queue := splice_put newIndex movedItem rest in
        let m1 := set_songQueue queue m in
        Some (if truthy currentSongId
              then set_currentSongIndex (findIndex (same_id currentSongId) queue) m1
              else m1)
    | (None, _) => None
    end.

(** [playFromUpNext(index)]. *)
Definition playFromUpNext (index : Z) (a : App) : App :=
  let m := queueManager a in
  match at_index (upNextSongs m) index with
  | Some songToPlay =>
      let queue := songQueue m ++ [songToPlay] in
      let a1 :=
        with_queueManager
          (λ m, set_currentSongIndex (Z.of_nat (length queue) - 1)
                  (set_upNextSongs (splice_drop1 index (upNextSongs m))
                     (set_songQueue queue m))) a in
      let a2 := next_token a1 in
      playAudioAndUpdateUI (Some songToPlay) (latestPlayRequestToken a2) a2
  | None => a
  end.

(** The click listener that [renderQueue] puts on the item of the
    queue list showing [songQueue[index]]. *)
Definition onQueueItemClick (index : Z) (a : App) : App :=
  let a1 := next_token a in
  let playToken := latestPlayRequestToken a1 in
  let a2 := with_queueManager (set_currentSongIndex index) a1 in
  playAudioAndUpdateUI (at_index (songQueue (queueManager a)) index) playToken a2.

(** *** The event loop *)

(** How the environment settles a pending task. *)
Inductive Settlement :=
| StreamSettled (o : Outcome (option string))
| PlaySettled (o : Outcome unit)
| PrefetchSettled (o : Outcome (option string))
| UpNextsSettled (o : Outcome UpNextsReply).

Inductive Event :=
| PlaySong (song : option Track) (sourcePlaylist : option Playlist)
| AddSongToQueue (song : Track)
| AddSongToPlayNext (song : Track)
| Next
| Ended
| Previous (lateInTrack : bool)
| RemoveItem (index : Z)
| ReorderItem (oldIndex newIndex : Z)
| PlayFromUpNext (index : Z)
| QueueItemClick (index : Z)
| Settle (k : nat) (s : Settlement).

(** Resume the continuation of task [t]; [None] when the settlement is
    not of the kind the task waits for. *)
Definition resume (t : Task) (s : Settlement) (a : App) : option App :=
  match t, s with
  | AwaitStream song token, StreamSettled o => Some (playAudio_afterStream song token o a)
  | AwaitPlay song _, PlaySettled o => Some (playAudio_afterPlay song o a)
  | AwaitPrefetch nextSong, PrefetchSettled o => Some (prefetchNext_resume nextSong o a)
  | AwaitUpNexts _, UpNextsSettled o => Some (fetchUpNext_resume o a)
  | _, _ => None
  end.

(** One turn of the event loop; [None] when the event cannot happen
    (no such pending task, no such item in the queue list) or leaves
    the model (see [reorderItem]).  A click is taken on a queue list
    written from the present queue, which shows exactly the indices
    of [songQueue]; the list left behind by a [renderQueue()] that
    threw is an older one, and clicks on it are not events here. *)
Definition step (e : Event) (a : App) : option App :=
  match e with
  | PlaySong song sourcePlaylist => Some (playSong song sourcePlaylist a)
  | AddSongToQueue song => Some (addSongToQueue song a)
  | AddSongToPlayNext song => Some (addSongToPlayNext song a)
  | Next | Ended => Some (playNextOrUpNext a)
  | Previous lateInTrack => Some (previous lateInTrack a)
  | RemoveItem index => Some (removeItem index a)
  | ReorderItem oldIndex newIndex =>
      m ← reorderItem oldIndex newIndex (queueManager a);
      Some (with_queueManager (λ _, m) a)
  | PlayFromUpNext index => Some (playFromUpNext index a)
  | QueueItemClick index =>
      if (0 <=? index) && (index <? Z.of_nat (length (songQueue (queueManager a))))
      then Some (onQueueItemClick index a)
      else None
  | Settle k s =>
      t ← pending a !! k;
      resume t s (retire k a)
  end.

Fixpoint run (es : list Event) (a : App) : option App :=
  match es with
  | [] => Some a
  | e :: es => a1 ← step e a; run es a1
  end.

End Player.

(** ** Notions used by the properties *)

Module Props.
Import Js Player.

(** The cursor is [-1] or an index of the queue. *)
Definition cursor_ok (m : QueueManager) : Prop :=
  currentSongIndex m = -1
  ∨ 0 ≤ currentSongIndex m < Z.of_nat (length (songQueue m)).


(** The queue operations of the design document, by the method that
    implements each. *)
Inductive QueueOp :=
| SetForPlayback (track : Track) (sourceCollection : option Playlist)
| Append (track : Track)
| InsertNext (track : Track)
| Advance
| Retreat (lateInTrack : bool)
| RemoveAt (index : Z)
| Reorder (oldIndex newIndex : Z)
| PlayFromRecommendations (index : Z).

Definition apply_op (op : QueueOp) (a : App) : option App :=
  match op with
  | SetForPlayback track source =>
      Some (with_queueManager (setSongForPlayback track source) a)
  | Append track => Some (addSongToQueue track a)
  | InsertNext track => Some (addSongToPlayNext track a)
  | Advance => Some (playNextOrUpNext a)
  | Retreat lateInTrack => Some (previous lateInTrack a)
  | RemoveAt index => Some (removeItem index a)
  | Reorder oldIndex newIndex =>
      m ← reorderItem oldIndex newIndex (queueManager a);
      Some (with_queueManager (λ _, m) a)
  | PlayFromRecommendations index => Some (playFromUpNext index a)
  end.

(** [oldIndex] designates an element of the queue, counting from the
    end when negative, as [splice] reads it. *)
Definition designates (oldIndex : Z) (queue : list Track) : Prop :=
  (rel_index (length queue) oldIndex < length queue)%nat.

(** The operation stays within arrays of songs: only a reorder whose
    [oldIndex] designates nothing does not. *)
Definition in_model (op : QueueOp) (a : App) : Prop :=
  match op with
  | Reorder oldIndex newIndex =>
      oldIndex = newIndex ∨ designates oldIndex (songQueue (queueManager a))
  | _ => True
  end.

(** The manager after recording [ids] one after the other, starting
    with no history. *)
Definition record_all (ids : list string) : QueueManager :=
  foldl (λ m songId, addToHistory songId m) initialQueueManager ids.

(** What the history satisfies at all times. *)
Definition history_ok (h : list string) : Prop :=
  (length h ≤ 50)%nat ∧ NoDup h ∧ "" ∉ h.

(** Fifty distinct ids: the one-letter strings from ["A"] on. *)
Definition fifty_ids : list string :=
  map (λ n, String (ascii_of_nat n) EmptyString) (seq 65 50).

(** [queue'] is [queue] with the element that [oldIndex] designates
    moved to [newIndex], and nothing else changed: that element is at
    the place [newIndex] designates among the others, and the others
    follow one another as they did.  Both indices are read as
    [splice] reads them, [newIndex] in the queue without the
    element. *)
Definition moved (oldIndex newIndex : Z) (queue queue' : list Track) : Prop :=
  let i := rel_index (length queue) oldIndex in
  let j := rel_index (length queue - 1) newIndex in
  queue' !! j = queue !! i ∧ delete j queue' = delete i queue.




(** [Array.isArray(artists)]. *)
Definition is_array (v : Artists) : bool :=
  match v with ArtistArray _ => true | ArtistScalar _ => false end.

(** A request that awaits its stream under a token other than the
    current one. *)
Definition stale_task (current : Z) (t : Task) : bool :=
  match t with
  | AwaitStream _ token => negb (token =? current)
  | _ => false
  end.

(** Handle [k] is that of such a request of [a]. *)
Definition stale_handle (a : App) (k : nat) : bool :=
  match pending a !! k with
  | Some t => stale_task (latestPlayRequestToken a) t
  | None => false
  end.

(** The event settles such a request of [a]. *)
Definition stale_settle (a : App) (e : Event) : bool :=
  match e with
  | Settle k _ => stale_handle a k
  | _ => false
  end.

Definition is_settle (e : Event) : bool :=
  match e with Settle _ _ => true | _ => false end.

(** The event rejects the stream of a stale request of [a]. *)
Definition stale_rejection (a : App) (e : Event) : bool :=
  match e with
  | Settle k (StreamSettled (Rejected _)) => stale_handle a k
  | _ => false
  end.

(** The tasks that are not stale. *)
Definition live_pending (a : App) : gmap nat Task :=
  filter (λ kt, stale_task (latestPlayRequestToken a) kt.2 = false) (pending a).

(** Two states that agree on playback: token, audio element, player
    bar, queue manager (queue, cursor, recommendations, prefetch
    cache, history) and the calls awaited by live tasks.  They may
    differ on the loading indicator, the toasts and the stale tasks
    still pending. *)
Definition same_playback (a b : App) : Prop :=
  latestPlayRequestToken a = latestPlayRequestToken b
  ∧ audioPlayer a = audioPlayer b
  ∧ nowPlaying a = nowPlaying b
  ∧ queueManager a = queueManager b
  ∧ nextTaskId a = nextTaskId b
  ∧ live_pending a = live_pending b.

(** [same_playback], and the same toasts when [strict]. *)
Definition agree (strict : bool) (a b : App) : Prop :=
  same_playback a b ∧ (strict = true → notifications a = notifications b).

(** Handles of pending tasks were all handed out already. *)
Definition fresh_handles (a : App) : Prop :=
  ∀ k, is_Some (pending a !! k) → (k < nextTaskId a)%nat.

(** Every request that awaits its stream holds a token that was handed
    out, and no two of them hold the same. *)
Definition tokens_ok (a : App) : Prop :=
  ∀ k song token,
    pending a !! k = Some (AwaitStream song token) →
    token ≤ latestPlayRequestToken a
    ∧ ∀ k' song', pending a !! k' = Some (AwaitStream song' token) → k' = k.

(** A task that is stale under no token: anything but a request
    awaiting its stream. *)
Definition never_stale (t : Task) : Prop :=
  ∀ current, stale_task current t = false.

(** [a'] comes after [a] in a run of settlements: same token, no
    handle reused, and the only new tasks are never stale. *)
Definition extends (a a' : App) : Prop :=
  latestPlayRequestToken a' = latestPlayRequestToken a
  ∧ (nextTaskId a ≤ nextTaskId a')%nat
  ∧ ∀ k t, pending a' !! k = Some t →
      pending a !! k = Some t ∨ ((nextTaskId a ≤ k)%nat ∧ never_stale t).

(** The stale handles of [a0] still tell which tasks of [a] are stale. *)
Definition tracks_stale (a0 a : App) : Prop :=
  latestPlayRequestToken a = latestPlayRequestToken a0
  ∧ (∀ k, stale_handle a0 k = true → (k < nextTaskId a)%nat)
  ∧ ∀ k t, pending a !! k = Some t →
      stale_task (latestPlayRequestToken a0) t = stale_handle a0 k.

(** What the player shows and plays: the audio element, the player
    bar, the loading indicator and the toasts. *)
Definition ui (a : App) : Audio * NowPlaying * bool * list (string * string) :=
  (audioPlayer a, nowPlaying a, isSongLoading a, notifications a).

(** "The settlement of a stale request changes nothing of what the
    player shows." *)
Definition stale_settlements_leave_ui_alone : Prop :=
  ∀ a k song token o a',
    pending a !! k = Some (AwaitStream song token) →
    token ≠ latestPlayRequestToken a →
    step (Settle k (StreamSettled o)) a = Some a' →
    ui a' = ui a.


(** "Whatever the queue and the indices, a reorder leaves the id of
    the current track unchanged." *)
Definition reorder_keeps_current_id : Prop :=
  ∀ m oldIndex newIndex current m',
    getCurrentItem m = Some current →
    reorderItem oldIndex newIndex m = Some m' →
    id <$> getCurrentItem m' = Some (id current).

(** Some tracks and states used in examples; ids are well-formed video
    ids. *)
Definition songA : Track := mkTrack "AAAAAAAAAAA" "Song A" (ArtistArray [SStr "Ann"]) [].
Definition songB : Track := mkTrack "BBBBBBBBBBB" "Song B" (ArtistArray [SStr "Bob"]) [].
Definition songX : Track := mkTrack "XXXXXXXXXXX" "Song X" (ArtistScalar (SStr "Xi")) [].

(** A track that came without an id. *)
Definition songN : Track := mkTrack "" "Song N" (ArtistArray [SStr "Nat"]) [].

(** N and then A are queued, and [next()] is pressed: N is not played
    for want of an id, but the cursor is on it. *)
Definition on_track_without_id : App :=
  default initial
    (run [ AddSongToQueue songN; AddSongToQueue songA; Next ] initial).

(** Two play requests issued back to back from the initial state. *)
Definition two_requests : App :=
  playSong (Some songB) None (playSong (Some songA) None initial).

(** A is played, B is queued behind it, and playback moves on to B:
    the cursor is on the last track and nothing is recommended. *)
Definition on_last_track : App :=
  playNextOrUpNext (addSongToQueue songB (playSong (Some songA) None initial)).

(** An album that holds A and B. *)
Definition albumAB : Playlist := mkPlaylist (Some [songA; songB]) None.

(** The streams the resolver hands out in the examples. *)
Definition urlA : string := "https://cdn/stream-A".
Definition urlB : string := "https://cdn/stream-B".
Definition cachedB : string := "https://cdn/prefetched-B".

(** A is requested and B queued behind it; A's stream arrives and A
    starts playing, which prefetches the stream of B and refreshes the
    recommendations (none come back). *)
Definition playing_A_prefetched_B : App :=
  default initial
    (run [ PlaySong (Some songA) None;
           AddSongToQueue songB;
           Settle 0 (StreamSettled (Fulfilled (Some urlA)));
           Settle 1 (PlaySettled (Fulfilled ()));
           Settle 2 (PrefetchSettled (Fulfilled (Some cachedB)));
           Settle 3 (UpNextsSettled (Fulfilled (ArrayOf []))) ]
         initial).

(** After [two_requests]: B's stream arrives, B starts playing, and
    only then A's stream arrives. *)
Definition late_stream_of_A : list Event :=
  [ Settle 1 (StreamSettled (Fulfilled (Some urlB)));
    Settle 2 (PlaySettled (Fulfilled ()));
    Settle 0 (StreamSettled (Fulfilled (Some urlA))) ].

Definition after_late_stream_of_A : App :=
  default initial (run late_stream_of_A two_requests).

(** A's stream arrives and A starts to play; B is requested before
    [audioPlayer.play()] has settled for A, and then it settles. *)
Definition superseded_while_starting : list Event :=
  [ PlaySong (Some songA) None;
    Settle 0 (StreamSettled (Fulfilled (Some urlA)));
    PlaySong (Some songB) None;
    Settle 1 (PlaySettled (Fulfilled ())) ].

End Props.

(** ** Notions used by the properties of whole sessions *)

Module Session.
Import Js Player Props.

(** A task of [playAudioAndUpdateUI]: the function is suspended
    between [isSongLoading = true] and its [finally] block. *)
Definition play_task (t : Task) : bool :=
  match t with
  | AwaitStream _ _ | AwaitPlay _ _ => true
  | AwaitPrefetch _ | AwaitUpNexts _ => false
  end.

(** The loading indicator is on only while a call of
    [playAudioAndUpdateUI] is suspended. *)
Definition loading_ok (a : App) : Prop :=
  isSongLoading a = true →
  ∃ k t, pending a !! k = Some t ∧ play_task t = true.

End Session.

(** ** Escaping ([escapeHTML], [src/renderer.js])

    The five characters that are replaced are ASCII, so the definition
    is the same whether a [string] is read as the code units of a
    JavaScript string that has none above 255, or as the bytes of the
    UTF-8 encoding of any string. *)

Module Markup.
Import Js.

(** [s.replace(/c/g, by)] for a pattern that is the one character
    [c]: the occurrences are found from left to right in [s], and the
    replacement text is not searched again. *)
Fixpoint replace_all (c : ascii) (by_ : string) (s : string) : string :=
  match s with
  | EmptyString => EmptyString
  | String x r =>
      if Ascii.eqb x c then by_ +:+ replace_all c by_ r
      else String x (replace_all c by_ r)
  end.

(** The double quote. *)
Definition dquote : ascii := "034"%char.

Definition escapeHTML (str : Value) : string :=
  match str with
  | VString s =>
      replace_all "'" "&#039;"
        (replace_all dquote "&quot;"
           (replace_all ">" "&gt;"
              (replace_all "<" "&lt;"
                 (replace_all "&" "&amp;" s))))
  | _ => ""
  end.

(** What one character becomes when all five are replaced at once. *)
Definition entity (c : ascii) : string :=
  if Ascii.eqb c "&" then "&amp;"
  else if Ascii.eqb c "<" then "&lt;"
  else if Ascii.eqb c ">" then "&gt;"
  else if Ascii.eqb c dquote then "&quot;"
  else if Ascii.eqb c "'" then "&#039;"
  else String c EmptyString.

(** Escaping in one pass over the string. *)
Fixpoint escape_each (s : string) : string :=
  match s with
  | EmptyString => EmptyString
  | String c r => entity c +:+ escape_each r
  end.

(** The characters that open or close a tag or an attribute value. *)
Definition markup : list ascii := ["<"; ">"; dquote; "'"]%char.

End Markup.

(** ** Text

    A [string] stands for a JavaScript string whose code units are all
    below 256, one [ascii] for each; a [list N] for any JavaScript
    string, as its UTF-16 code units. *)

Module Text.

(** The code units that [\s] matches and [trim] strips: the white
    space and the line terminators of ECMAScript. *)
Definition is_space (unit : N) : bool :=
  ((9 <=? unit) && (unit <=? 13)             (* TAB, LF, VT, FF, CR *)
   || (unit =? 32) || (unit =? 160)            (* SPACE, NO-BREAK SPACE *)
   || (unit =? 5760)                           (* U+1680 *)
   || (8192 <=? unit) && (unit <=? 8202)       (* U+2000 .. U+200A *)
   || (unit =? 8232) || (unit =? 8233)         (* U+2028, U+2029 *)
   || (unit =? 8239) || (unit =? 8287)         (* U+202F, U+205F *)
   || (unit =? 12288) || (unit =? 65279))%N.   (* U+3000, U+FEFF *)

Section Units.
Context {C : Type} (space : C → bool).

(** [s.trimStart()], [s.trimEnd()] and [s.trim()]. *)
Fixpoint trimStart (s : list C) : list C :=
  match s with
  | [] => []
  | c :: r => if space c then trimStart r else s
  end.

Fixpoint trimEnd (s : list C) : list C :=
  match s with
  | [] => []
  | c :: r =>
      match trimEnd r with
      | [] => if space c then [] else [c]
      | r' => c :: r'
      end
  end.

Definition trim (s : list C) : list C := trimEnd (trimStart s).

(** [s.replace(/\s+/g, by)]: every maximal run of white space
    becomes one [by]; [in_run] tells that the unit before was white
    space. *)
Fixpoint replace_runs (by_ : C) (in_run : bool) (s : list C) : list C :=
  match s with
  | [] => []
  | c :: r =>
      if space c
      then (if in_run then replace_runs by_ true r
            else by_ :: replace_runs by_ true r)
      else c :: replace_runs by_ false r
  end.

(** No two [by_] stand side by side in [s]. *)
Definition single (by_ : C) (s : list C) : Prop :=
  ∀ i, ¬ (s !! i = Some by_ ∧ s !! S i = Some by_).
End Units.

(** [trim] on a [string]. *)
Definition trim_string (s : string) : string :=
  string_of_list_ascii
    (trim (λ c, is_space (N_of_ascii c)) (list_ascii_of_string s)).

End Text.

(** ** The main process (the second part of [src/renderer.js]) *)

Module Main.
Import Js Player Text.

(** *** Formatting helpers *)

(** An object with a [name], as the catalogue nests them under
    [artist] and [author] and in [artists]. *)
Record Named := mkNamed { name_of : Scalar }.

(** What the catalogue hands to the helpers, as far as they read it;
    [None] is a field that is absent or [null]. *)
Record Item := mkItem {
  item_videoId : Scalar;
  item_name : Scalar;
  item_artist : option Named;
  item_artists : option (list Named);
  item_author : option Named;
  item_thumbnails : list string
}.

Definition truthy_scalar (v : Scalar) : bool :=
  match v with SStr s => truthy s | _ => false end.

(** [getArtistNames(item)]. *)
Definition getArtistNames (item : option Item) : list Scalar :=
  match item with
  | None => []
  | Some item =>
      let named (o : option Named) : bool :=
        match o with Some x => truthy_scalar (name_of x) | None => false end in
      if named (item_artist item)
      then [default SUndefined (name_of <$> item_artist item)]
      else
        match item_artists item with
        | Some (x :: l) => filter (λ v, truthy_scalar v = true) (map name_of (x :: l))
        | _ =>
            if named (item_author item)
            then [default SUndefined (name_of <$> item_author item)]
            else []
        end
  end.

(** [formatSong(item)], and [formatVideo(item)], which differs in the
    [type] and [album] fields only; [None] is [null]. *)
Definition formatSong (item : option Item) : option Track :=
  match item with
  | None => None
  | Some it =>
      if truthy_scalar (item_videoId it) && truthy_scalar (item_name it)
      then Some (mkTrack (scalar_text (item_videoId it)) (scalar_text (item_name it))
                         (ArtistArray (getArtistNames item)) (item_thumbnails it))
      else None
  end.

(** [items.map(formatSong).filter(Boolean)], as the handlers of
    [search-youtube] and [get-browse-details] build their song lists. *)
Definition formatSongs (items : list (option Item)) : list Track :=
  omap formatSong items.

(** *** Stream URLs *)

(** How the [yt-dlp] process ended: with an error, or with what it
    printed. *)
Inductive ExecResult :=
| ExecError
| ExecOutput (stdout : string).

(** [!v] for the values that cross the bridge. *)
Definition truthy_value (v : Value) : bool :=
  match v with
  | VUndefined | VNull => false
  | VBool b => b
  | VNumber n => negb (n =? 0)
  | VString s => truthy s
  | VObject => true
  end.

(** The handler of [get-audio-stream]: its promise has no [reject]. *)
Definition getAudioStreamHandler (videoId : Value) (exec : ExecResult)
    : Outcome (option string) :=
  if negb (truthy_value videoId) then Fulfilled None
  else
    match exec with
    | ExecError => Fulfilled None
    | ExecOutput stdout => Fulfilled (Some (trim_string stdout))
    end.

(** [window.electronAPI.getAudioStream(songId)] as the renderer sees it
    settle: through the preload script and, when that one forwards the
    call, through the handler. *)
Definition resolveAudioStream (songId : string) (exec : ExecResult)
    : Outcome (option string) :=
  match Preload.getAudioStream (VString songId) with
  | Preload.Resolved v =>
      Fulfilled match v with VString url => Some url | _ => None end
  | Preload.Invoke _ args => getAudioStreamHandler (default VUndefined (head args)) exec
  end.

(** The resolution of [songId] fails: the preload script refuses the
    id, or [yt-dlp] ends with an error, or it prints nothing but white
    space. *)
Definition resolution_fails (songId : string) (exec : ExecResult) : bool :=
  negb (Preload.isValidVideoId (VString songId))
  || match exec with
     | ExecError => true
     | ExecOutput stdout => negb (truthy (trim_string stdout))
     end.

(** A failed resolution as the renderer receives it from the awaited
    call: an empty result, or what a failing resolution settles the
    call with. *)
Definition received_failure (o : Outcome (option string)) : Prop :=
  (∃ url, o = Fulfilled url ∧ no_url url = true)
  ∨ (∃ songId exec, resolution_fails songId exec = true
                    ∧ o = resolveAudioStream songId exec).

(** *** The default path of a download *)

(** The class of the first [replace]: slash, backslash, question
    mark, percent, asterisk, colon, bar, double quote, less-than and
    greater-than. *)
Definition reserved : list N := [47; 92; 63; 37; 42; 58; 124; 34; 60; 62]%N.

(** The first [replace]: every unit of the class becomes [_]. *)
Definition replace_reserved (filename : list N) : list N :=
  map (λ c, if bool_decide (c ∈ reserved) then 95%N else c) filename.

(** The stem of [defaultPath]: what stands before [.mp3]. *)
Definition defaultStem (filename : list N) : list N :=
  trim is_space (replace_runs is_space 32%N false (replace_reserved filename)).

(** [defaultPath] of the save dialog of [download-audio]. *)
Definition defaultPath (filename : list N) : list N :=
  defaultStem filename ++ [46; 109; 112; 51]%N.

End Main.

(** ** Favourites, playlists and recently played ([src/renderer.js])

    What [localStorage] holds under a key is kept as the value it
    parses to.  Such a value went through [JSON.stringify], and what
    [JSON.parse] gives back is written the same again; a song that is
    put into storage from the renderer's memory is kept as
    [stored_song] of it. *)

Module Library.
Import Js Player Markup.

(** A playlist of the user. *)
Record UserPlaylist := mkUserPlaylist {
  pl_id : string;
  pl_name : string;
  pl_songs : list Track
}.

(** The variable [likedSongs], the class [liked] of the like button,
    and the keys [likedSongs], [userPlaylists] and [recentlyPlayed] of
    [localStorage]. *)
Record Library := mkLibrary {
  likedSongs : list Track;
  likeBtnLiked : bool;
  storedLikedSongs : list Track;
  userPlaylists : list UserPlaylist;
  recentlyPlayed : list Track
}.

Definition set_likedSongs (v : list Track) (l : Library) : Library :=
  mkLibrary v (likeBtnLiked l) (storedLikedSongs l) (userPlaylists l) (recentlyPlayed l).

Definition set_likeBtnLiked (v : bool) (l : Library) : Library :=
  mkLibrary (likedSongs l) v (storedLikedSongs l) (userPlaylists l) (recentlyPlayed l).

Definition set_userPlaylists (v : list UserPlaylist) (l : Library) : Library :=
  mkLibrary (likedSongs l) (likeBtnLiked l) (storedLikedSongs l) v (recentlyPlayed l).

Definition set_recentlyPlayed (v : list Track) (l : Library) : Library :=
  mkLibrary (likedSongs l) (likeBtnLiked l) (storedLikedSongs l) (userPlaylists l) v.

(** What [JSON.parse(JSON.stringify(song))] is: [undefined] inside
    an [artists] array is written as [null]; a field that is
    [undefined] is left out and reads as [undefined] again. *)
Definition stored_scalar (v : Scalar) : Scalar :=
  match v with SUndefined => SNull | _ => v end.

Definition stored_artists (v : Artists) : Artists :=
  match v with
  | ArtistArray names => ArtistArray (map stored_scalar names)
  | ArtistScalar x => ArtistScalar x
  end.

Definition stored_song (song : Track) : Track :=
  mkTrack (id song) (title song) (stored_artists (artists song)) (thumbnails song).

(** [saveLikedSongs()]: [likedSongs] holds the songs as the renderer
    has them. *)
Definition saveLikedSongs (l : Library) : Library :=
  mkLibrary (likedSongs l) (likeBtnLiked l) (map stored_song (likedSongs l))
            (userPlaylists l) (recentlyPlayed l).

(** [arr.some(s => s.id === songId)]. *)
Definition some_with_id (songId : string) (arr : list Track) : bool :=
  existsb (same_id songId) arr.

(** [updateLikeButtonState()]. *)
Definition updateLikeButtonState (l : Library) (a : App) : Library :=
  set_likeBtnLiked
    match getCurrentItem (queueManager a) with
    | Some currentSong => some_with_id (id currentSong) (likedSongs l)
    | None => false
    end l.

(** [addSongToFavorites(song)]; re-rendering the home view is left
    out. *)
Definition addSongToFavorites (song : option Track) (s : Library * App)
    : Library * App :=
  let (l, a) := s in
  match song with
  | None => s
  | Some song =>
      if negb (truthy (id song)) then s
      else if negb (some_with_id (id song) (likedSongs l)) then
        let l1 := saveLikedSongs (set_likedSongs (song :: likedSongs l) l) in
        let a1 := showNotification "Added to Favorites" "success" a in
        (updateLikeButtonState l1 a1, a1)
      else (l, showNotification "Already in Favorites" "info" a)
  end.

(** [toggleLikeSong()]. *)
Definition toggleLikeSong (s : Library * App) : Library * App :=
  let (l, a) := s in
  match getCurrentItem (queueManager a) with
  | None => s
  | Some currentSong =>
      let songIndex := findIndex (same_id (id currentSong)) (likedSongs l) in
      let (l1, a1) :=
        if -1 <? songIndex
        then (set_likedSongs (splice_drop1 songIndex (likedSongs l)) l,
              showNotification "Removed from Favorites" "info" a)
        else (set_likedSongs (currentSong :: likedSongs l) l,
              showNotification "Added to Favorites" "success" a) in
      (updateLikeButtonState (saveLikedSongs l1) a1, a1)
  end.

(** [updateRecentlyPlayed(song)]. *)
Definition updateRecentlyPlayed (song : Track) (l : Library) : Library :=
  let filtered := filter (λ item, id item ≠ id song) (recentlyPlayed l) in
  let unshifted := stored_song song :: filtered in
  set_recentlyPlayed
    (if (50 <? length unshifted)%nat then pop unshifted else unshifted) l.

(** A text between double quotes. *)
Definition quoted (s : string) : string :=
  String dquote (s +:+ String dquote EmptyString).

(** [playlist.songs.push(song)] on the playlist at index [i]. *)
Definition push_song (i : nat) (song : Track) (playlists : list UserPlaylist)
    : list UserPlaylist :=
  alter (λ p, mkUserPlaylist (pl_id p) (pl_name p) (pl_songs p ++ [song])) i playlists.

(** [addSongToPlaylist(playlistId, song)]; [find] returns the first
    playlist with that id. *)
Definition addSongToPlaylist (playlistId : string) (song : option Track)
    (s : Library * App) : Library * App :=
  let (l, a) := s in
  let invalid := (l, showNotification "Invalid song data." "error" a) in
  match song with
  | None => invalid
  | Some song =>
      if negb (truthy (id song)) then invalid
      else
        match list_find (λ p, pl_id p = playlistId) (userPlaylists l) with
        | None => (l, showNotification "Could not find the playlist." "error" a)
        | Some (i, playlist) =>
            let name := quoted (escapeHTML (VString (pl_name playlist))) in
            if some_with_id (id song) (pl_songs playlist)
            then (l, showNotification ("Song is already in " +:+ name) "info" a)
            else (set_userPlaylists
                    (push_song i (stored_song song) (userPlaylists l)) l,
                  showNotification ("Added to " +:+ name) "success" a)
        end
  end.

End Library.

(** ** The navigation history ([src/renderer.js]) *)

Module Navigation.
Import Js.

(** The entries of [historyStack]. *)
Inductive State :=
| ViewState (viewName : string)
| SearchState (query : string)
| BrowseState (browseId type : string)
| PlaylistState (playlistId : string).

(** [historyStack], [historyIndex], [isNavigatingHistory], the
    [disabled] flags of the two buttons, and the number of calls of
    [loadState] that wait for their loader. *)
Record Nav := mkNav {
  historyStack : list State;
  historyIndex : Z;
  isNavigatingHistory : bool;
  navBackDisabled : bool;
  navForwardDisabled : bool;
  loading : nat
}.

(** [updateNavButtons()]. *)
Definition updateNavButtons (n : Nav) : Nav :=
  mkNav (historyStack n) (historyIndex n) (isNavigatingHistory n)
        (historyIndex n <=? 0)
        (Z.of_nat (length (historyStack n)) - 1 <=? historyIndex n)
        (loading n).

(** [arr.slice(0, end)]. *)
Definition slice0 {A} (end_ : Z) (arr : list A) : list A :=
  take (rel_index (length arr) end_) arr.

(** [pushState(state)]: what every loader does first when it is not
    called from the history. *)
Definition pushState (state : State) (n : Nav) : Nav :=
  if isNavigatingHistory n then n
  else
    let stack :=
      if historyIndex n <? Z.of_nat (length (historyStack n)) - 1
      then slice0 (historyIndex n + 1) (historyStack n)
      else historyStack n in
    updateNavButtons
      (mkNav (stack ++ [state]) (historyIndex n + 1) (isNavigatingHistory n)
             (navBackDisabled n) (navForwardDisabled n) (loading n)).

(** [loadState(state)] up to the [await] of its loader; the loader is
    called with [fromHistory] set and pushes nothing. *)
Definition loadState (state : option State) (n : Nav) : Nav :=
  match state with
  | None => n
  | Some _ =>
      mkNav (historyStack n) (historyIndex n) true
            (navBackDisabled n) (navForwardDisabled n) (S (loading n))
  end.

(** The [finally] block of [loadState], when the loader has settled. *)
Definition loadState_finally (n : Nav) : Nav :=
  mkNav (historyStack n) (historyIndex n) false
        (navBackDisabled n) (navForwardDisabled n) (pred (loading n)).

Definition set_historyIndex (i : Z) (n : Nav) : Nav :=
  mkNav (historyStack n) i (isNavigatingHistory n)
        (navBackDisabled n) (navForwardDisabled n) (loading n).

(** [goBack()] and [goForward()]. *)
Definition goBack (n : Nav) : Nav :=
  if 0 <? historyIndex n then
    let n1 := set_historyIndex (historyIndex n - 1) n in
    updateNavButtons (loadState (at_index (historyStack n1) (historyIndex n1)) n1)
  else n.

Definition goForward (n : Nav) : Nav :=
  if historyIndex n <? Z.of_nat (length (historyStack n)) - 1 then
    let n1 := set_historyIndex (historyIndex n + 1) n in
    updateNavButtons (loadState (at_index (historyStack n1) (historyIndex n1)) n1)
  else n.

(** The navigation state before [initialize()]; what the two buttons
    show then is not decided by the script. *)
Definition blank (backDisabled forwardDisabled : bool) : Nav :=
  mkNav [] (-1) false backDisabled forwardDisabled 0.

(** [initialize()]: [loadView('home')] pushes the home view, and the
    stack is tested afterwards. *)
Definition initialize (n : Nav) : Nav :=
  let n1 := pushState (ViewState "home") n in
  if (length (historyStack n1) =? 0)%nat
  then pushState (ViewState "home") n1
  else n1.

(** What happens to the history: a loader is called from outside the
    history, a button is pressed, the loader of a [loadState] settles. *)
Inductive Event :=
| Navigate (state : State)
| Back
| Forward
| Loaded.

Definition step (e : Event) (n : Nav) : option Nav :=
  match e with
  | Navigate state => Some (pushState state n)
  | Back => Some (goBack n)
  | Forward => Some (goForward n)
  | Loaded => if (0 <? loading n)%nat then Some (loadState_finally n) else None
  end.

Fixpoint run (es : list Event) (n : Nav) : option Nav :=
  match es with
  | [] => Some n
  | e :: es => n1 ← step e n; run es n1
  end.

(** The index is on an entry, the buttons tell whether there is one
    before and one after it, and the flag is set only while a loader
    is awaited. *)
Definition nav_ok (n : Nav) : Prop :=
  0 ≤ historyIndex n < Z.of_nat (length (historyStack n))
  ∧ navBackDisabled n = (historyIndex n <=? 0)
  ∧ navForwardDisabled n = (Z.of_nat (length (historyStack n)) - 1 <=? historyIndex n)
  ∧ (isNavigatingHistory n = true → (0 < loading n)%nat).

End Navigation.

(** ** The video overlay ([src/renderer.js]) *)

Module Video.
Import Js Player.

(** [isVideoLoading], [wasAudioPlayingBeforeVideo],
    [isClosingVideoPlayer]; the [src] and [paused] of the video
    element; the class [visible] of its container; the number of
    [cancelVideoStream] messages sent and of [getVideoStream] calls
    that have not settled.  The [loadeddata] and [error] listeners of
    the video element are left out. *)
Record Overlay := mkOverlay {
  isVideoLoading : bool;
  wasAudioPlayingBeforeVideo : bool;
  isClosingVideoPlayer : bool;
  videoSrc : string;
  videoPaused : bool;
  visible : bool;
  cancelled : nat;
  awaited : nat
}.

(** [hideVideoPlayer()]; the timer that takes the container off the
    page is left out. *)
Definition hideVideoPlayer (s : Overlay * App) : Overlay * App :=
  let (o, a) := s in
  (mkOverlay false false true "" true false
             (if isVideoLoading o then S (cancelled o) else cancelled o)
             (awaited o),
   if wasAudioPlayingBeforeVideo o then audio_play a else a).

(** [playVideo(video)] up to its [await]. *)
Definition playVideo (video : Track) (s : Overlay * App) : Overlay * App :=
  let (o, a) := s in
  if isVideoLoading o then s
  else
    let was := negb (paused (audioPlayer a)) in
    let a1 := if was then audio_pause a else a in
    (mkOverlay true was (isClosingVideoPlayer o) (videoSrc o) (videoPaused o)
               (visible o) (cancelled o) (S (awaited o)),
     showNotification "Fetching video stream..." "info" a1).

(** [playVideo(video)] after its [await]. *)
Definition playVideo_resume (r : Outcome (option string)) (s : Overlay * App)
    : Overlay * App :=
  let (o, a) := s in
  let o1 :=
    mkOverlay (isVideoLoading o) (wasAudioPlayingBeforeVideo o)
              (isClosingVideoPlayer o) (videoSrc o) (videoPaused o) (visible o)
              (cancelled o) (pred (awaited o)) in
  match r with
  | Fulfilled videoUrl =>
      if isVideoLoading o1 && negb (no_url videoUrl) then
        (mkOverlay (isVideoLoading o1) (wasAudioPlayingBeforeVideo o1)
                   (isClosingVideoPlayer o1) (default "" videoUrl) false true
                   (cancelled o1) (awaited o1), a)
      else if no_url videoUrl then
        hideVideoPlayer (o1, showNotification "Could not fetch video URL." "error" a)
      else (o1, a)
  | Rejected _ =>
      hideVideoPlayer (o1, showNotification "Error playing video." "error" a)
  end.

(** [togglePlayPause()]. *)
Definition togglePlayPause (s : Overlay * App) : Overlay * App :=
  let (o, a) := s in
  if visible o then s
  else if negb (truthy (src (audioPlayer a))) then s
  else if paused (audioPlayer a) then (o, audio_play a)
  else (o, audio_pause a).

End Video.

(** ** Sample states *)

Module Samples.
Import Js Player Props.

(** A has been requested from the initial state. *)
Definition requested_A : App := playSong (Some songA) None initial.

(** X is queued and [next()] is pressed; its stream has arrived, and
    [audioPlayer.play()] is awaited. *)
Definition starting_X : App :=
  default initial
    (run [ AddSongToQueue songX; Next;
           Settle 0 (StreamSettled (Fulfilled (Some urlA))) ] initial).

(** The session that leads to [after_late_stream_of_A]. *)
Definition session_AB : list Event :=
  [ PlaySong (Some songA) None; PlaySong (Some songB) None ] ++ late_stream_of_A.

(** What [yt-dlp] prints for A: the URL and a line feed. *)
Definition printed_A : string := urlA +:+ String "010" EmptyString.

(** No favourites, no playlists, nothing played. *)
Definition no_library : Library.Library := Library.mkLibrary [] false [] [] [].

(** A search from the home view, and back. *)
Definition browsing : list Navigation.Event :=
  [ Navigation.Navigate (Navigation.SearchState "jazz"); Navigation.Back ].

Definition started : Navigation.Nav :=
  Navigation.initialize (Navigation.blank false false).

Definition after_back : Navigation.Nav :=
  default started (Navigation.run browsing started).

(** The overlay before any video was asked for. *)
Definition idle_overlay : Video.Overlay :=
  Video.mkOverlay false false false "" true false 0 0.

Definition videoUrl : string := "https://cdn/video-A".

End Samples.

(** * Properties *)

(** ** Arrays *)

Module JsFacts.
Import Js.

Section Arrays.
Context {A : Type}.
Implicit Types (arr : list A) (p : A → bool).

Lemma rel_index_in_range (len : nat) (i : Z) :
  0 ≤ i ≤ Z.of_nat len → rel_index len i = Z.to_nat i.
Proof.
  intros H. unfold rel_index.
  destruct (i <? 0) eqn:E; [apply Z.ltb_lt in E; lia|].
  f_equal. lia.
Qed.

Lemma rel_index_le (len : nat) (i : Z) : (rel_index len i ≤ len)%nat.
Proof.
  unfold rel_index. destruct (i <? 0) eqn:E; [apply Z.ltb_lt in E|]; lia.
Qed.

Lemma at_index_Some arr (i : Z) (x : A) :
  at_index arr i = Some x ↔ 0 ≤ i ∧ arr !! Z.to_nat i = Some x.
Proof.
  unfold at_index. destruct (i <? 0) eqn:E.
  - apply Z.ltb_lt in E. split; [discriminate | lia].
  - apply Z.ltb_ge in E. tauto.
Qed.

Lemma at_index_of_nat arr (n : nat) : at_index arr (Z.of_nat n) = arr !! n.
Proof.
  unfold at_index. destruct (Z.of_nat n <? 0) eqn:E.
  - apply Z.ltb_lt in E. lia.
  - now rewrite Nat2Z.id.
Qed.

Lemma at_index_is_Some arr (i : Z) :
  is_Some (at_index arr i) ↔ 0 ≤ i < Z.of_nat (length arr).
Proof.
  split.
  - intros [x Hx]. apply at_index_Some in Hx as [Hi Hx].
    apply lookup_lt_Some in Hx. lia.
  - intros Hi. destruct (lookup_lt_is_Some_2 arr (Z.to_nat i)) as [x Hx]; [lia|].
    exists x. apply at_index_Some. split; [lia | exact Hx].
Qed.

Lemma findIndex_found p arr (i : Z) :
  findIndex p arr = i → i ≠ -1 →
  ∃ x, at_index arr i = Some x ∧ p x = true.
Proof.
  unfold findIndex. destruct (list_find _ arr) as [[n x]|] eqn:E; [|congruence].
  intros <- _. apply list_find_Some in E as (Hx & Hp & _).
  exists x. now rewrite at_index_of_nat.
Qed.

Lemma findIndex_range p arr :
  findIndex p arr = -1 ∨ 0 ≤ findIndex p arr < Z.of_nat (length arr).
Proof.
  destruct (decide (findIndex p arr = -1)) as [|Hne]; [now left | right].
  destruct (findIndex_found p arr _ eq_refl Hne) as (x & Hx & _).
  apply at_index_is_Some. now exists x.
Qed.

Lemma findIndex_exists p arr (x : A) :
  x ∈ arr → p x = true →
  ∃ y, at_index arr (findIndex p arr) = Some y ∧ p y = true.
Proof.
  intros Hin Hp.
  destruct (list_find_elem_of (λ x, p x = true) arr x Hin Hp) as [[n y] E].
  unfold findIndex. rewrite E.
  apply list_find_Some in E as (Hy & Hpy & _).
  exists y. now rewrite at_index_of_nat.
Qed.

Lemma findIndex_none p arr :
  Forall (λ x, p x = false) arr → findIndex p arr = -1.
Proof.
  intros H. unfold findIndex.
  replace (list_find (λ x, p x = true) arr) with (@None (nat * A)); [reflexivity|].
  symmetry. apply list_find_None.
  eapply Forall_impl; [exact H|]. simpl. intros x ->. discriminate.
Qed.

Lemma splice_put_length (i : Z) (x : A) arr :
  length (splice_put i x arr) = S (length arr).
Proof.
  unfold splice_put. pose proof (rel_index_le (length arr) i).
  rewrite length_app, length_take. simpl. rewrite length_drop. lia.
Qed.

Lemma splice_put_perm (i : Z) (x : A) arr : splice_put i x arr ≡ₚ x :: arr.
Proof.
  unfold splice_put. rewrite <- Permutation_middle. now rewrite take_drop.
Qed.

Lemma splice_put_lookup (i : Z) (x : A) arr :
  0 ≤ i ≤ Z.of_nat (length arr) → at_index (splice_put i x arr) i = Some x.
Proof.
  intros Hi. apply at_index_Some. split; [lia|].
  unfold splice_put. rewrite rel_index_in_range by exact Hi.
  rewrite lookup_app_r by (rewrite length_take; lia).
  rewrite length_take.
  replace (Z.to_nat i - Z.to_nat i `min` length arr)%nat with 0%nat by lia.
  reflexivity.
Qed.

Lemma splice_take1_Some (i : Z) arr :
  (rel_index (length arr) i < length arr)%nat →
  ∃ x, splice_take1 i arr = (Some x, delete (rel_index (length arr) i) arr)
       ∧ arr !! rel_index (length arr) i = Some x.
Proof.
  intros H. destruct (lookup_lt_is_Some_2 arr _ H) as [x Hx].
  exists x. unfold splice_take1. now rewrite Hx.
Qed.

Lemma splice_drop1_in_range (i : Z) arr :
  0 ≤ i < Z.of_nat (length arr) → splice_drop1 i arr = delete (Z.to_nat i) arr.
Proof.
  intros Hi. unfold splice_drop1, splice_take1. simpl.
  now rewrite rel_index_in_range by lia.
Qed.

Lemma splice_drop1_length (i : Z) arr :
  0 ≤ i < Z.of_nat (length arr) →
  Z.of_nat (length (splice_drop1 i arr)) = Z.of_nat (length arr) - 1.
Proof.
  intros Hi. rewrite splice_drop1_in_range by exact Hi.
  rewrite length_delete; [lia|]. apply lookup_lt_is_Some_2. lia.
Qed.
End Arrays.
End JsFacts.

(** ** The preload bridge *)

Module PreloadFacts.
Import Js Preload.

Lemma in_class_alphabet (c : ascii) :
  in_class c = true ↔ In c (list_ascii_of_string alphabet).
Proof.
  destruct c as [[] [] [] [] [] [] [] []]; vm_compute; split; try discriminate; try tauto;
  intros H; repeat (destruct H as [H|H]; [discriminate H|]); destruct H.
Qed.

Lemma all_in_class_Forall (s : string) :
  all_in_class s = true ↔
  Forall (λ c, In c (list_ascii_of_string alphabet)) (list_ascii_of_string s).
Proof.
  induction s as [|c s IH]; simpl.
  - split; auto.
  - rewrite andb_true_iff, Forall_cons, IH, in_class_alphabet. reflexivity.
Qed.

Lemma regex_test_spec (s : string) :
  regex_test s = true ↔ s ≠ EmptyString ∧ all_in_class s = true.
Proof.
  destruct s; simpl.
  - split; [discriminate | intros [H _]; congruence].
  - split; [intros H; split; [discriminate | exact H] | intros [_ H]; exact H].
Qed.

Lemma isValidVideoId_spec (v : Value) :
  isValidVideoId v = true ↔ well_formed_id v.
Proof.
  unfold well_formed_id. split.
  - destruct v; simpl; try discriminate.
    rewrite andb_true_iff, Nat.eqb_eq, regex_test_spec, all_in_class_Forall.
    intros (Hlen & _ & Hall). eauto.
  - intros (s & -> & Hlen & Hall). simpl.
    rewrite andb_true_iff, Nat.eqb_eq, regex_test_spec, all_in_class_Forall.
    split; [exact Hlen | split; [|exact Hall]].
    intros ->. discriminate Hlen.
Qed.

(** C10. For every [videoId] that is not a string of eleven characters over
    [a-zA-Z0-9_-], [getAudioStream] and [getVideoStream] resolve to
    [null] and [getUpNexts] to the empty array, and none of them makes
    an IPC call. *)
Theorem invalid_id_short_circuits (videoId countryCode : Value) :
  ¬ well_formed_id videoId →
  getAudioStream videoId = Resolved VNull
  ∧ getVideoStream videoId = Resolved VNull
  ∧ getUpNexts videoId countryCode = Resolved []
  ∧ ipc_calls (getAudioStream videoId) = []
  ∧ ipc_calls (getVideoStream videoId) = []
  ∧ ipc_calls (getUpNexts videoId countryCode) = [].
Proof.
  intros Hbad.
  assert (isValidVideoId videoId = false) as Hf.
  { destruct (isValidVideoId videoId) eqn:E; [|reflexivity].
    exfalso. apply Hbad, isValidVideoId_spec, E. }
  unfold getAudioStream, getVideoStream, getUpNexts. rewrite Hf. simpl.
  repeat split.
Qed.

(** C10 at the id ["too-short"]. *)
Lemma invalid_id_short_circuits_witness :
  getAudioStream (VString "too-short") = Resolved VNull
  ∧ getVideoStream (VString "too-short") = Resolved VNull
  ∧ getUpNexts (VString "too-short") (VString "US") = Resolved []
  ∧ ipc_calls (getAudioStream (VString "too-short")) = []
  ∧ ipc_calls (getVideoStream (VString "too-short")) = []
  ∧ ipc_calls (getUpNexts (VString "too-short") (VString "US")) = [].
Proof.
  apply (invalid_id_short_circuits (VString "too-short") (VString "US")).
  intros (s & Heq & Hlen & _). injection Heq as <-. vm_compute in Hlen. discriminate Hlen.
Defined.

Lemma valid_id_invokes (s : string) :
  well_formed_id (VString s) →
  getAudioStream (VString s) = Invoke "get-audio-stream" [VString s].
Proof.
  intros H. apply isValidVideoId_spec in H. unfold getAudioStream. now rewrite H.
Qed.
End PreloadFacts.

(** ** History *)

Module HistoryFacts.
Import Js Player Props.

Section Lists.
Context {A : Type} `{EqDecision A}.

Lemma filter_ne_fresh (x : A) (l : list A) :
  x ∉ l → filter (λ y, y ≠ x) l = l.
Proof.
  induction l as [|y l IH]; intros Hx; [reflexivity|].
  apply not_elem_of_cons in Hx as [Hne Hx].
  rewrite filter_cons_True by congruence. now rewrite IH.
Qed.

Lemma filter_ne_length (x : A) (l : list A) :
  NoDup l → x ∈ l → S (length (filter (λ y, y ≠ x) l)) = length l.
Proof.
  induction 1 as [|y l Hy Hnd IH]; intros Hx.
  - inversion Hx.
  - destruct (decide (y = x)) as [->|Hne].
    + rewrite filter_cons_False by (intros H; now apply H).
      now rewrite filter_ne_fresh.
    + rewrite filter_cons_True by exact Hne. simpl.
      rewrite IH; [reflexivity|].
      apply elem_of_cons in Hx as [->|Hx]; [congruence | exact Hx].
Qed.

Lemma removelast_sublist (l : list A) : removelast l `sublist_of` l.
Proof.
  rewrite removelast_firstn_len. apply sublist_take.
Qed.

Lemma removelast_length (l : list A) :
  length (removelast l) = pred (length l).
Proof.
  rewrite removelast_firstn_len, length_take. lia.
Qed.
End Lists.

Lemma truthy_nonempty (s : string) : truthy s = true ↔ s ≠ "".
Proof. destruct s; simpl; split; congruence. Qed.

Lemma addToHistory_unfold (x : string) (m : QueueManager) :
  truthy x = true →
  playedHistory (addToHistory x m) =
    let u := x :: filter (λ y, y ≠ x) (playedHistory m) in
    if (50 <? length u)%nat then removelast u else u.
Proof.
  intros Hx. unfold addToHistory. rewrite Hx. reflexivity.
Qed.

Lemma addToHistory_ok (x : string) (m : QueueManager) :
  history_ok (playedHistory m) → history_ok (playedHistory (addToHistory x m)).
Proof.
  intros (Hlen & Hnd & Hne).
  destruct (truthy x) eqn:Hx.
  2:{ unfold addToHistory. rewrite Hx. simpl. now repeat split. }
  rewrite addToHistory_unfold by exact Hx. cbv zeta.
  set (f := filter (λ y, y ≠ x) (playedHistory m)).
  assert (length f ≤ length (playedHistory m))%nat as Hf by apply length_filter.
  assert (NoDup (x :: f)) as Hndu.
  { constructor; [|now apply NoDup_filter].
    unfold f. rewrite list_elem_of_filter. intros [H _]. now apply H. }
  assert ("" ∉ x :: f) as Hneu.
  { apply not_elem_of_cons. split.
    - apply truthy_nonempty in Hx. congruence.
    - unfold f. rewrite list_elem_of_filter. tauto. }
  destruct (50 <? length (x :: f))%nat eqn:Hfull.
  - repeat split.
    + rewrite removelast_length. simpl. lia.
    + eapply sublist_NoDup; [exact Hndu | apply removelast_sublist].
    + intros Hin. apply Hneu.
      eapply elem_of_sublist; [exact Hin | apply removelast_sublist].
  - apply Nat.ltb_ge in Hfull. now repeat split.
Qed.

Lemma record_all_snoc (ids : list string) (x : string) :
  record_all (ids ++ [x]) = addToHistory x (record_all ids).
Proof. unfold record_all. now rewrite foldl_app. Qed.

Lemma record_all_ok (ids : list string) :
  history_ok (playedHistory (record_all ids)).
Proof.
  induction ids as [|x ids IH] using rev_ind.
  - repeat split; simpl; [lia | constructor | inversion 1].
  - rewrite record_all_snoc. now apply addToHistory_ok.
Qed.

(** C5. After any sequence of [addToHistory] calls the history holds at
    most 50 ids, none of them twice; recording an id that is present
    moves it to the front and keeps the length; recording a fresh
    (non-empty) id into a full history puts it in front and drops the
    last entry. *)
Theorem history_bounded_and_distinct (ids : list string) (songId : string) :
  let h := playedHistory (record_all ids) in
  let h' := playedHistory (addToHistory songId (record_all ids)) in
  (length h ≤ 50)%nat
  ∧ NoDup h
  ∧ (songId ∈ h →
       h' = songId :: filter (λ y, y ≠ songId) h ∧ length h' = length h)
  ∧ (songId ∉ h → truthy songId = true → length h = 50%nat →
       h' = songId :: removelast h).
Proof.
  intros h h'. destruct (record_all_ok ids) as (Hlen & Hnd & Hne).
  fold h in Hlen, Hnd, Hne.
  split; [exact Hlen|]. split; [exact Hnd|]. split.
  - intros Hin.
    assert (truthy songId = true) as Hx.
    { apply truthy_nonempty. intros ->. now apply Hne. }
    unfold h'. rewrite addToHistory_unfold by exact Hx. cbv zeta. fold h.
    pose proof (filter_ne_length songId h Hnd Hin) as Hl.
    replace (50 <? length (songId :: filter (λ y, y ≠ songId) h))%nat with false.
    + split; [reflexivity | simpl; exact Hl].
    + symmetry. apply Nat.ltb_ge. simpl. lia.
  - intros Hnin Hx Hfull.
    unfold h'. rewrite addToHistory_unfold by exact Hx. cbv zeta. fold h.
    rewrite filter_ne_fresh by exact Hnin.
    replace (50 <? length (songId :: h))%nat with true.
    + destruct h as [|y h0]; [discriminate Hfull | reflexivity].
    + symmetry. apply Nat.ltb_lt. simpl. lia.
Qed.

End HistoryFacts.

(** ** Recommendations *)

Module RecommendationFacts.
Import Js Player Props.

Lemma normalize_id (t : Track) : id (normalize t) = id t.
Proof. reflexivity. Qed.

Lemma normalize_is_array (t : Track) : is_array (artists (normalize t)) = true.
Proof. destruct t as [i ti [v|names] th]; reflexivity. Qed.

Lemma keep_candidate_Some (history ids : list string) (item : option Track) (t : Track) :
  keep_candidate history ids item = Some t →
  item = Some t ∧ (id t ∉ history) ∧ (id t ∉ ids).
Proof.
  destruct item as [song|]; simpl; [|discriminate].
  destruct (bool_decide (id song ∈ history)) eqn:Hh; simpl; [discriminate|].
  destruct (bool_decide (id song ∈ ids)) eqn:Hq; simpl; [discriminate|].
  intros [= <-].
  apply bool_decide_eq_false in Hh, Hq. auto.
Qed.

Lemma keep_candidate_complete (history ids : list string) (t : Track) :
  id t ∉ history → id t ∉ ids → keep_candidate history ids (Some t) = Some t.
Proof.
  intros Hh Hq. simpl.
  now rewrite (bool_decide_eq_false_2 _ Hh), (bool_decide_eq_false_2 _ Hq).
Qed.

(** C8. When [fetchUpNext] resumes with a reply, every track of the new
    buffer has an id that is in neither [playedHistory] nor the queue as
    they are at that moment, and its [artists] field is an array; when
    the call failed the buffer is empty. *)
Theorem refreshed_buffer_is_filtered (a : App) (o : Outcome UpNextsReply) :
  let m := queueManager a in
  let buffer := upNextSongs (queueManager (fetchUpNext_resume o a)) in
  match o with
  | Fulfilled _ =>
      Forall (λ t, (id t ∉ playedHistory m)
                   ∧ (id t ∉ map id (songQueue m))
                   ∧ is_array (artists t) = true) buffer
  | Rejected _ => buffer = []
  end.
Proof.
  destruct o as [reply|message]; simpl; [|reflexivity].
  apply Forall_forall. intros t Ht.
  apply list_elem_of_fmap in Ht as (song & -> & Hsong).
  apply list_elem_of_omap in Hsong as (item & _ & Hkeep).
  apply keep_candidate_Some in Hkeep as (_ & Hh & Hq).
  rewrite normalize_id, normalize_is_array. auto.
Qed.

(** Nothing else is dropped: the buffer is the candidates outside history
    and queue, in their order, normalized. *)
Lemma refreshed_buffer_complete (a : App) (items : list (option Track)) (t : Track) :
  Some t ∈ items →
  id t ∉ playedHistory (queueManager a) →
  id t ∉ map id (songQueue (queueManager a)) →
  normalize t ∈ upNextSongs (queueManager (fetchUpNext_resume (Fulfilled (ArrayOf items)) a)).
Proof.
  intros Hin Hh Hq. simpl.
  apply list_elem_of_fmap_2, list_elem_of_omap.
  exists (Some t). split; [exact Hin|]. now apply keep_candidate_complete.
Qed.
End RecommendationFacts.

(** ** The cursor *)

Module QueueFacts.
Import Js Player Props JsFacts.

Local Arguments splice_drop1 : simpl never.
Local Arguments splice_put : simpl never.
Local Arguments findIndex : simpl never.
Local Arguments at_index : simpl never.

(** Starting to play a track leaves the queue manager alone. *)
Lemma playAudioAndUpdateUI_queueManager (song : option Track) (token : Z) (a : App) :
  queueManager (playAudioAndUpdateUI song token a) = queueManager a.
Proof.
  unfold playAudioAndUpdateUI. destruct song as [song|]; [|reflexivity].
  destruct (negb (truthy (id song))); [reflexivity|].
  destruct (negb (token =? latestPlayRequestToken a)); reflexivity.
Qed.

Lemma same_id_true (songId : string) (s : Track) :
  same_id songId s = true ↔ id s = songId.
Proof. unfold same_id. apply bool_decide_eq_true. Qed.

Lemma setSongForPlayback_cursor_ok (song : Track) (source : option Playlist)
    (m : QueueManager) :
  cursor_ok m → cursor_ok (setSongForPlayback song source m).
Proof.
  intros Hok. unfold setSongForPlayback.
  destruct source as [p|].
  - unfold cursor_ok. simpl. apply findIndex_range.
  - destruct (negb (findIndex (same_id (id song)) (songQueue m) =? -1)) eqn:E.
    + unfold cursor_ok. simpl. apply findIndex_range.
    + unfold cursor_ok in *. simpl. rewrite splice_put_length. lia.
Qed.

Lemma playSong_cursor_ok (song : option Track) (source : option Playlist) (a : App) :
  cursor_ok (queueManager a) → cursor_ok (queueManager (playSong song source a)).
Proof.
  intros Hok. unfold playSong. destruct song as [song|]; [|exact Hok].
  destruct (negb (truthy (id song))); [exact Hok|].
  match goal with |- context [if ?c then _ else _] => destruct c end.
  - exact Hok.
  - cbv zeta. destruct (renderQueue _).
    + rewrite playAudioAndUpdateUI_queueManager. simpl.
      now apply setSongForPlayback_cursor_ok.
    + simpl. now apply setSongForPlayback_cursor_ok.
Qed.

Lemma addSongToQueue_cursor_ok (song : Track) (a : App) :
  cursor_ok (queueManager a) → cursor_ok (queueManager (addSongToQueue song a)).
Proof.
  intros Hok.
  assert (cursor_ok (set_songQueue (songQueue (queueManager a) ++ [song])
                       (queueManager a))) as Hpush.
  { unfold cursor_ok in *. simpl. rewrite length_app. simpl. lia. }
  unfold addSongToQueue. cbv zeta. destruct (renderQueue _); [|exact Hpush].
  match goal with |- context [if ?c then _ else _] => destruct c end.
  - apply playSong_cursor_ok. exact Hpush.
  - exact Hpush.
Qed.

Lemma addSongToPlayNext_cursor_ok (song : Track) (a : App) :
  cursor_ok (queueManager a) → cursor_ok (queueManager (addSongToPlayNext song a)).
Proof.
  intros Hok. unfold addSongToPlayNext. cbv zeta.
  destruct (renderQueue _); unfold cursor_ok in *; simpl;
    rewrite splice_put_length; lia.
Qed.

(** [playNextOrUpNext] needs less than [cursor_ok]: the cursor may be
    one short of it, as it is in the middle of [removeItem]. *)
Lemma playNextOrUpNext_cursor (a : App) :
  let m := queueManager a in
  -1 ≤ currentSongIndex m < Z.of_nat (length (songQueue m)) →
  cursor_ok (queueManager (playNextOrUpNext a)).
Proof.
  intros m Hc. unfold playNextOrUpNext. cbv zeta.
  change (queueManager (next_token a)) with m.
  destruct (currentSongIndex m <? Z.of_nat (length (songQueue m)) - 1) eqn:E.
  - apply Z.ltb_lt in E. rewrite playAudioAndUpdateUI_queueManager.
    unfold cursor_ok. simpl. fold m. lia.
  - apply Z.ltb_ge in E. destruct (upNextSongs m) as [|t rest] eqn:Eu.
    + unfold cursor_ok. simpl. fold m. lia.
    + rewrite playAudioAndUpdateUI_queueManager.
      unfold cursor_ok. simpl. fold m. rewrite length_app. simpl. lia.
Qed.

Lemma playNextOrUpNext_cursor_ok (a : App) :
  cursor_ok (queueManager a) → cursor_ok (queueManager (playNextOrUpNext a)).
Proof.
  intros Hok. apply playNextOrUpNext_cursor. unfold cursor_ok in Hok. lia.
Qed.

Lemma previous_cursor_ok (lateInTrack : bool) (a : App) :
  cursor_ok (queueManager a) → cursor_ok (queueManager (previous lateInTrack a)).
Proof.
  intros Hok. unfold previous.
  destruct (length (songQueue (queueManager a)) =? 0)%nat; [exact Hok|].
  destruct lateInTrack; [exact Hok|].
  destruct (0 <? currentSongIndex (queueManager a)) eqn:E; [|exact Hok].
  apply Z.ltb_lt in E. rewrite playAudioAndUpdateUI_queueManager.
  unfold cursor_ok in *. simpl. lia.
Qed.

Lemma removeItem_cursor_ok (index : Z) (a : App) :
  cursor_ok (queueManager a) → cursor_ok (queueManager (removeItem index a)).
Proof.
  intros Hok. unfold removeItem.
  set (m := queueManager a) in *.
  destruct ((index <? 0) || (Z.of_nat (length (songQueue m)) <=? index)) eqn:E;
    [exact Hok|].
  apply orb_false_iff in E as [E1 E2].
  apply Z.ltb_ge in E1. apply Z.leb_gt in E2.
  pose proof (splice_drop1_length index (songQueue m) (conj E1 E2)) as Hlen.
  destruct (index =? currentSongIndex m) eqn:Ec.
  - apply Z.eqb_eq in Ec. apply playNextOrUpNext_cursor. simpl. fold m. rewrite Hlen. lia.
  - apply Z.eqb_neq in Ec.
    destruct (index <? currentSongIndex m) eqn:El.
    + apply Z.ltb_lt in El. unfold cursor_ok in *. simpl. fold m. rewrite Hlen. lia.
    + apply Z.ltb_ge in El. unfold cursor_ok in *. simpl. fold m. rewrite Hlen. lia.
Qed.

Lemma reorderItem_defined (oldIndex newIndex : Z) (m : QueueManager) :
  oldIndex = newIndex ∨ designates oldIndex (songQueue m) →
  is_Some (reorderItem oldIndex newIndex m).
Proof.
  intros H. unfold reorderItem.
  destruct (oldIndex =? newIndex) eqn:E; [eauto|].
  apply Z.eqb_neq in E. destruct H as [H|H]; [contradiction|].
  destruct (splice_take1_Some oldIndex (songQueue m) H) as (x & -> & _). eauto.
Qed.

Lemma reorderItem_cursor_ok (oldIndex newIndex : Z) (m m' : QueueManager) :
  reorderItem oldIndex newIndex m = Some m' → cursor_ok m → cursor_ok m'.
Proof.
  unfold reorderItem. intros Hr Hok.
  destruct (oldIndex =? newIndex); [congruence|].
  destruct (splice_take1 oldIndex (songQueue m)) as [[x|] rest] eqn:Et;
    [|discriminate].
  unfold splice_take1 in Et. injection Et as Hx <-.
  injection Hr as <-.
  destruct (truthy _).
  - unfold cursor_ok. simpl. apply findIndex_range.
  - unfold cursor_ok in *. simpl. rewrite splice_put_length.
    rewrite length_delete by eauto.
    apply lookup_lt_Some in Hx. lia.
Qed.

Lemma playFromUpNext_cursor_ok (index : Z) (a : App) :
  cursor_ok (queueManager a) → cursor_ok (queueManager (playFromUpNext index a)).
Proof.
  intros Hok. unfold playFromUpNext.
  destruct (at_index (upNextSongs (queueManager a)) index) as [t|]; [|exact Hok].
  rewrite playAudioAndUpdateUI_queueManager.
  unfold cursor_ok. simpl. rewrite length_app. simpl. lia.
Qed.

(** C4. Every queue operation takes a state whose cursor is [-1] or an
    index of the queue to a state whose cursor is [-1] or an index of
    the queue. *)
Theorem queue_operations_keep_cursor_valid (op : QueueOp) (a : App) :
  cursor_ok (queueManager a) → in_model op a →
  ∃ a', apply_op op a = Some a' ∧ cursor_ok (queueManager a').
Proof.
  intros Hok Hin. destruct op; simpl in *;
    try (eexists; split; [reflexivity|]).
  - now apply setSongForPlayback_cursor_ok.
  - now apply addSongToQueue_cursor_ok.
  - now apply addSongToPlayNext_cursor_ok.
  - now apply playNextOrUpNext_cursor_ok.
  - now apply previous_cursor_ok.
  - now apply removeItem_cursor_ok.
  - destruct (reorderItem_defined oldIndex newIndex _ Hin) as [m' Hm'].
    rewrite Hm'. simpl. eexists; split; [reflexivity|]. simpl.
    eapply reorderItem_cursor_ok; eauto.
  - now apply playFromUpNext_cursor_ok.
Qed.

End QueueFacts.

(** ** Removing the current track *)

Module RemovalFacts.
Import Js Player Props JsFacts QueueFacts.

Local Arguments splice_drop1 : simpl never.
Local Arguments splice_put : simpl never.
Local Arguments findIndex : simpl never.
Local Arguments at_index : simpl never.

Lemma playAudioAndUpdateUI_audioPlayer (song : option Track) (token : Z) (a : App) :
  audioPlayer (playAudioAndUpdateUI song token a) = audioPlayer a.
Proof.
  unfold playAudioAndUpdateUI. destruct song as [song|]; [|reflexivity].
  destruct (negb (truthy (id song))); [reflexivity|].
  destruct (negb (token =? latestPlayRequestToken a)); reflexivity.
Qed.


End RemovalFacts.

(** ** Reordering and selecting *)

Module CurrentTrackFacts.
Import Js Player Props JsFacts QueueFacts.

Local Arguments splice_drop1 : simpl never.
Local Arguments splice_put : simpl never.
Local Arguments findIndex : simpl never.
Local Arguments at_index : simpl never.

Lemma at_index_elem_of {A} (arr : list A) (i : Z) (x : A) :
  at_index arr i = Some x → x ∈ arr.
Proof.
  intros H. apply at_index_Some in H as [_ H].
  eapply list_elem_of_lookup_2, H.
Qed.

(** Putting an element in at [j] and taking out what is at [j]. *)
Lemma delete_inserted {A} (arr : list A) (j : nat) (x : A) :
  (j ≤ length arr)%nat →
  (take j arr ++ x :: drop j arr) !! j = Some x
  ∧ delete j (take j arr ++ x :: drop j arr) = arr.
Proof.
  intros Hj. split.
  - rewrite lookup_app_r by (rewrite length_take; lia).
    rewrite length_take, Nat.min_l, Nat.sub_diag by lia. reflexivity.
  - rewrite delete_take_drop.
    rewrite take_app_le by (rewrite length_take; lia).
    rewrite take_take, Nat.min_id.
    rewrite drop_app_ge by (rewrite length_take; lia).
    rewrite length_take, Nat.min_l by lia.
    replace (S j - j)%nat with 1%nat by lia. simpl. rewrite drop_0.
    apply take_drop.
Qed.

(** What [reorderItem] does to the queue, whatever the cursor. *)
Lemma reorderItem_moves (m m' : QueueManager) (oldIndex newIndex : Z) :
  oldIndex ≠ newIndex →
  designates oldIndex (songQueue m) →
  reorderItem oldIndex newIndex m = Some m' →
  moved oldIndex newIndex (songQueue m) (songQueue m').
Proof.
  intros Hne Hold. unfold reorderItem.
  apply Z.eqb_neq in Hne. rewrite Hne.
  destruct (splice_take1_Some oldIndex (songQueue m) Hold) as (x & Htake & Hx).
  rewrite Htake. intros [= <-].
  set (i := rel_index (length (songQueue m)) oldIndex) in *.
  assert (length (delete i (songQueue m)) = (length (songQueue m) - 1)%nat) as Hlen
    by (apply length_delete; eauto).
  assert (songQueue
            (if truthy (default "" (id <$> getCurrentItem m))
             then set_currentSongIndex
                    (findIndex (same_id (default "" (id <$> getCurrentItem m)))
                       (splice_put newIndex x (delete i (songQueue m))))
                    (set_songQueue (splice_put newIndex x (delete i (songQueue m))) m)
             else set_songQueue (splice_put newIndex x (delete i (songQueue m))) m)
          = splice_put newIndex x (delete i (songQueue m))) as ->
    by (now destruct (truthy _)).
  unfold moved. cbv zeta. fold i. rewrite Hx, <- Hlen.
  unfold splice_put. apply delete_inserted, rel_index_le.
Qed.

(** C7, amended. For a queue with a current track and an [oldIndex] that
    designates an element, [reorderItem] does nothing when the two
    indices are equal; otherwise it moves the element that [oldIndex]
    designates to [newIndex] and leaves the others in their order.
    When the current track has an id, the track under the cursor
    afterwards has that id; when it has none, the cursor keeps its
    index. *)
Theorem reorder_keeps_identified_track (m : QueueManager) (oldIndex newIndex : Z)
    (current : Track) :
  getCurrentItem m = Some current →
  designates oldIndex (songQueue m) →
  ∃ m', reorderItem oldIndex newIndex m = Some m'
        ∧ (oldIndex = newIndex → m' = m)
        ∧ (oldIndex ≠ newIndex →
           moved oldIndex newIndex (songQueue m) (songQueue m'))
        ∧ (truthy (id current) = true →
           id <$> getCurrentItem m' = Some (id current))
        ∧ (truthy (id current) = false →
           currentSongIndex m' = currentSongIndex m).
Proof.
  intros Hcur Hold.
  destruct (QueueFacts.reorderItem_defined oldIndex newIndex m (or_intror Hold))
    as [m' Hm'].
  exists m'. split; [exact Hm'|]. split; [|split].
  - intros ->. unfold reorderItem in Hm'. rewrite Z.eqb_refl in Hm'. congruence.
  - intros Hne. now apply reorderItem_moves.
  - unfold reorderItem in Hm'.
    destruct (splice_take1_Some oldIndex (songQueue m) Hold) as (x & Htake & Hx).
    set (i := rel_index (length (songQueue m)) oldIndex) in *.
    destruct (oldIndex =? newIndex) eqn:E.
    { injection Hm' as <-. split; [now rewrite Hcur | reflexivity]. }
    rewrite Htake, Hcur in Hm'. simpl in Hm'.
    set (rest := delete i (songQueue m)) in *.
    set (queue := splice_put newIndex x rest) in *.
    split; intros Htruthy; rewrite Htruthy in Hm'; injection Hm' as <-;
      [|reflexivity].
    assert (queue ≡ₚ songQueue m) as Hperm.
    { unfold queue. rewrite splice_put_perm. symmetry.
      now apply delete_Permutation. }
    assert (current ∈ queue) as Hin.
    { rewrite Hperm. eapply at_index_elem_of, Hcur. }
    destruct (findIndex_exists (same_id (id current)) queue current Hin)
      as (y & Hy & Hsame).
    { now apply same_id_true. }
    unfold getCurrentItem. simpl. rewrite Hy. simpl.
    f_equal. now apply same_id_true.
Qed.

(** The part of [setSongForPlayback] with a collection that works as
    described: a track of the collection becomes current. *)
Lemma setSongForPlayback_in_collection (song : Track) (p : Playlist) (m : QueueManager) :
  song ∈ tracklist_of p →
  let m' := setSongForPlayback song (Some p) m in
  songQueue m' = tracklist_of p ∧ id <$> getCurrentItem m' = Some (id song).
Proof.
  intros Hin m'. split; [reflexivity|].
  destruct (findIndex_exists (same_id (id song)) (tracklist_of p) song Hin)
    as (y & Hy & Hsame).
  { now apply same_id_true. }
  unfold m', getCurrentItem. simpl. rewrite Hy. simpl.
  f_equal. now apply same_id_true.
Qed.

(** ... and the part that does not: a track that is not in the
    collection is not appended, and nothing is selected. *)
Lemma setSongForPlayback_outside_collection (song : Track) (p : Playlist)
    (m : QueueManager) :
  Forall (λ s, id s ≠ id song) (tracklist_of p) →
  let m' := setSongForPlayback song (Some p) m in
  songQueue m' = tracklist_of p
  ∧ currentSongIndex m' = -1
  ∧ getCurrentItem m' = None.
Proof.
  intros Hall m'.
  assert (currentSongIndex m' = -1) as Hc.
  { unfold m'. simpl. apply findIndex_none.
    eapply Forall_impl; [exact Hall|]. simpl. intros s Hs.
    unfold same_id. now apply bool_decide_eq_false. }
  split; [reflexivity|]. split; [exact Hc|].
  unfold getCurrentItem. now rewrite Hc.
Qed.

End CurrentTrackFacts.

(** ** States that agree on playback *)

Module CoordinatorFacts.
Import Js Player Props.

Create HintDb playback discriminated.

(** [agree] is an equivalence. *)
Lemma agree_refl (s : bool) (a : App) : agree s a a.
Proof. unfold agree, same_playback. tauto. Qed.

Lemma agree_sym (s : bool) (a b : App) : agree s a b → agree s b a.
Proof. unfold agree, same_playback. intuition congruence. Qed.

Lemma agree_trans (s : bool) (a b c : App) : agree s a b → agree s b c → agree s a c.
Proof. unfold agree, same_playback. intuition congruence. Qed.

(** Each field of the relation, for rewriting branch conditions. *)
Lemma agree_token s a b : agree s a b → latestPlayRequestToken b = latestPlayRequestToken a.
Proof. unfold agree, same_playback. intuition congruence. Qed.
Lemma agree_queueManager s a b : agree s a b → queueManager b = queueManager a.
Proof. unfold agree, same_playback. intuition congruence. Qed.
Lemma agree_audioPlayer s a b : agree s a b → audioPlayer b = audioPlayer a.
Proof. unfold agree, same_playback. intuition congruence. Qed.
Lemma agree_nowPlaying s a b : agree s a b → nowPlaying b = nowPlaying a.
Proof. unfold agree, same_playback. intuition congruence. Qed.

Ltac by_fields :=
  unfold agree, same_playback, live_pending; simpl;
  intros; intuition (simpl; congruence).

(** The loading indicator is outside the relation, and so are the
    toasts unless [strict]. *)
Lemma agree_set_isSongLoading s (x y : bool) a b :
  agree s a b → agree s (set_isSongLoading x a) (set_isSongLoading y b).
Proof. by_fields. Qed.

Lemma agree_set_isSongLoading_l s (x : bool) a b :
  agree s a b → agree s (set_isSongLoading x a) b.
Proof. by_fields. Qed.

Lemma agree_showNotification s (message type : string) a b :
  agree s a b → agree s (showNotification message type a) (showNotification message type b).
Proof. by_fields. Qed.

Lemma agree_showNotification_l (message type : string) a b :
  agree false a b → agree false (showNotification message type a) b.
Proof. by_fields. Qed.

Lemma agree_with_queueManager s (f : QueueManager → QueueManager) a b :
  agree s a b → agree s (with_queueManager f a) (with_queueManager f b).
Proof. by_fields. Qed.

Lemma agree_set_nowPlaying s (n : NowPlaying) a b :
  agree s a b → agree s (set_nowPlaying n a) (set_nowPlaying n b).
Proof. by_fields. Qed.

Lemma agree_audio_play s a b : agree s a b → agree s (audio_play a) (audio_play b).
Proof. by_fields. Qed.

Lemma agree_audio_set_src s (url : string) a b :
  agree s a b → agree s (audio_set_src url a) (audio_set_src url b).
Proof. by_fields. Qed.

Lemma agree_retire s (k : nat) a b : agree s a b → agree s (retire k a) (retire k b).
Proof.
  unfold agree, same_playback, live_pending. simpl.
  intros ((Ht & Ha & Hn & Hq & Hk & Hp) & Hs).
  repeat split; try assumption. now rewrite !map_filter_delete, Hp.
Qed.

(** Retiring a stale task is invisible. *)
Lemma agree_retire_stale s (k : nat) (t : Task) a :
  pending a !! k = Some t → stale_task (latestPlayRequestToken a) t = true →
  agree s (retire k a) a.
Proof.
  intros Hk Hst. unfold agree, same_playback, live_pending. simpl.
  repeat split; try reflexivity.
  apply map_filter_delete_not. intros y Hy. simpl.
  rewrite Hk in Hy. injection Hy as <-. congruence.
Qed.

Lemma agree_spawn s (t : Task) a b :
  stale_task (latestPlayRequestToken a) t = false →
  agree s a b → agree s (spawn t a) (spawn t b).
Proof.
  unfold agree, same_playback, live_pending. simpl.
  intros Hlive ((Ht & Ha & Hn & Hq & Hk & Hp) & Hs).
  repeat split; try assumption; [now f_equal|].
  rewrite <- Hk.
  rewrite !map_filter_insert_True by (simpl; congruence).
  now rewrite Hp.
Qed.

#[export] Hint Resolve agree_set_isSongLoading agree_showNotification
  agree_with_queueManager agree_set_nowPlaying agree_audio_play
  agree_audio_set_src agree_retire agree_spawn : playback.

(** The continuations respect the relation. *)
Lemma agree_on_error s (message : string) a b :
  agree s a b → agree s (on_error message a) (on_error message b).
Proof. intros H. unfold on_error. case_bool_decide; auto with playback. Qed.

Lemma agree_on_exit s a b : agree s a b → agree s (on_exit a) (on_exit b).
Proof. unfold on_exit. auto with playback. Qed.

#[export] Hint Resolve agree_on_error agree_on_exit : playback.

Lemma agree_prefetchNext s a b :
  agree s a b → agree s (prefetchNext a) (prefetchNext b).
Proof.
  intros H. unfold prefetchNext. cbv zeta.
  change (queueManager (with_queueManager clearPrefetchedUrl b))
    with (clearPrefetchedUrl (queueManager b)).
  change (queueManager (with_queueManager clearPrefetchedUrl a))
    with (clearPrefetchedUrl (queueManager a)).
  rewrite (agree_queueManager _ _ _ H).
  destruct (_ <? _); [|auto with playback].
  destruct (at_index _ _); auto 6 with playback.
Qed.

Lemma agree_fetchUpNext s a b :
  agree s a b → agree s (fetchUpNext a) (fetchUpNext b).
Proof.
  intros H. unfold fetchUpNext. rewrite (agree_queueManager _ _ _ H).
  destruct (getCurrentItem _); auto with playback.
Qed.

Lemma agree_prefetchNext_resume s (nextSong : Track) o a b :
  agree s a b → agree s (prefetchNext_resume nextSong o a) (prefetchNext_resume nextSong o b).
Proof. intros H. destruct o; simpl; auto with playback. Qed.

Lemma agree_fetchUpNext_resume s o a b :
  agree s a b → agree s (fetchUpNext_resume o a) (fetchUpNext_resume o b).
Proof.
  intros H. destruct o; simpl; [|auto with playback].
  rewrite (agree_queueManager _ _ _ H). auto with playback.
Qed.

#[export] Hint Resolve agree_prefetchNext agree_fetchUpNext agree_prefetchNext_resume
  agree_fetchUpNext_resume : playback.

Lemma agree_afterPlay s (song : Track) o a b :
  agree s a b → agree s (playAudio_afterPlay song o a) (playAudio_afterPlay song o b).
Proof.
  intros H. unfold playAudio_afterPlay. destruct o; [|auto with playback].
  cbv zeta. rewrite (agree_nowPlaying _ _ _ H).
  destruct (artists_text _); auto 8 with playback.
Qed.

Lemma agree_afterStream s (song : Track) (token : Z) o a b :
  agree s a b →
  agree s (playAudio_afterStream song token o a) (playAudio_afterStream song token o b).
Proof.
  intros H. unfold playAudio_afterStream. destruct o; [|auto with playback].
  rewrite (agree_token _ _ _ H).
  destruct (negb _); [auto with playback|].
  destruct (no_url _); auto 8 with playback.
Qed.

Lemma agree_resume s (t : Task) (st : Settlement) a b a' :
  agree s a b → resume t st a = Some a' →
  ∃ b', resume t st b = Some b' ∧ agree s a' b'.
Proof.
  intros H Hr. destruct t, st; simpl in *; try discriminate;
    injection Hr as <-; eexists; (split; [reflexivity|]);
    auto using agree_afterStream, agree_afterPlay with playback.
Qed.

End CoordinatorFacts.

(** ** Schedules of settlements *)

Module ScheduleFacts.
Import Js Player Props CoordinatorFacts.

Create HintDb settle discriminated.

Lemma extends_refl (a : App) : extends a a.
Proof. unfold extends. auto. Qed.

Lemma extends_trans (a b c : App) : extends a b → extends b c → extends a c.
Proof.
  unfold extends. intros (Ht1 & Hn1 & Hp1) (Ht2 & Hn2 & Hp2).
  split; [congruence|]. split; [lia|].
  intros k t Hk. destruct (Hp2 k t Hk) as [Hold|[Hge Hns]].
  - destruct (Hp1 k t Hold) as [?|[? ?]]; auto.
  - right. split; [lia | exact Hns].
Qed.

Ltac extends_by_fields :=
  intros H; eapply extends_trans; [exact H|];
  unfold extends; simpl; auto.

Lemma extends_set_isSongLoading x a b : extends a b → extends a (set_isSongLoading x b).
Proof. extends_by_fields. Qed.
Lemma extends_showNotification m t a b : extends a b → extends a (showNotification m t b).
Proof. extends_by_fields. Qed.
Lemma extends_with_queueManager f a b : extends a b → extends a (with_queueManager f b).
Proof. extends_by_fields. Qed.
Lemma extends_set_nowPlaying n a b : extends a b → extends a (set_nowPlaying n b).
Proof. extends_by_fields. Qed.
Lemma extends_audio_play a b : extends a b → extends a (audio_play b).
Proof. extends_by_fields. Qed.
Lemma extends_audio_set_src u a b : extends a b → extends a (audio_set_src u b).
Proof. extends_by_fields. Qed.

Lemma extends_retire k a b : extends a b → extends a (retire k b).
Proof.
  intros H. eapply extends_trans; [exact H|].
  unfold extends. simpl. split; [reflexivity|]. split; [lia|].
  intros j t Hj. left. apply lookup_delete_Some in Hj. tauto.
Qed.

Lemma extends_spawn t a b : never_stale t → extends a b → extends a (spawn t b).
Proof.
  intros Hns H. eapply extends_trans; [exact H|].
  unfold extends. simpl. split; [reflexivity|]. split; [lia|].
  intros j t' Hj. apply lookup_insert_Some in Hj as [[<- <-]|[_ Hj]]; auto.
Qed.

Lemma never_stale_AwaitPlay song token : never_stale (AwaitPlay song token).
Proof. intros c. reflexivity. Qed.
Lemma never_stale_AwaitPrefetch song : never_stale (AwaitPrefetch song).
Proof. intros c. reflexivity. Qed.
Lemma never_stale_AwaitUpNexts song : never_stale (AwaitUpNexts song).
Proof. intros c. reflexivity. Qed.

#[export] Hint Resolve extends_refl extends_set_isSongLoading extends_showNotification
  extends_with_queueManager extends_set_nowPlaying extends_audio_play
  extends_audio_set_src extends_retire extends_spawn
  never_stale_AwaitPlay never_stale_AwaitPrefetch never_stale_AwaitUpNexts : settle.

Lemma extends_on_error m a b : extends a b → extends a (on_error m b).
Proof. intros H. unfold on_error. case_bool_decide; auto with settle. Qed.

Lemma extends_on_exit a b : extends a b → extends a (on_exit b).
Proof. unfold on_exit. auto with settle. Qed.

#[export] Hint Resolve extends_on_error extends_on_exit : settle.

Lemma extends_prefetchNext a b : extends a b → extends a (prefetchNext b).
Proof.
  intros H. unfold prefetchNext. cbv zeta.
  destruct (_ <? _); [|auto with settle].
  destruct (at_index _ _); auto 6 with settle.
Qed.

Lemma extends_fetchUpNext a b : extends a b → extends a (fetchUpNext b).
Proof.
  intros H. unfold fetchUpNext. destruct (getCurrentItem _); auto with settle.
Qed.

#[export] Hint Resolve extends_prefetchNext extends_fetchUpNext : settle.

Lemma extends_resume (t : Task) (st : Settlement) (a a' : App) :
  resume t st a = Some a' → extends a a'.
Proof.
  intros Hr. destruct t, st; simpl in Hr; try discriminate; injection Hr as <-.
  - unfold playAudio_afterStream. destruct o; [|auto with settle].
    destruct (negb _); [auto with settle|].
    destruct (no_url _); auto 8 with settle.
  - unfold playAudio_afterPlay. destruct o; [|auto with settle].
    cbv zeta. destruct (artists_text _); auto 8 with settle.
  - destruct o; simpl; auto with settle.
  - destruct o; simpl; auto with settle.
Qed.

Lemma tracks_stale_start (a0 : App) : fresh_handles a0 → tracks_stale a0 a0.
Proof.
  intros Hfresh. split; [reflexivity|]. split.
  - intros k Hk. apply Hfresh. unfold stale_handle in Hk.
    destruct (pending a0 !! k); [eauto | discriminate].
  - intros k t Hk. unfold stale_handle. now rewrite Hk.
Qed.

Lemma tracks_stale_extends (a0 a a' : App) :
  tracks_stale a0 a → extends a a' → tracks_stale a0 a'.
Proof.
  intros (Ht & Hn & Hp) (Ht' & Hn' & Hp').
  split; [congruence|]. split.
  - intros k Hk. specialize (Hn k Hk). lia.
  - intros k t Hk. destruct (Hp' k t Hk) as [Hold|[Hge Hns]]; [auto|].
    rewrite Hns. destruct (stale_handle a0 k) eqn:E; [|reflexivity].
    specialize (Hn k E). lia.
Qed.

Lemma tracks_stale_step (a0 a a' : App) (k : nat) (st : Settlement) :
  tracks_stale a0 a → step (Settle k st) a = Some a' → tracks_stale a0 a'.
Proof.
  intros Htr Hstep. simpl in Hstep.
  destruct (pending a !! k) as [t|]; [|discriminate]. simpl in Hstep.
  eapply tracks_stale_extends; [exact Htr|].
  eapply extends_trans; [|eapply extends_resume, Hstep].
  auto with settle.
Qed.

(** A stale settlement changes nothing of playback; it shows a toast
    only when the stream call was rejected. *)
Lemma stale_settlement_inert (a a' : App) (k : nat) (t : Task) (st : Settlement) :
  pending a !! k = Some t →
  stale_task (latestPlayRequestToken a) t = true →
  step (Settle k st) a = Some a' →
  same_playback a' a
  ∧ isSongLoading a' = false
  ∧ ((∀ m, st ≠ StreamSettled (Rejected m)) → notifications a' = notifications a).
Proof.
  intros Hk Hst Hstep. simpl in Hstep. rewrite Hk in Hstep. simpl in Hstep.
  destruct t as [song token| | |]; try discriminate Hst.
  destruct st as [o| | |]; try discriminate Hstep.
  simpl in Hstep. injection Hstep as <-.
  pose proof (agree_retire_stale false k _ a Hk Hst) as [Hsame _].
  unfold playAudio_afterStream. destruct o as [url|message].
  - simpl in Hst. change (latestPlayRequestToken (retire k a)) with (latestPlayRequestToken a).
    rewrite Hst. split; [exact Hsame|]. split; reflexivity.
  - split; [|split; [reflexivity|]].
    + unfold on_error. case_bool_decide; exact Hsame.
    + intros H. now destruct (H message).
Qed.

(** Running a schedule of settlements next to the same schedule
    without the stale ones. *)
Lemma run_skipping_stale (strict : bool) (a0 : App) (es : list Event) :
  ∀ a b a',
    tracks_stale a0 a → agree strict a b →
    Forall (λ e, is_settle e = true) es →
    (strict = true → Forall (λ e, stale_rejection a0 e = false) es) →
    run es a = Some a' →
    ∃ b', run (filter (λ e, stale_settle a0 e = false) es) b = Some b'
          ∧ agree strict a' b'.
Proof.
  induction es as [|e es IH]; intros a b a' Htr Hag Hset Hrej Hrun.
  - injection Hrun as <-. exists b. split; [reflexivity | exact Hag].
  - apply Forall_cons in Hset as [He Hset].
    assert (strict = true → stale_rejection a0 e = false
                            ∧ Forall (λ e, stale_rejection a0 e = false) es) as Hrej'.
    { intros Hs. pose proof (Hrej Hs) as H. now apply Forall_cons in H. }
    destruct e as [| | | | | | | | | |k st]; try discriminate He.
    simpl in Hrun. destruct (pending a !! k) as [t|] eqn:Hk; [|discriminate].
    simpl in Hrun. destruct (resume t st (retire k a)) as [a1|] eqn:Hres; [|discriminate].
    simpl in Hrun.
    assert (step (Settle k st) a = Some a1) as Hstep by (simpl; now rewrite Hk).
    pose proof (tracks_stale_step _ _ _ _ _ Htr Hstep) as Htr1.
    destruct Htr as (Htok & _ & Hpend).
    pose proof (Hpend k t Hk) as Hstale. rewrite <- Htok in Hstale.
    destruct (stale_handle a0 k) eqn:Hsk.
    + (* stale: dropped from the shorter schedule *)
      rewrite filter_cons_False by (simpl; rewrite Hsk; discriminate).
      apply (IH a1 b a' Htr1); [|exact Hset|intros Hs; now apply Hrej'|exact Hrun].
      eapply agree_trans; [|exact Hag].
      destruct t as [song token| | |]; try discriminate Hstale.
      destruct st as [o| | |]; try discriminate Hres.
      simpl in Hres. injection Hres as <-.
      unfold playAudio_afterStream.
      change (latestPlayRequestToken (retire k a)) with (latestPlayRequestToken a).
      destruct o as [url|message].
      * simpl in Hstale. rewrite Hstale.
        apply agree_set_isSongLoading_l.
        apply (agree_retire_stale strict k _ a Hk). exact Hstale.
      * destruct strict.
        { destruct (Hrej' eq_refl) as [Hr _]. simpl in Hr. congruence. }
        unfold on_exit, on_error. case_bool_decide.
        -- apply agree_set_isSongLoading_l.
           apply (agree_retire_stale false k _ a Hk). exact Hstale.
        -- apply agree_set_isSongLoading_l, agree_showNotification_l.
           apply (agree_retire_stale false k _ a Hk). exact Hstale.
    + (* live: both schedules take the step *)
      rewrite filter_cons_True by (simpl; exact Hsk).
      assert (pending b !! k = Some t) as Hkb.
      { destruct Hag as ((_ & _ & _ & _ & _ & Hlive) & _).
        assert (live_pending a !! k = Some t) as Hl
          by (apply map_lookup_filter_Some; split; [exact Hk | exact Hstale]).
        rewrite Hlive in Hl. now apply map_lookup_filter_Some in Hl. }
      destruct (agree_resume strict t st (retire k a) (retire k b) a1) as (b1 & Hb1 & Hag1);
        [now apply agree_retire | exact Hres |].
      simpl. rewrite Hkb. simpl. rewrite Hb1. simpl.
      apply (IH a1 b1 a' Htr1 Hag1 Hset); [intros Hs; now apply Hrej' | exact Hrun].
Qed.

Lemma tracks_stale_run (a0 : App) (es : list Event) :
  ∀ a a', tracks_stale a0 a → Forall (λ e, is_settle e = true) es →
          run es a = Some a' → tracks_stale a0 a'.
Proof.
  induction es as [|e es IH]; intros a a' Htr Hset Hrun; simpl in Hrun.
  - now injection Hrun as <-.
  - apply Forall_cons in Hset as [He Hset].
    destruct (step e a) as [a1|] eqn:Hstep; [|discriminate]. simpl in Hrun.
    destruct e; try discriminate He.
    eapply IH; [|exact Hset|exact Hrun]. eapply tracks_stale_step; eauto.
Qed.

Lemma run_app (es1 es2 : list Event) (a : App) :
  run (es1 ++ es2) a = a1 ← run es1 a; run es2 a1.
Proof.
  revert a. induction es1 as [|e es1 IH]; intros a; simpl; [reflexivity|].
  destruct (step e a); simpl; [apply IH | reflexivity].
Qed.

(** C1, amended. From a state with any number of play requests pending,
    let their streams (and the other pending calls) settle in any
    order and with any outcome.  The playback state reached (token,
    audio element, player bar, queue, history, prefetch cache,
    recommendations, calls awaited by live tasks) is the one reached
    when the settlements of the requests whose token is not the current
    one are left out; so are the toasts, unless the stream call of such
    a request was rejected.  The settlement of such a request does
    switch the loading indicator off. *)
Theorem stale_requests_never_reach_playback (a : App) (es : list Event) (a' : App) :
  fresh_handles a →
  Forall (λ e, is_settle e = true) es →
  run es a = Some a' →
  (∃ a'', run (filter (λ e, stale_settle a e = false) es) a = Some a''
          ∧ same_playback a' a''
          ∧ (Forall (λ e, stale_rejection a e = false) es →
             notifications a' = notifications a''))
  ∧ (∀ es0 e, es = es0 ++ [e] → stale_settle a e = true → isSongLoading a' = false).
Proof.
  intros Hfresh Hset Hrun. split.
  - destruct (run_skipping_stale false a es a a a') as (a2 & Hrun2 & Hsame & _);
      [now apply tracks_stale_start | apply agree_refl | exact Hset | discriminate
      | exact Hrun |].
    exists a2. split; [exact Hrun2|]. split; [exact Hsame|].
    intros Hrej.
    destruct (run_skipping_stale true a es a a a') as (a3 & Hrun3 & _ & Hnot);
      [now apply tracks_stale_start | apply agree_refl | exact Hset | auto
      | exact Hrun |].
    rewrite Hrun2 in Hrun3. injection Hrun3 as <-. now apply Hnot.
  - intros es0 e -> Hstale.
    apply Forall_app in Hset as [Hset0 _].
    rewrite run_app in Hrun.
    destruct (run es0 a) as [a1|] eqn:Hrun0; [|discriminate]. simpl in Hrun.
    destruct (step e a1) as [a2|] eqn:Hstep; [|discriminate].
    simpl in Hrun. injection Hrun as <-.
    destruct e as [| | | | | | | | | |k st]; try discriminate Hstale.
    simpl in Hstale.
    pose proof (tracks_stale_run a es0 a a1 (tracks_stale_start a Hfresh) Hset0 Hrun0)
      as (Htok & _ & Hpend).
    assert (∃ t, pending a1 !! k = Some t) as [t Hk].
    { simpl in Hstep. destruct (pending a1 !! k); [eauto | discriminate]. }
    pose proof (Hpend k t Hk) as Ht. rewrite Hstale, <- Htok in Ht.
    now destruct (stale_settlement_inert a1 a2 k t st Hk Ht Hstep) as (_ & Hload & _).
Qed.

(** A failure of the request that is still current is shown, and the
    audio element, the player bar and the queue manager are left as
    they were. *)
Lemma current_failure_is_reported (song : Track) (a : App)
    (o : Outcome (option string)) :
  match o with
  | Fulfilled url => no_url url = true
  | Rejected message => message ≠ "Stale request"
  end →
  let a' := playAudio_afterStream song (latestPlayRequestToken a) o a in
  (∃ message, notifications a' = (message, "error") :: notifications a)
  ∧ audioPlayer a' = audioPlayer a
  ∧ nowPlaying a' = nowPlaying a
  ∧ queueManager a' = queueManager a
  ∧ isSongLoading a' = false.
Proof.
  intros Ho a'. unfold a', playAudio_afterStream. destruct o as [url|message].
  - rewrite Z.eqb_refl, Ho. simpl. eauto 6.
  - unfold on_error. rewrite bool_decide_eq_false_2 by exact Ho. simpl. eauto 6.
Qed.

(** The failure of a superseded request is shown as well when the
    stream call is rejected: the handler looks at the message only. *)
Lemma stale_rejection_reported (a a' : App) (k : nat) (song : Track) (token : Z)
    (message : string) :
  pending a !! k = Some (AwaitStream song token) →
  token ≠ latestPlayRequestToken a →
  message ≠ "Stale request" →
  step (Settle k (StreamSettled (Rejected message))) a = Some a' →
  notifications a' = (or_else message "Could not play song.", "error") :: notifications a.
Proof.
  intros Hk _ Hm Hstep. simpl in Hstep. rewrite Hk in Hstep. simpl in Hstep.
  injection Hstep as <-. unfold on_error.
  now rewrite bool_decide_eq_false_2 by exact Hm.
Qed.

(** A play request that is not refused calls the stream resolver,
    whatever the prefetch cache holds, and leaves the cache alone. *)
Lemma play_request_calls_resolver (song : Track) (a : App) :
  truthy (id song) = true →
  let a' := playAudioAndUpdateUI (Some song) (latestPlayRequestToken a) a in
  pending a' !! nextTaskId a = Some (AwaitStream song (latestPlayRequestToken a))
  ∧ queueManager a' = queueManager a.
Proof.
  intros Hid a'. unfold a', playAudioAndUpdateUI.
  rewrite Hid, Z.eqb_refl. simpl. split; [apply lookup_insert_eq | reflexivity].
Qed.

End ScheduleFacts.

(** ** Invariants of the event loop *)

Module Reachable.
Import Js Player Props JsFacts QueueFacts.

Create HintDb fresh discriminated.

Ltac fresh_by_fields := unfold fresh_handles; simpl; auto.

Lemma fresh_set_isSongLoading x a : fresh_handles a → fresh_handles (set_isSongLoading x a).
Proof. fresh_by_fields. Qed.
Lemma fresh_showNotification m t a : fresh_handles a → fresh_handles (showNotification m t a).
Proof. fresh_by_fields. Qed.
Lemma fresh_with_queueManager f a : fresh_handles a → fresh_handles (with_queueManager f a).
Proof. fresh_by_fields. Qed.
Lemma fresh_set_nowPlaying n a : fresh_handles a → fresh_handles (set_nowPlaying n a).
Proof. fresh_by_fields. Qed.
Lemma fresh_audio_play a : fresh_handles a → fresh_handles (audio_play a).
Proof. fresh_by_fields. Qed.
Lemma fresh_audio_pause a : fresh_handles a → fresh_handles (audio_pause a).
Proof. fresh_by_fields. Qed.
Lemma fresh_audio_set_src u a : fresh_handles a → fresh_handles (audio_set_src u a).
Proof. fresh_by_fields. Qed.
Lemma fresh_next_token a : fresh_handles a → fresh_handles (next_token a).
Proof. fresh_by_fields. Qed.

Lemma fresh_retire k a : fresh_handles a → fresh_handles (retire k a).
Proof.
  unfold fresh_handles. simpl. intros H j [t Hj].
  apply lookup_delete_Some in Hj as [_ Hj]. eauto.
Qed.

Lemma fresh_spawn t a : fresh_handles a → fresh_handles (spawn t a).
Proof.
  unfold fresh_handles. simpl. intros H j [t' Hj].
  apply lookup_insert_Some in Hj as [[<- _]|[_ Hj]]; [lia|].
  specialize (H j (ex_intro _ _ Hj)). lia.
Qed.

#[export] Hint Resolve fresh_set_isSongLoading fresh_showNotification fresh_with_queueManager
  fresh_set_nowPlaying fresh_audio_play fresh_audio_pause fresh_audio_set_src
  fresh_next_token fresh_retire fresh_spawn : fresh.

Lemma fresh_playAudioAndUpdateUI song token a :
  fresh_handles a → fresh_handles (playAudioAndUpdateUI song token a).
Proof.
  intros H. unfold playAudioAndUpdateUI. destruct song as [song|]; [|exact H].
  destruct (negb (truthy (id song))); [exact H|].
  destruct (negb (token =? latestPlayRequestToken a)); auto with fresh.
Qed.

#[export] Hint Resolve fresh_playAudioAndUpdateUI : fresh.

Lemma fresh_playSong song source a : fresh_handles a → fresh_handles (playSong song source a).
Proof.
  intros H. unfold playSong. destruct song as [song|]; [|exact H].
  destruct (negb (truthy (id song))); [exact H|].
  match goal with |- context [if ?c then _ else _] => destruct c end;
    cbv zeta; [auto with fresh|].
  destruct (renderQueue _); auto with fresh.
Qed.

#[export] Hint Resolve fresh_playSong : fresh.

Lemma fresh_playNextOrUpNext a : fresh_handles a → fresh_handles (playNextOrUpNext a).
Proof.
  intros H. unfold playNextOrUpNext. cbv zeta.
  destruct (_ <? _); [auto with fresh|].
  destruct (upNextSongs _); auto with fresh.
Qed.

#[export] Hint Resolve fresh_playNextOrUpNext : fresh.

Lemma fresh_on_error m a : fresh_handles a → fresh_handles (on_error m a).
Proof. intros H. unfold on_error. case_bool_decide; auto with fresh. Qed.

Lemma fresh_on_exit a : fresh_handles a → fresh_handles (on_exit a).
Proof. unfold on_exit. auto with fresh. Qed.

#[export] Hint Resolve fresh_on_error fresh_on_exit : fresh.

Lemma fresh_prefetchNext a : fresh_handles a → fresh_handles (prefetchNext a).
Proof.
  intros H. unfold prefetchNext. cbv zeta.
  destruct (_ <? _); [|auto with fresh].
  destruct (at_index _ _); auto 6 with fresh.
Qed.

Lemma fresh_fetchUpNext a : fresh_handles a → fresh_handles (fetchUpNext a).
Proof.
  intros H. unfold fetchUpNext. destruct (getCurrentItem _); auto with fresh.
Qed.

#[export] Hint Resolve fresh_prefetchNext fresh_fetchUpNext : fresh.

Lemma fresh_resume t st a a' :
  resume t st a = Some a' → fresh_handles a → fresh_handles a'.
Proof.
  intros Hr H. destruct t, st; simpl in Hr; try discriminate; injection Hr as <-.
  - unfold playAudio_afterStream. destruct o; [|auto with fresh].
    destruct (negb _); [auto with fresh|].
    destruct (no_url _); auto 8 with fresh.
  - unfold playAudio_afterPlay. destruct o; [|auto with fresh].
    cbv zeta. destruct (artists_text _); auto 8 with fresh.
  - destruct o; simpl; auto with fresh.
  - destruct o; simpl; auto with fresh.
Qed.

(** Handles stay fresh along every run. *)
Lemma step_fresh_handles (e : Event) (a a' : App) :
  step e a = Some a' → fresh_handles a → fresh_handles a'.
Proof.
  intros Hstep H. destruct e; simpl in Hstep.
  - injection Hstep as <-. auto with fresh.
  - injection Hstep as <-. unfold addSongToQueue. cbv zeta.
    destruct (renderQueue _); [|auto with fresh].
    destruct (_ && _); auto with fresh.
  - injection Hstep as <-. unfold addSongToPlayNext. cbv zeta.
    destruct (renderQueue _); auto with fresh.
  - injection Hstep as <-. auto with fresh.
  - injection Hstep as <-. auto with fresh.
  - injection Hstep as <-. unfold previous. cbv zeta.
    destruct (_ =? _)%nat; [exact H|]. destruct lateInTrack; [exact H|].
    destruct (0 <? _); auto with fresh.
  - injection Hstep as <-. unfold removeItem. cbv zeta.
    destruct (_ || _); [exact H|].
    destruct (_ =? _); [auto with fresh|].
    destruct (_ <? _); auto with fresh.
  - destruct (reorderItem _ _ _); [|discriminate]. injection Hstep as <-.
    auto with fresh.
  - injection Hstep as <-. unfold playFromUpNext. cbv zeta.
    destruct (at_index _ _); auto with fresh.
  - destruct (_ && _); [|discriminate]. injection Hstep as <-.
    unfold onQueueItemClick. cbv zeta. auto with fresh.
  - destruct (pending a !! k); [|discriminate]. simpl in Hstep.
    eapply fresh_resume; [exact Hstep|]. auto with fresh.
Qed.

Lemma initial_fresh_handles : fresh_handles initial.
Proof. intros k [t Hk]. simpl in Hk. now rewrite lookup_empty in Hk. Qed.

Lemma run_fresh_handles (es : list Event) :
  ∀ a a', run es a = Some a' → fresh_handles a → fresh_handles a'.
Proof.
  induction es as [|e es IH]; intros a a' Hrun H; simpl in Hrun.
  - now injection Hrun as <-.
  - destruct (step e a) as [a1|] eqn:E; [|discriminate]. simpl in Hrun.
    eapply IH; [exact Hrun|]. eapply step_fresh_handles; eauto.
Qed.

(** The settlements leave queue and cursor alone. *)
Lemma resume_queue t st a a' :
  resume t st a = Some a' →
  songQueue (queueManager a') = songQueue (queueManager a)
  ∧ currentSongIndex (queueManager a') = currentSongIndex (queueManager a).
Proof.
  intros Hr. destruct t, st; simpl in Hr; try discriminate; injection Hr as <-.
  - unfold playAudio_afterStream. destruct o; [|unfold on_error; case_bool_decide; auto].
    destruct (negb _); [auto|]. destruct (no_url _); auto.
  - unfold playAudio_afterPlay. destruct o; [|unfold on_error; case_bool_decide; auto].
    cbv zeta. destruct (artists_text _); [|auto].
    unfold on_exit, fetchUpNext, prefetchNext. cbv zeta.
    repeat match goal with
           | |- context [match ?c with _ => _ end] => destruct c
           end; simpl;
      unfold addToHistory; destruct (negb _); auto.
  - destruct o; auto.
  - destruct o; auto.
Qed.

(** The cursor stays valid along every run, whatever the interleaving
    of user actions and settlements. *)
Lemma step_cursor_ok (e : Event) (a a' : App) :
  step e a = Some a' → cursor_ok (queueManager a) → cursor_ok (queueManager a').
Proof.
  intros Hstep H. destruct e; simpl in Hstep.
  - injection Hstep as <-. now apply playSong_cursor_ok.
  - injection Hstep as <-. now apply addSongToQueue_cursor_ok.
  - injection Hstep as <-. now apply addSongToPlayNext_cursor_ok.
  - injection Hstep as <-. now apply playNextOrUpNext_cursor_ok.
  - injection Hstep as <-. now apply playNextOrUpNext_cursor_ok.
  - injection Hstep as <-. now apply previous_cursor_ok.
  - injection Hstep as <-. now apply removeItem_cursor_ok.
  - destruct (reorderItem _ _ _) as [m|] eqn:E; [|discriminate].
    injection Hstep as <-. simpl. eapply reorderItem_cursor_ok; eauto.
  - injection Hstep as <-. now apply playFromUpNext_cursor_ok.
  - destruct (_ && _) eqn:E; [|discriminate]. injection Hstep as <-.
    apply andb_true_iff in E as [E1 E2].
    apply Z.leb_le in E1. apply Z.ltb_lt in E2.
    unfold onQueueItemClick. cbv zeta. rewrite playAudioAndUpdateUI_queueManager.
    unfold cursor_ok. simpl. lia.
  - destruct (pending a !! k); [|discriminate]. simpl in Hstep.
    apply resume_queue in Hstep as [Hq Hc].
    unfold cursor_ok in *. rewrite Hq, Hc. exact H.
Qed.

End Reachable.

(** ** Tokens *)

Module TokenFacts.
Import Js Player Props.

Create HintDb tokens discriminated.

(** [tokens_ok] reads only the token and the pending tasks. *)
Lemma tokens_ok_mono (a b : App) :
  pending b = pending a →
  latestPlayRequestToken a ≤ latestPlayRequestToken b →
  tokens_ok a → tokens_ok b.
Proof.
  intros Hp Ht H k song token Hk. rewrite Hp in *.
  destruct (H k song token Hk) as [Hle Huniq]. split; [lia|].
  intros k' song' Hk'. eauto.
Qed.

Lemma tokens_ok_retire k a : tokens_ok a → tokens_ok (retire k a).
Proof.
  intros H j song token Hj. simpl in *.
  apply lookup_delete_Some in Hj as [Hne Hj].
  destruct (H j song token Hj) as [Hle Huniq]. split; [exact Hle|].
  intros k' song' Hk'. apply lookup_delete_Some in Hk' as [_ Hk']. eauto.
Qed.

Lemma never_stale_not_stream (song : Track) (token : Z) :
  ¬ never_stale (AwaitStream song token).
Proof.
  intros H. specialize (H (token + 1)). simpl in H.
  apply negb_false_iff, Z.eqb_eq in H. lia.
Qed.

Lemma tokens_ok_spawn t a : never_stale t → tokens_ok a → tokens_ok (spawn t a).
Proof.
  intros Hns H j song token Hj. simpl in *.
  apply lookup_insert_Some in Hj as [[_ ->]|[Hne Hj]].
  { now apply never_stale_not_stream in Hns. }
  destruct (H j song token Hj) as [Hle Huniq]. split; [exact Hle|].
  intros k' song' Hk'. apply lookup_insert_Some in Hk' as [[_ ->]|[_ Hk']]; [|eauto].
  now apply never_stale_not_stream in Hns.
Qed.

Ltac same_tasks := intros H; eapply tokens_ok_mono; [| |exact H]; simpl; [reflexivity|lia].

Lemma tokens_ok_set_isSongLoading x a : tokens_ok a → tokens_ok (set_isSongLoading x a).
Proof. same_tasks. Qed.
Lemma tokens_ok_showNotification m t a : tokens_ok a → tokens_ok (showNotification m t a).
Proof. same_tasks. Qed.
Lemma tokens_ok_with_queueManager f a : tokens_ok a → tokens_ok (with_queueManager f a).
Proof. same_tasks. Qed.
Lemma tokens_ok_set_nowPlaying n a : tokens_ok a → tokens_ok (set_nowPlaying n a).
Proof. same_tasks. Qed.
Lemma tokens_ok_audio_play a : tokens_ok a → tokens_ok (audio_play a).
Proof. same_tasks. Qed.
Lemma tokens_ok_audio_pause a : tokens_ok a → tokens_ok (audio_pause a).
Proof. same_tasks. Qed.
Lemma tokens_ok_audio_set_src u a : tokens_ok a → tokens_ok (audio_set_src u a).
Proof. same_tasks. Qed.
Lemma tokens_ok_next_token a : tokens_ok a → tokens_ok (next_token a).
Proof. same_tasks. Qed.

#[export] Hint Resolve tokens_ok_retire tokens_ok_spawn tokens_ok_set_isSongLoading
  tokens_ok_showNotification tokens_ok_with_queueManager tokens_ok_set_nowPlaying
  tokens_ok_audio_play tokens_ok_audio_pause tokens_ok_audio_set_src
  tokens_ok_next_token
  ScheduleFacts.never_stale_AwaitPlay ScheduleFacts.never_stale_AwaitPrefetch
  ScheduleFacts.never_stale_AwaitUpNexts : tokens.

(** A request issued under a token just handed out: [b] is [a] with
    the counter advanced and anything but the tasks changed. *)
Lemma tokens_ok_request (song : option Track) (a b : App) :
  pending b = pending a →
  latestPlayRequestToken b = latestPlayRequestToken a + 1 →
  tokens_ok a →
  tokens_ok (playAudioAndUpdateUI song (latestPlayRequestToken b) b).
Proof.
  intros Hp Ht H.
  assert (tokens_ok b) as Hb by (eapply tokens_ok_mono; [exact Hp| |exact H]; lia).
  unfold playAudioAndUpdateUI. destruct song as [song|]; [|exact Hb].
  destruct (negb (truthy (id song))); [exact Hb|].
  rewrite Z.eqb_refl. simpl.
  intros j s token Hj. simpl in *. rewrite Hp in *.
  apply lookup_insert_Some in Hj as [[<- [= <- <-]]|[Hne Hj]].
  - split; [lia|]. intros k' song' Hk'.
    apply lookup_insert_Some in Hk' as [[<- _]|[_ Hk']]; [reflexivity|].
    destruct (H k' song' _ Hk') as [Hle _]. lia.
  - destruct (H j s token Hj) as [Hle Huniq]. split; [lia|].
    intros k' song' Hk'.
    apply lookup_insert_Some in Hk' as [[_ [= _ Heq]]|[_ Hk']]; [lia | eauto].
Qed.

Lemma tokens_ok_playSong song source a : tokens_ok a → tokens_ok (playSong song source a).
Proof.
  intros H. unfold playSong. destruct song as [song|]; [|exact H].
  destruct (negb (truthy (id song))); [exact H|].
  match goal with |- context [if ?c then _ else _] => destruct c end;
    [auto with tokens|].
  cbv zeta. destruct (renderQueue _); [|auto with tokens].
  change (latestPlayRequestToken (next_token a))
    with (latestPlayRequestToken
            (with_queueManager (setSongForPlayback song source) (next_token a))).
  now apply tokens_ok_request with (a := a).
Qed.

Lemma tokens_ok_playNextOrUpNext a : tokens_ok a → tokens_ok (playNextOrUpNext a).
Proof.
  intros H. unfold playNextOrUpNext. cbv zeta.
  destruct (_ <? _).
  - match goal with
    | |- tokens_ok (playAudioAndUpdateUI _ _ ?b) =>
        change (latestPlayRequestToken (next_token a)) with (latestPlayRequestToken b)
    end.
    now apply tokens_ok_request with (a := a).
  - destruct (upNextSongs _); [auto with tokens|].
    match goal with
    | |- tokens_ok (playAudioAndUpdateUI _ _ ?b) =>
        change (latestPlayRequestToken (next_token a)) with (latestPlayRequestToken b)
    end.
    now apply tokens_ok_request with (a := a).
Qed.

#[export] Hint Resolve tokens_ok_playSong tokens_ok_playNextOrUpNext : tokens.

Lemma tokens_ok_resume t st a a' :
  resume t st a = Some a' → tokens_ok a → tokens_ok a'.
Proof.
  intros Hr H. destruct t, st; simpl in Hr; try discriminate; injection Hr as <-.
  - unfold playAudio_afterStream, on_exit, on_error.
    destruct o; [|case_bool_decide; auto with tokens].
    destruct (negb _); [simpl; auto with tokens|].
    destruct (no_url _); simpl; auto 8 with tokens.
  - unfold playAudio_afterPlay, on_exit, on_error. destruct o;
      [|case_bool_decide; auto with tokens].
    cbv zeta. destruct (artists_text _); [|simpl; auto with tokens].
    unfold fetchUpNext, prefetchNext. cbv zeta.
    repeat match goal with
           | |- context [match ?c with _ => _ end] => destruct c
           end; auto 10 with tokens.
  - destruct o; simpl; auto with tokens.
  - destruct o; simpl; auto with tokens.
Qed.

(** Tokens stay distinct along every run. *)
Lemma step_tokens_ok (e : Event) (a a' : App) :
  step e a = Some a' → tokens_ok a → tokens_ok a'.
Proof.
  intros Hstep H. destruct e; simpl in Hstep.
  - injection Hstep as <-. auto with tokens.
  - injection Hstep as <-. unfold addSongToQueue. cbv zeta.
    destruct (renderQueue _); [|auto with tokens].
    destruct (_ && _); auto with tokens.
  - injection Hstep as <-. unfold addSongToPlayNext. cbv zeta.
    destruct (renderQueue _); auto with tokens.
  - injection Hstep as <-. auto with tokens.
  - injection Hstep as <-. auto with tokens.
  - injection Hstep as <-. unfold previous. cbv zeta.
    destruct (_ =? _)%nat; [exact H|]. destruct lateInTrack; [exact H|].
    destruct (0 <? _); [|exact H].
    match goal with
    | |- tokens_ok (playAudioAndUpdateUI _ _ ?b) => apply tokens_ok_request with (a := a)
    end; [reflexivity | reflexivity | exact H].
  - injection Hstep as <-. unfold removeItem. cbv zeta.
    destruct (_ || _); [exact H|].
    destruct (_ =? _); [auto with tokens|].
    destruct (_ <? _); auto with tokens.
  - destruct (reorderItem _ _ _); [|discriminate]. injection Hstep as <-.
    auto with tokens.
  - injection Hstep as <-. unfold playFromUpNext. cbv zeta.
    destruct (at_index _ _); [|exact H].
    match goal with
    | |- tokens_ok (playAudioAndUpdateUI _ _ ?b) => apply tokens_ok_request with (a := a)
    end; [reflexivity | reflexivity | exact H].
  - destruct (_ && _); [|discriminate]. injection Hstep as <-.
    unfold onQueueItemClick. cbv zeta.
    match goal with
    | |- tokens_ok (playAudioAndUpdateUI _ _ ?b) =>
        change (latestPlayRequestToken (next_token a)) with (latestPlayRequestToken b)
    end.
    now apply tokens_ok_request with (a := a).
  - destruct (pending a !! k); [|discriminate]. simpl in Hstep.
    eapply tokens_ok_resume; [exact Hstep|]. auto with tokens.
Qed.

(** So at most one of the requests awaiting their stream is live:
    the last one issued. *)
Lemma at_most_one_live_request (a : App) (k k' : nat) (song song' : Track)
    (token token' : Z) :
  tokens_ok a →
  pending a !! k = Some (AwaitStream song token) →
  pending a !! k' = Some (AwaitStream song' token') →
  stale_handle a k = false → stale_handle a k' = false →
  k = k'.
Proof.
  intros H Hk Hk' Hs Hs'. unfold stale_handle in *. rewrite Hk in Hs. rewrite Hk' in Hs'.
  simpl in *. apply negb_false_iff, Z.eqb_eq in Hs, Hs'. subst token token'.
  destruct (H k song _ Hk) as [_ Huniq]. symmetry. eauto.
Qed.

(** What holds of every state the player can reach. *)
Lemma reachable_invariants (es : list Event) (a : App) :
  run es initial = Some a →
  cursor_ok (queueManager a) ∧ fresh_handles a ∧ tokens_ok a.
Proof.
  assert (∀ es a0 a, run es a0 = Some a →
            cursor_ok (queueManager a0) ∧ fresh_handles a0 ∧ tokens_ok a0 →
            cursor_ok (queueManager a) ∧ fresh_handles a ∧ tokens_ok a) as Hrun.
  { clear. induction es as [|e es IH]; intros a0 a Hr H; simpl in Hr.
    - now injection Hr as <-.
    - destruct (step e a0) as [a1|] eqn:E; [|discriminate]. simpl in Hr.
      eapply IH; [exact Hr|]. destruct H as (Hc & Hf & Ht).
      split; [eapply Reachable.step_cursor_ok; eauto|].
      split; [eapply Reachable.step_fresh_handles; eauto|].
      eapply step_tokens_ok; eauto. }
  intros Hr. eapply Hrun; [exact Hr|]. split; [now left|].
  split; [apply Reachable.initial_fresh_handles|].
  intros k song token Hk. simpl in Hk. now rewrite lookup_empty in Hk.
Qed.

End TokenFacts.

(** ** Scenarios *)

Module Scenarios.
Import Js Player Props.
Import HistoryFacts QueueFacts RemovalFacts CurrentTrackFacts ScheduleFacts Reachable.

(** C1 as stated fails: the stream of a superseded request arrives and
    the loading indicator goes off while the current request is still
    loading. *)
Lemma stale_settlement_changes_ui : ¬ stale_settlements_leave_ui_alone.
Proof.
  intros H.
  specialize (H two_requests 0%nat songA 1 (Fulfilled (Some urlA))
                (set_isSongLoading false (retire 0 two_requests))).
  assert (ui (set_isSongLoading false (retire 0 two_requests)) = ui two_requests) as Hui.
  { apply H; [reflexivity | discriminate | reflexivity]. }
  vm_compute in Hui. discriminate Hui.
Qed.

Lemma two_requests_fresh : fresh_handles two_requests.
Proof. unfold two_requests. auto using initial_fresh_handles with fresh. Qed.

(** C1, amended, for two requests where the stream of the first arrives
    after the second is playing. *)
Lemma stale_requests_never_reach_playback_witness :
  (∃ a'', run (filter (λ e, stale_settle two_requests e = false) late_stream_of_A)
              two_requests = Some a''
          ∧ same_playback after_late_stream_of_A a''
          ∧ (Forall (λ e, stale_rejection two_requests e = false) late_stream_of_A →
             notifications after_late_stream_of_A = notifications a''))
  ∧ (∀ es0 e, late_stream_of_A = es0 ++ [e] → stale_settle two_requests e = true →
              isSongLoading after_late_stream_of_A = false).
Proof.
  apply (stale_requests_never_reach_playback two_requests late_stream_of_A
           after_late_stream_of_A).
  - exact two_requests_fresh.
  - repeat constructor.
  - vm_compute. reflexivity.
Defined.

(** The second request wins: its stream is the one that plays. *)
Lemma late_stream_of_A_plays_B :
  src (audioPlayer after_late_stream_of_A) = urlB
  ∧ currentSongTitle (nowPlaying after_late_stream_of_A) = title songB
  ∧ playedHistory (queueManager after_late_stream_of_A) = [id songB]
  ∧ notifications after_late_stream_of_A = [].
Proof. vm_compute. repeat split. Qed.

(** Outside the scenario of rapid requests: a request superseded
    between the arrival of its stream and the settlement of
    [audioPlayer.play()] still writes the player bar and the history,
    as the token is not looked at again after the second [await]. *)
Lemma superseded_while_starting_writes :
  ∃ a, run superseded_while_starting initial = Some a
       ∧ latestPlayRequestToken a = 2
       ∧ getCurrentItem (queueManager a) = Some songB
       ∧ currentSongTitle (nowPlaying a) = title songA
       ∧ playedHistory (queueManager a) = [id songA].
Proof. eexists. split; [vm_compute; reflexivity|]. vm_compute. repeat split. Qed.

(** C2 at its failing input. The cache holds a stream for B and B is
    requested: the resolver is called all the same, the cache is not
    read, and what plays is what the resolver returned (nothing, when
    it fails). *)
Theorem prefetched_stream_is_not_used :
  let a := playing_A_prefetched_B in
  let a1 := playNextOrUpNext a in
  let arrives := Settle 4 (StreamSettled (Fulfilled (Some urlB))) in
  let fails := Settle 4 (StreamSettled (Rejected "resolver failed")) in
  getPrefetchedUrl (id songB) (queueManager a) = Some cachedB
  ∧ getCurrentItem (queueManager a1) = Some songB
  ∧ pending a1 !! 4%nat = Some (AwaitStream songB 2)
  ∧ getPrefetchedUrl (id songB) (queueManager a1) = Some cachedB
  ∧ src (audioPlayer a1) = urlA
  ∧ (audioPlayer <$> step arrives a1) = Some (mkAudio urlB false)
  ∧ (prefetchedUrl ∘ queueManager <$> step arrives a1) = Some None
  ∧ (audioPlayer <$> step fails a1) = Some (mkAudio urlA false)
  ∧ (notifications <$> step fails a1)
      = Some [("resolver failed", "error"); ("Added to queue", "info")].
Proof. vm_compute. repeat split. Qed.

(** C3 at its failing input. X is played from an album that holds A and
    B: the queue becomes A, B, X is not appended, nothing is selected,
    and no stream is requested although the token has advanced. *)
Theorem track_outside_collection_is_not_selected :
  let m := setSongForPlayback songX (Some albumAB) initialQueueManager in
  let a := playSong (Some songX) (Some albumAB) initial in
  songQueue m = [songA; songB]
  ∧ currentSongIndex m = -1
  ∧ getCurrentItem m = None
  ∧ queueManager a = m
  ∧ latestPlayRequestToken a = 1
  ∧ pending a = ∅.
Proof. vm_compute. repeat split. Qed.

(** A and then B are requested.  Were the stream call of A rejected
    while B is current, the error would be shown: the [catch] block
    looks at the message only.  (The handler of [get-audio-stream]
    settles every call by resolving it, see [Main.getAudioStreamHandler].) *)
Theorem stale_rejection_is_shown :
  let failure := Settle 0 (StreamSettled (Rejected "yt-dlp exited with code 1")) in
  pending two_requests !! 0%nat = Some (AwaitStream songA 1)
  ∧ latestPlayRequestToken two_requests = 2
  ∧ notifications two_requests = []
  ∧ (notifications <$> step failure two_requests)
      = Some [("yt-dlp exited with code 1", "error")].
Proof. vm_compute. repeat split. Qed.



(** C4 for the removal of the current, last track of a queue of two. *)
Lemma queue_operations_keep_cursor_valid_witness :
  ∃ a', apply_op (RemoveAt 1) on_last_track = Some a' ∧ cursor_ok (queueManager a').
Proof.
  apply (queue_operations_keep_cursor_valid (RemoveAt 1) on_last_track).
  - right. vm_compute. split; [discriminate | reflexivity].
  - exact I.
Defined.

(** C7, amended, for moving A behind B while B is current. *)
Lemma reorder_keeps_identified_track_witness :
  ∃ m', reorderItem 0 1 (queueManager on_last_track) = Some m'
        ∧ (0 = 1 → m' = queueManager on_last_track)
        ∧ (0 ≠ 1 → moved 0 1 (songQueue (queueManager on_last_track)) (songQueue m'))
        ∧ (truthy (id songB) = true → id <$> getCurrentItem m' = Some (id songB))
        ∧ (truthy (id songB) = false →
           currentSongIndex m' = currentSongIndex (queueManager on_last_track)).
Proof.
  apply (reorder_keeps_identified_track (queueManager on_last_track) 0 1 songB).
  - reflexivity.
  - vm_compute. repeat constructor.
Defined.

(** C7 as stated fails: N, a track without an id, is current in the
    queue N, A; moving it behind A leaves the cursor at the front, on A. *)
Lemma reorder_can_change_current_track : ¬ reorder_keeps_current_id.
Proof.
  intros H.
  specialize (H (queueManager on_track_without_id) 0 1 songN
                (set_songQueue [songA; songN] (queueManager on_track_without_id))).
  assert (id <$> getCurrentItem
                   (set_songQueue [songA; songN] (queueManager on_track_without_id))
          = Some (id songN)) as Hid.
  { apply H; vm_compute; reflexivity. }
  vm_compute in Hid. discriminate Hid.
Qed.

(** How that state comes about, and what the reorder does to it: the
    queue N, A becomes A, N; the cursor stays at [0], since N has no id
    to be found by; the current track, which was N, is A. *)
Lemma reorder_under_track_without_id :
  let m := queueManager on_track_without_id in
  run [ AddSongToQueue songN; AddSongToQueue songA; Next ] initial
    = Some on_track_without_id
  ∧ songQueue m = [songN; songA]
  ∧ getCurrentItem m = Some songN
  ∧ pending on_track_without_id = ∅
  ∧ (songQueue <$> reorderItem 0 1 m) = Some [songA; songN]
  ∧ (currentSongIndex <$> reorderItem 0 1 m) = Some 0
  ∧ (getCurrentItem <$> reorderItem 0 1 m) = Some (Some songA).
Proof. vm_compute. repeat split. Qed.

(** C5 on a history of fifty ids: a fresh id, and an id that is present. *)
Lemma history_bounded_and_distinct_witness :
  let h := playedHistory (record_all fifty_ids) in
  length h = 50%nat
  ∧ playedHistory (addToHistory "fresh" (record_all fifty_ids))
      = "fresh" :: removelast h
  ∧ playedHistory (addToHistory "A" (record_all fifty_ids))
      = "A" :: filter (λ y, y ≠ "A") h.
Proof.
  destruct (history_bounded_and_distinct fifty_ids "fresh") as (_ & _ & _ & Hfresh).
  destruct (history_bounded_and_distinct fifty_ids "A") as (_ & _ & Hseen & _).
  split; [vm_compute; reflexivity|]. split.
  - apply Hfresh.
    + apply (bool_decide_unpack _). vm_compute. exact I.
    + reflexivity.
    + vm_compute. reflexivity.
  - apply Hseen. apply (bool_decide_unpack _). vm_compute. exact I.
Defined.

End Scenarios.

(** ** Playback, further *)

Module PlaybackFacts.
Import Js Player Props JsFacts QueueFacts.

Local Arguments splice_drop1 : simpl never.
Local Arguments splice_put : simpl never.
Local Arguments findIndex : simpl never.
Local Arguments at_index : simpl never.

(** X1. When a track follows the current one, [prefetchNext] awaits the
    stream of that track; once the call has settled, [getPrefetchedUrl]
    returns the resolved URL for the id of that track and [null] for
    every other id, and [null] for every id when the call was rejected. *)
Theorem prefetch_round_trip (a : App) (nextSong : Track) (o : Outcome (option string)) :
  at_index (songQueue (queueManager a)) (currentSongIndex (queueManager a) + 1)
    = Some nextSong →
  ∃ a', step (Settle (nextTaskId a) (PrefetchSettled o)) (prefetchNext a) = Some a'
        ∧ ∀ songId,
            getPrefetchedUrl songId (queueManager a') =
              match o with
              | Fulfilled url => if bool_decide (songId = id nextSong) then url else None
              | Rejected _ => None
              end.
Proof.
  intros Hnext.
  assert (0 ≤ currentSongIndex (queueManager a) + 1
          < Z.of_nat (length (songQueue (queueManager a)))) as Hrange.
  { apply at_index_is_Some. now exists nextSong. }
  unfold prefetchNext. cbv zeta.
  change (queueManager (with_queueManager clearPrefetchedUrl a))
    with (clearPrefetchedUrl (queueManager a)).
  change (songQueue (clearPrefetchedUrl (queueManager a)))
    with (songQueue (queueManager a)).
  change (currentSongIndex (clearPrefetchedUrl (queueManager a)))
    with (currentSongIndex (queueManager a)).
  rewrite Hnext.
  replace (_ <? _) with true by (symmetry; apply Z.ltb_lt; lia).
  simpl. rewrite lookup_insert_eq. simpl.
  eexists. split; [reflexivity|].
  intros songId. destruct o as [url|message]; simpl; unfold getPrefetchedUrl; simpl.
  - repeat case_bool_decide; congruence.
  - repeat case_bool_decide; congruence.
Qed.

Lemma findIndex_first {A} (p : A → bool) (arr : list A) (i : Z) (x : A) :
  at_index arr i = Some x → p x = true →
  (∀ j y, 0 ≤ j < i → at_index arr j = Some y → p y = false) →
  findIndex p arr = i.
Proof.
  intros Hx Hp Hbefore. apply at_index_Some in Hx as [Hi Hx].
  unfold findIndex.
  assert (list_find (λ y, p y = true) arr = Some (Z.to_nat i, x)) as ->.
  { apply list_find_Some. split; [exact Hx|]. split; [exact Hp|].
    intros j y Hy Hlt. rewrite (Hbefore (Z.of_nat j) y); [discriminate | lia |].
    now rewrite at_index_of_nat. }
  lia.
Qed.

(** X2. [setSongForPlayback(song, null)] leaves the cursor on a track with
    the id of [song]: a queue that holds such a track is unchanged,
    otherwise [song] is inserted right after the old cursor position and
    the cursor moves onto it. *)
Theorem bare_track_becomes_current (song : Track) (m : QueueManager) :
  cursor_ok m →
  let m' := setSongForPlayback song None m in
  let k := Z.to_nat (currentSongIndex m + 1) in
  id <$> getCurrentItem m' = Some (id song)
  ∧ ((∃ s, s ∈ songQueue m ∧ id s = id song) → songQueue m' = songQueue m)
  ∧ ((∀ s, s ∈ songQueue m → id s ≠ id song) →
       getCurrentItem m' = Some song
       ∧ currentSongIndex m' = currentSongIndex m + 1
       ∧ songQueue m' = take k (songQueue m) ++ song :: drop k (songQueue m)).
Proof.
  intros Hok m' k. unfold m', setSongForPlayback.
  destruct (negb (findIndex (same_id (id song)) (songQueue m) =? -1)) eqn:E.
  - apply negb_true_iff, Z.eqb_neq in E.
    destruct (findIndex_found _ _ _ eq_refl E) as (x & Hx & Hsame).
    apply same_id_true in Hsame.
    split; [unfold getCurrentItem; simpl; rewrite Hx; simpl; congruence|].
    split; [reflexivity|].
    intros Hnone. exfalso. apply (Hnone x); [|exact Hsame].
    eapply CurrentTrackFacts.at_index_elem_of, Hx.
  - apply negb_false_iff, Z.eqb_eq in E.
    assert (0 ≤ currentSongIndex m + 1 ≤ Z.of_nat (length (songQueue m))) as Hr
      by (unfold cursor_ok in Hok; lia).
    assert (getCurrentItem
              (set_currentSongIndex (currentSongIndex m + 1)
                 (set_songQueue
                    (splice_put (currentSongIndex m + 1) song (songQueue m)) m))
            = Some song) as Hcur.
    { unfold getCurrentItem. simpl. now apply splice_put_lookup. }
    split; [now rewrite Hcur|]. split.
    + intros (s & Hin & Hid). exfalso.
      destruct (findIndex_exists (same_id (id song)) (songQueue m) s Hin) as (y & Hy & _).
      { now apply same_id_true. }
      rewrite E in Hy. unfold at_index in Hy. simpl in Hy. discriminate.
    + intros _. split; [exact Hcur|]. split; [reflexivity|].
      simpl. unfold splice_put. now rewrite rel_index_in_range by exact Hr.
Qed.

(** X3. [removeItem(index)] with an index other than the cursor keeps the
    current track, the token, the pending calls and the audio element;
    an index of the queue deletes that element, any other index changes
    nothing. *)
Theorem removing_another_track_keeps_current (index : Z) (a : App) :
  cursor_ok (queueManager a) →
  index ≠ currentSongIndex (queueManager a) →
  let m := queueManager a in
  let a' := removeItem index a in
  getCurrentItem (queueManager a') = getCurrentItem m
  ∧ latestPlayRequestToken a' = latestPlayRequestToken a
  ∧ pending a' = pending a
  ∧ audioPlayer a' = audioPlayer a
  ∧ (0 ≤ index < Z.of_nat (length (songQueue m)) →
       songQueue (queueManager a') = delete (Z.to_nat index) (songQueue m))
  ∧ (¬ 0 ≤ index < Z.of_nat (length (songQueue m)) → a' = a).
Proof.
  intros Hok Hne m a'. fold m in Hok, Hne. unfold a', removeItem. fold m.
  destruct ((index <? 0) || (Z.of_nat (length (songQueue m)) <=? index)) eqn:E.
  - apply orb_true_iff in E.
    repeat split; try reflexivity.
    intros Hr. exfalso. destruct E as [E|E]; [apply Z.ltb_lt in E | apply Z.leb_le in E]; lia.
  - apply orb_false_iff in E as [E1 E2].
    apply Z.ltb_ge in E1. apply Z.leb_gt in E2.
    replace (index =? currentSongIndex m) with false
      by (symmetry; now apply Z.eqb_neq).
    pose proof (splice_drop1_in_range index (songQueue m) (conj E1 E2)) as Hd.
    destruct (index <? currentSongIndex m) eqn:El.
    + apply Z.ltb_lt in El. simpl. rewrite Hd.
      split; [|repeat split; try reflexivity; intros; lia].
      unfold getCurrentItem, cursor_ok in *. fold m in Hok. simpl.
      unfold at_index. fold m.
      replace (currentSongIndex m - 1 <? 0) with false by (symmetry; apply Z.ltb_ge; lia).
      replace (currentSongIndex m <? 0) with false by (symmetry; apply Z.ltb_ge; lia).
      rewrite list_lookup_delete_ge by lia. f_equal. lia.
    + apply Z.ltb_ge in El. simpl. rewrite Hd.
      split; [|repeat split; try reflexivity; intros; lia].
      unfold getCurrentItem. simpl. unfold at_index. fold m.
      destruct (currentSongIndex m <? 0) eqn:Ec; [reflexivity|].
      apply Z.ltb_ge in Ec. now rewrite list_lookup_delete_lt by lia.
Qed.

(** X4. [playNextOrUpNext] and [playFromUpNext] neither drop nor duplicate
    a track: the queue followed by the recommendation buffer is the same
    list after [playNextOrUpNext], and a permutation of it after
    [playFromUpNext]. *)
Theorem recommendations_move_into_queue (a : App) (index : Z) :
  let tracks a := songQueue (queueManager a) ++ upNextSongs (queueManager a) in
  tracks (playNextOrUpNext a) = tracks a
  ∧ tracks (playFromUpNext index a) ≡ₚ tracks a.
Proof.
  intros tracks. unfold tracks. split.
  - unfold playNextOrUpNext. cbv zeta.
    change (queueManager (next_token a)) with (queueManager a).
    destruct (_ <? _); [now rewrite playAudioAndUpdateUI_queueManager|].
    destruct (upNextSongs (queueManager a)) as [|t rest] eqn:Eu.
    + simpl. now rewrite Eu.
    + rewrite playAudioAndUpdateUI_queueManager. simpl. now rewrite <- app_assoc.
  - unfold playFromUpNext. cbv zeta.
    destruct (at_index (upNextSongs (queueManager a)) index) as [t|] eqn:Et;
      [|reflexivity].
    rewrite playAudioAndUpdateUI_queueManager. simpl.
    apply at_index_Some in Et as [Hi Ht].
    rewrite splice_drop1_in_range
      by (split; [lia | apply lookup_lt_Some in Ht; lia]).
    rewrite <- app_assoc. simpl. apply Permutation_app_head.
    symmetry. now apply delete_Permutation.
Qed.

(** X5. On the last track and with nothing recommended, [playNextOrUpNext]
    pauses the audio and leaves the queue manager and the pending calls
    as they were; the token is advanced all the same, so every request
    that awaits its stream becomes stale. *)
Theorem skipping_past_the_end (a : App) :
  let m := queueManager a in
  currentSongIndex m = Z.of_nat (length (songQueue m)) - 1 →
  upNextSongs m = [] →
  let a' := playNextOrUpNext a in
  queueManager a' = m
  ∧ audioPlayer a' = mkAudio (src (audioPlayer a)) true
  ∧ latestPlayRequestToken a' = latestPlayRequestToken a + 1
  ∧ pending a' = pending a
  ∧ ∀ k song token,
      pending a !! k = Some (AwaitStream song token) →
      token ≤ latestPlayRequestToken a →
      stale_handle a' k = true.
Proof.
  intros m Hlast Hrec a'. unfold a', playNextOrUpNext. cbv zeta.
  change (queueManager (next_token a)) with m.
  replace (currentSongIndex m <? Z.of_nat (length (songQueue m)) - 1) with false
    by (symmetry; apply Z.ltb_ge; lia).
  rewrite Hrec. repeat split.
  intros k song token Hk Hle. unfold stale_handle. simpl. rewrite Hk. simpl.
  apply negb_true_iff, Z.eqb_neq. lia.
Qed.

End PlaybackFacts.

(** ** Requests and tokens, further *)

Module RequestFacts.
Import Js Player Props JsFacts QueueFacts.

Local Arguments splice_drop1 : simpl never.
Local Arguments splice_put : simpl never.
Local Arguments findIndex : simpl never.
Local Arguments at_index : simpl never.

Lemma playAudioAndUpdateUI_token (song : option Track) (token : Z) (a : App) :
  latestPlayRequestToken (playAudioAndUpdateUI song token a) = latestPlayRequestToken a.
Proof.
  unfold playAudioAndUpdateUI. destruct song as [song|]; [|reflexivity].
  destruct (negb (truthy (id song))); [reflexivity|].
  destruct (negb (token =? latestPlayRequestToken a)); reflexivity.
Qed.

Lemma playSong_token (song : option Track) (source : option Playlist) (a : App) :
  latestPlayRequestToken a ≤ latestPlayRequestToken (playSong song source a)
    ≤ latestPlayRequestToken a + 1.
Proof.
  unfold playSong. destruct song as [song|]; [|lia].
  destruct (negb (truthy (id song))); [lia|].
  match goal with |- context [if ?c then _ else _] => destruct c end; [simpl; lia|].
  cbv zeta. destruct (renderQueue _); [|simpl; lia].
  rewrite playAudioAndUpdateUI_token. simpl. lia.
Qed.

Lemma playNextOrUpNext_token (a : App) :
  latestPlayRequestToken (playNextOrUpNext a) = latestPlayRequestToken a + 1.
Proof.
  unfold playNextOrUpNext. cbv zeta.
  destruct (_ <? _); [now rewrite playAudioAndUpdateUI_token|].
  destruct (upNextSongs _); [reflexivity|].
  now rewrite playAudioAndUpdateUI_token.
Qed.

Lemma resume_token (t : Task) (st : Settlement) (a a' : App) :
  resume t st a = Some a' → latestPlayRequestToken a' = latestPlayRequestToken a.
Proof.
  intros Hr. now destruct (ScheduleFacts.extends_resume t st a a' Hr) as [Ht _].
Qed.

(** X6. Every turn of the event loop leaves [latestPlayRequestToken]
    unchanged or increases it by one. *)
Theorem token_only_grows (e : Event) (a a' : App) :
  step e a = Some a' →
  latestPlayRequestToken a ≤ latestPlayRequestToken a' ≤ latestPlayRequestToken a + 1.
Proof.
  intros Hstep. destruct e; simpl in Hstep.
  - injection Hstep as <-. apply playSong_token.
  - injection Hstep as <-. unfold addSongToQueue. cbv zeta.
    destruct (renderQueue _); [|simpl; lia].
    destruct (_ && _); [|simpl; lia].
    match goal with |- context [playSong ?s ?p ?b] => pose proof (playSong_token s p b) as H end.
    simpl in H. exact H.
  - injection Hstep as <-. unfold addSongToPlayNext. cbv zeta.
    destruct (renderQueue _); simpl; lia.
  - injection Hstep as <-. rewrite playNextOrUpNext_token. lia.
  - injection Hstep as <-. rewrite playNextOrUpNext_token. lia.
  - injection Hstep as <-. unfold previous. cbv zeta.
    destruct (_ =? _)%nat; [lia|]. destruct lateInTrack; [lia|].
    destruct (0 <? _); [|lia]. rewrite playAudioAndUpdateUI_token. simpl. lia.
  - injection Hstep as <-. unfold removeItem. cbv zeta.
    destruct (_ || _); [lia|].
    destruct (_ =? _); [rewrite playNextOrUpNext_token; simpl; lia|].
    destruct (_ <? _); simpl; lia.
  - destruct (reorderItem _ _ _); [|discriminate]. injection Hstep as <-. simpl. lia.
  - injection Hstep as <-. unfold playFromUpNext. cbv zeta.
    destruct (at_index _ _); [|lia]. rewrite playAudioAndUpdateUI_token. simpl. lia.
  - destruct (_ && _); [|discriminate]. injection Hstep as <-.
    unfold onQueueItemClick. cbv zeta. rewrite playAudioAndUpdateUI_token. simpl. lia.
  - destruct (pending a !! k); [|discriminate]. simpl in Hstep.
    apply resume_token in Hstep. simpl in Hstep. lia.
Qed.

(** X7. In every state reached from the initial one, the requests that
    await their stream hold tokens that were handed out and that differ
    from one another, and of two of them at least one is stale. *)
Theorem reachable_requests_hold_distinct_tokens (es : list Event) (a : App)
    (k k' : nat) (song song' : Track) (token token' : Z) :
  run es initial = Some a →
  pending a !! k = Some (AwaitStream song token) →
  pending a !! k' = Some (AwaitStream song' token') →
  token ≤ latestPlayRequestToken a
  ∧ (token = token' → k = k')
  ∧ (k ≠ k' → stale_handle a k = true ∨ stale_handle a k' = true).
Proof.
  intros Hrun Hk Hk'.
  destruct (TokenFacts.reachable_invariants es a Hrun) as (_ & _ & Htok).
  destruct (Htok k song token Hk) as [Hle Huniq].
  split; [exact Hle|]. split.
  - intros <-. symmetry. eauto.
  - intros Hne.
    destruct (stale_handle a k) eqn:Es; [now left|].
    destruct (stale_handle a k') eqn:Es'; [now right|].
    exfalso. apply Hne.
    eapply TokenFacts.at_most_one_live_request; eauto.
Qed.

(** X8. The request that holds the current token, for a track with an id
    and an [artists] array: when its stream resolves with a URL and
    [audioPlayer.play()] succeeds, that URL plays, the player bar shows
    the track, its id is first in the history, the prefetch cache is
    cleared, queue and cursor are unchanged, the loading indicator is
    off and no toast was shown. *)
Theorem current_request_plays (a : App) (k : nat) (song : Track) (url text : string) :
  pending a !! k = Some (AwaitStream song (latestPlayRequestToken a)) →
  truthy url = true →
  truthy (id song) = true →
  artists_text (artists song) = Some text →
  ∃ a', run [ Settle k (StreamSettled (Fulfilled (Some url)));
              Settle (nextTaskId a) (PlaySettled (Fulfilled ())) ] a = Some a'
        ∧ audioPlayer a' = mkAudio url false
        ∧ currentSongTitle (nowPlaying a') = title song
        ∧ currentSongArtist (nowPlaying a') = text
        ∧ nowPlayingShown (nowPlaying a') = true
        ∧ head (playedHistory (queueManager a')) = Some (id song)
        ∧ prefetchedUrl (queueManager a') = None
        ∧ songQueue (queueManager a') = songQueue (queueManager a)
        ∧ currentSongIndex (queueManager a') = currentSongIndex (queueManager a)
        ∧ isSongLoading a' = false
        ∧ notifications a' = notifications a.
Proof.
  intros Hk Hurl Hid Htext.
  cbn [run]. cbn [step]. rewrite Hk. cbn [mbind option_bind resume].
  unfold playAudio_afterStream.
  change (latestPlayRequestToken (retire k a)) with (latestPlayRequestToken a).
  rewrite Z.eqb_refl. cbn [negb no_url]. rewrite Hurl. cbn [negb default].
  set (a1 := spawn _ _).
  assert (pending a1 !! nextTaskId a = Some (AwaitPlay song (latestPlayRequestToken a)))
    as Hplay by (unfold a1; simpl; apply lookup_insert_eq).
  cbn [mbind option_bind step]. rewrite Hplay. cbn [mbind option_bind resume].
  unfold playAudio_afterPlay. rewrite Htext.
  eexists. split; [reflexivity|].
  unfold on_exit, fetchUpNext, prefetchNext. cbv zeta.
  assert (∀ m, head (playedHistory (addToHistory (id song) m)) = Some (id song)
               ∧ songQueue (addToHistory (id song) m) = songQueue m
               ∧ currentSongIndex (addToHistory (id song) m) = currentSongIndex m)
    as Hhist.
  { intros m. unfold addToHistory. rewrite Hid. cbn [negb]. simpl.
    destruct (filter _ _) as [|y l]; [now repeat split|].
    simpl. destruct (_ <? _)%nat; now repeat split. }
  repeat match goal with
         | |- context [match ?c with _ => _ end] => destruct c
         end; simpl; repeat split; try reflexivity;
    first [ apply Hhist
          | now rewrite (proj1 (proj2 (Hhist _)))
          | now rewrite (proj2 (proj2 (Hhist _))) ].
Qed.

End RequestFacts.

(** ** Whole sessions *)

Module SessionFacts.
Import Js Player Props Session JsFacts QueueFacts.

Local Arguments splice_drop1 : simpl never.
Local Arguments splice_put : simpl never.
Local Arguments findIndex : simpl never.
Local Arguments at_index : simpl never.
Local Arguments addToHistory : simpl never.

Ltac branches :=
  repeat match goal with
         | |- context [match ?c with _ => _ end] => destruct c
         end.

(** *** The history along a session *)

Lemma playSong_history (song : option Track) (source : option Playlist) (a : App) :
  playedHistory (queueManager (playSong song source a)) = playedHistory (queueManager a).
Proof.
  unfold playSong. destruct song as [song|]; [|reflexivity].
  destruct (negb _); [reflexivity|].
  match goal with |- context [if ?c then _ else _] => destruct c end; [reflexivity|].
  cbv zeta.
  assert (playedHistory (setSongForPlayback song source (queueManager a))
          = playedHistory (queueManager a)) as Hset.
  { unfold setSongForPlayback. destruct source; simpl; [reflexivity|].
    now destruct (negb _). }
  destruct (renderQueue _); [rewrite playAudioAndUpdateUI_queueManager|];
    exact Hset.
Qed.

Lemma playNextOrUpNext_history (a : App) :
  playedHistory (queueManager (playNextOrUpNext a)) = playedHistory (queueManager a).
Proof.
  unfold playNextOrUpNext. cbv zeta.
  destruct (_ <? _); [now rewrite playAudioAndUpdateUI_queueManager|].
  destruct (upNextSongs _); [reflexivity|].
  now rewrite playAudioAndUpdateUI_queueManager.
Qed.

Lemma prefetchNext_history (a : App) :
  playedHistory (queueManager (prefetchNext a)) = playedHistory (queueManager a).
Proof. unfold prefetchNext. cbv zeta. branches; reflexivity. Qed.

Lemma fetchUpNext_history (a : App) :
  playedHistory (queueManager (fetchUpNext a)) = playedHistory (queueManager a).
Proof. unfold fetchUpNext. branches; reflexivity. Qed.

Lemma on_error_queueManager (message : string) (a : App) :
  queueManager (on_error message a) = queueManager a.
Proof. unfold on_error. now case_bool_decide. Qed.

Lemma resume_history (t : Task) (st : Settlement) (a a' : App) :
  resume t st a = Some a' →
  history_ok (playedHistory (queueManager a)) →
  history_ok (playedHistory (queueManager a')).
Proof.
  intros Hr H. destruct t, st; simpl in Hr; try discriminate; injection Hr as <-.
  - unfold playAudio_afterStream, on_exit.
    destruct o; simpl; rewrite ?on_error_queueManager; [|exact H].
    branches; simpl; rewrite ?on_error_queueManager; exact H.
  - unfold playAudio_afterPlay, on_exit.
    destruct o; simpl; rewrite ?on_error_queueManager; [|exact H].
    destruct (artists_text _); simpl; rewrite ?on_error_queueManager; [|exact H].
    rewrite fetchUpNext_history, prefetchNext_history. simpl.
    now apply HistoryFacts.addToHistory_ok.
  - unfold prefetchNext_resume. now destruct o.
  - unfold fetchUpNext_resume. now destruct o.
Qed.

Lemma step_history (e : Event) (a a' : App) :
  step e a = Some a' →
  history_ok (playedHistory (queueManager a)) →
  history_ok (playedHistory (queueManager a')).
Proof.
  intros Hstep H. destruct e; simpl in Hstep.
  - injection Hstep as <-. now rewrite playSong_history.
  - injection Hstep as <-. unfold addSongToQueue. cbv zeta.
    destruct (renderQueue _); [|exact H].
    destruct (_ && _); [rewrite playSong_history|]; exact H.
  - injection Hstep as <-. unfold addSongToPlayNext. cbv zeta.
    destruct (renderQueue _); exact H.
  - injection Hstep as <-. now rewrite playNextOrUpNext_history.
  - injection Hstep as <-. now rewrite playNextOrUpNext_history.
  - injection Hstep as <-. unfold previous. cbv zeta.
    branches; rewrite ?playAudioAndUpdateUI_queueManager; exact H.
  - injection Hstep as <-. unfold removeItem. cbv zeta.
    branches; rewrite ?playNextOrUpNext_history; exact H.
  - unfold reorderItem in Hstep.
    destruct (_ =? _); [injection Hstep as <-; exact H|].
    destruct (splice_take1 _ _) as [[x|] rest]; [|discriminate].
    injection Hstep as <-. simpl. now destruct (truthy _).
  - injection Hstep as <-. unfold playFromUpNext. cbv zeta.
    destruct (at_index _ _); [|exact H].
    rewrite playAudioAndUpdateUI_queueManager. exact H.
  - destruct (_ && _); [|discriminate]. injection Hstep as <-.
    unfold onQueueItemClick. cbv zeta.
    rewrite playAudioAndUpdateUI_queueManager. exact H.
  - destruct (pending a !! k) as [t|]; [|discriminate]. simpl in Hstep.
    eapply resume_history; [exact Hstep | exact H].
Qed.

(** X9. In every state reached from the initial one, [playedHistory] holds
    at most 50 ids, none twice, and never an empty one. *)
Theorem session_history_is_bounded_and_distinct (es : list Event) (a : App) :
  run es initial = Some a →
  let h := playedHistory (queueManager a) in
  (length h ≤ 50)%nat ∧ NoDup h ∧ "" ∉ h.
Proof.
  assert (∀ es a0 a, run es a0 = Some a →
            history_ok (playedHistory (queueManager a0)) →
            history_ok (playedHistory (queueManager a))) as Hrun.
  { clear. induction es as [|e es IH]; intros a0 a Hr H; simpl in Hr.
    - now injection Hr as <-.
    - destruct (step e a0) as [a1|] eqn:E; [|discriminate]. simpl in Hr.
      eapply IH; [exact Hr|]. eapply step_history; eauto. }
  intros Hr h. apply (Hrun es initial a Hr).
  repeat split; simpl; [lia | constructor | apply not_elem_of_nil].
Qed.

(** *** The loading indicator *)

Lemma loading_ok_off (a : App) : isSongLoading a = false → loading_ok a.
Proof. intros H Hon. congruence. Qed.

Lemma loading_ok_same (a b : App) :
  isSongLoading b = isSongLoading a → pending b = pending a →
  loading_ok a → loading_ok b.
Proof. unfold loading_ok. intros -> ->. auto. Qed.

Lemma loading_ok_spawn_play (t : Task) (a : App) :
  play_task t = true → loading_ok (spawn t a).
Proof.
  intros Ht _. exists (nextTaskId a), t. split; [apply lookup_insert_eq | exact Ht].
Qed.

Lemma loading_ok_playAudioAndUpdateUI (song : option Track) (token : Z) (a : App) :
  loading_ok a → loading_ok (playAudioAndUpdateUI song token a).
Proof.
  intros H. unfold playAudioAndUpdateUI. destruct song as [song|]; [|exact H].
  destruct (negb _); [exact H|]. destruct (negb _); [exact H|].
  now apply loading_ok_spawn_play.
Qed.

Lemma loading_ok_playSong (song : option Track) (source : option Playlist) (a : App) :
  loading_ok a → loading_ok (playSong song source a).
Proof.
  intros H. unfold playSong. destruct song as [song|]; [|exact H].
  destruct (negb _); [exact H|].
  match goal with |- context [if ?c then _ else _] => destruct c end; [exact H|].
  cbv zeta. destruct (renderQueue _); [|exact H].
  apply loading_ok_playAudioAndUpdateUI. exact H.
Qed.

Lemma loading_ok_playNextOrUpNext (a : App) :
  loading_ok a → loading_ok (playNextOrUpNext a).
Proof.
  intros H. unfold playNextOrUpNext. cbv zeta.
  destruct (_ <? _); [apply loading_ok_playAudioAndUpdateUI; exact H|].
  destruct (upNextSongs _); [exact H|].
  apply loading_ok_playAudioAndUpdateUI. exact H.
Qed.

Lemma loading_ok_resume (k : nat) (t : Task) (st : Settlement) (a a' : App) :
  pending a !! k = Some t →
  resume t st (retire k a) = Some a' →
  loading_ok a → loading_ok a'.
Proof.
  intros Hk Hr H. destruct t, st; simpl in Hr; try discriminate; injection Hr as <-.
  - unfold playAudio_afterStream.
    destruct o; [|now apply loading_ok_off].
    destruct (negb _); [now apply loading_ok_off|].
    destruct (no_url _); [now apply loading_ok_off|].
    now apply loading_ok_spawn_play.
  - unfold playAudio_afterPlay.
    destruct o; [|now apply loading_ok_off].
    destruct (artists_text _); now apply loading_ok_off.
  - intros Hon.
    assert (isSongLoading a = true) as Ha by (destruct o; exact Hon).
    destruct (H Ha) as (k0 & t0 & Hk0 & Ht0).
    exists k0, t0. split; [|exact Ht0].
    assert (pending (retire k a) !! k0 = Some t0) as Hkeep.
    { simpl. apply lookup_delete_Some. split; [|exact Hk0].
      intros ->. rewrite Hk in Hk0. injection Hk0 as <-. discriminate. }
    destruct o; exact Hkeep.
  - intros Hon.
    assert (isSongLoading a = true) as Ha by (destruct o; exact Hon).
    destruct (H Ha) as (k0 & t0 & Hk0 & Ht0).
    exists k0, t0. split; [|exact Ht0].
    assert (pending (retire k a) !! k0 = Some t0) as Hkeep.
    { simpl. apply lookup_delete_Some. split; [|exact Hk0].
      intros ->. rewrite Hk in Hk0. injection Hk0 as <-. discriminate. }
    destruct o; exact Hkeep.
Qed.

Lemma step_loading_ok (e : Event) (a a' : App) :
  step e a = Some a' → loading_ok a → loading_ok a'.
Proof.
  intros Hstep H. destruct e; simpl in Hstep.
  - injection Hstep as <-. now apply loading_ok_playSong.
  - injection Hstep as <-. unfold addSongToQueue. cbv zeta.
    destruct (renderQueue _); [|exact H].
    destruct (_ && _); [apply loading_ok_playSong|]; exact H.
  - injection Hstep as <-. unfold addSongToPlayNext. cbv zeta.
    destruct (renderQueue _); exact H.
  - injection Hstep as <-. now apply loading_ok_playNextOrUpNext.
  - injection Hstep as <-. now apply loading_ok_playNextOrUpNext.
  - injection Hstep as <-. unfold previous. cbv zeta.
    destruct (_ =? _)%nat; [exact H|]. destruct lateInTrack; [exact H|].
    destruct (0 <? _); [|exact H]. apply loading_ok_playAudioAndUpdateUI. exact H.
  - injection Hstep as <-. unfold removeItem. cbv zeta.
    destruct (_ || _); [exact H|].
    destruct (_ =? _); [apply loading_ok_playNextOrUpNext; exact H|].
    destruct (_ <? _); exact H.
  - destruct (reorderItem _ _ _); [|discriminate]. injection Hstep as <-. exact H.
  - injection Hstep as <-. unfold playFromUpNext. cbv zeta.
    destruct (at_index _ _); [|exact H]. apply loading_ok_playAudioAndUpdateUI. exact H.
  - destruct (_ && _); [|discriminate]. injection Hstep as <-.
    unfold onQueueItemClick. cbv zeta. apply loading_ok_playAudioAndUpdateUI. exact H.
  - destruct (pending a !! k) as [t|] eqn:Hk; [|discriminate]. simpl in Hstep.
    eapply loading_ok_resume; eauto.
Qed.

(** X10. In every state reached from the initial one, [isSongLoading] is set
    only while a call of [playAudioAndUpdateUI] is suspended at one of
    its two [await]s. *)
Theorem loading_indicator_has_a_suspended_request (es : list Event) (a : App) :
  run es initial = Some a →
  isSongLoading a = true →
  ∃ k song token,
    pending a !! k = Some (AwaitStream song token)
    ∨ pending a !! k = Some (AwaitPlay song token).
Proof.
  assert (∀ es a0 a, run es a0 = Some a → loading_ok a0 → loading_ok a) as Hrun.
  { clear. induction es as [|e es IH]; intros a0 a Hr H; simpl in Hr.
    - now injection Hr as <-.
    - destruct (step e a0) as [a1|] eqn:E; [|discriminate]. simpl in Hr.
      eapply IH; [exact Hr|]. eapply step_loading_ok; eauto. }
  intros Hr Hon.
  destruct (Hrun es initial a Hr (loading_ok_off initial eq_refl) Hon)
    as (k & t & Hk & Ht).
  destruct t as [song token|song token| |]; try discriminate;
    exists k, song, token; auto.
Qed.

End SessionFacts.

(** ** Controls *)

Module ControlFacts.
Import Js Player Props Session JsFacts QueueFacts.

Local Arguments splice_drop1 : simpl never.
Local Arguments splice_put : simpl never.
Local Arguments findIndex : simpl never.
Local Arguments at_index : simpl never.
Local Arguments addToHistory : simpl never.

Lemma request_accepted (song : Track) (b : App) :
  truthy (id song) = true →
  playAudioAndUpdateUI (Some song) (latestPlayRequestToken b) b
  = spawn (AwaitStream song (latestPlayRequestToken b)) (set_isSongLoading true b).
Proof.
  intros Hid. unfold playAudioAndUpdateUI. rewrite Hid, Z.eqb_refl. reflexivity.
Qed.

(** X11. [playSong(song, collection)] for a track of the collection, when the
    player is not paused on a loaded source: the queue becomes the track
    list, the cursor is on a track with the id of [song] and the token
    advances by one.  When [renderQueue()] returns, the stream of the
    track under the cursor is requested under the new token; when it
    throws, nothing is requested. *)
Theorem collection_track_is_requested (song : Track) (p : Playlist) (a : App) :
  song ∈ tracklist_of p →
  truthy (id song) = true →
  truthy (src (audioPlayer a)) && paused (audioPlayer a) = false →
  let a' := playSong (Some song) (Some p) a in
  ∃ current,
    getCurrentItem (queueManager a') = Some current
    ∧ id current = id song
    ∧ songQueue (queueManager a') = tracklist_of p
    ∧ latestPlayRequestToken a' = latestPlayRequestToken a + 1
    ∧ (renderQueue (queueManager a') = true →
       pending a'
       = <[nextTaskId a := AwaitStream current (latestPlayRequestToken a + 1)]>
           (pending a)
       ∧ isSongLoading a' = true)
    ∧ (renderQueue (queueManager a') = false →
       pending a' = pending a
       ∧ isSongLoading a' = isSongLoading a
       ∧ notifications a' = notifications a).
Proof.
  intros Hin Hid Hidle a'. unfold a', playSong. rewrite Hid. cbn [negb].
  assert ((match getCurrentItem (queueManager a) with
           | Some currentItem =>
               truthy (src (audioPlayer a))
               && bool_decide (id song = id currentItem)
               && paused (audioPlayer a)
           | None => false
           end) = false) as ->.
  { destruct (getCurrentItem _); [|reflexivity].
    apply andb_false_iff in Hidle as [-> | ->]; [reflexivity|].
    now rewrite andb_false_r. }
  cbv zeta.
  destruct (CurrentTrackFacts.setSongForPlayback_in_collection song p
              (queueManager a) Hin) as [Hq Hcur].
  change (queueManager (with_queueManager (setSongForPlayback song (Some p)) (next_token a)))
    with (setSongForPlayback song (Some p) (queueManager a)).
  destruct (getCurrentItem (setSongForPlayback song (Some p) (queueManager a)))
    as [current|] eqn:Ecur; [|discriminate].
  simpl in Hcur. injection Hcur as Hcur.
  exists current.
  destruct (renderQueue (setSongForPlayback song (Some p) (queueManager a))) eqn:Er.
  - match goal with
    | |- context [playAudioAndUpdateUI _ ?t ?b] =>
        change t with (latestPlayRequestToken b)
    end.
    rewrite request_accepted by congruence.
    cbn [spawn set_isSongLoading with_queueManager next_token set_token queueManager
         latestPlayRequestToken pending isSongLoading nextTaskId].
    rewrite Ecur, Er. repeat split; try reflexivity; try exact Hcur; discriminate.
  - cbn [with_queueManager next_token set_token queueManager
         latestPlayRequestToken pending isSongLoading nextTaskId notifications].
    rewrite Ecur, Er. repeat split; try reflexivity; try exact Hcur; discriminate.
Qed.

Lemma playSong_first_track (song : Track) (b : App) :
  truthy (id song) = true →
  songQueue (queueManager b) = [song] →
  currentSongIndex (queueManager b) = -1 →
  renderQueue (queueManager b) = true →
  playSong (Some song) None b
  = spawn (AwaitStream song (latestPlayRequestToken b + 1))
      (set_isSongLoading true
         (with_queueManager (set_currentSongIndex 0) (next_token b))).
Proof.
  intros Hid Hq Hc Hr. unfold playSong. rewrite Hid. cbn [negb].
  assert (getCurrentItem (queueManager b) = None) as ->
    by (unfold getCurrentItem; now rewrite Hc).
  cbv zeta.
  assert (with_queueManager (setSongForPlayback song None) (next_token b)
          = with_queueManager (set_currentSongIndex 0) (next_token b)) as ->.
  { unfold with_queueManager. f_equal.
    change (queueManager (next_token b)) with (queueManager b).
    unfold setSongForPlayback. rewrite Hq.
    assert (findIndex (same_id (id song)) [song] = 0) as ->.
    { unfold findIndex. simpl. unfold same_id.
      rewrite decide_True by (now apply bool_decide_eq_true). reflexivity. }
    reflexivity. }
  assert (renderQueue
            (queueManager (with_queueManager (set_currentSongIndex 0) (next_token b)))
          = true) as -> by exact Hr.
  assert (getCurrentItem
            (queueManager (with_queueManager (set_currentSongIndex 0) (next_token b)))
          = Some song) as ->.
  { unfold getCurrentItem. simpl. now rewrite Hq. }
  match goal with
  | |- context [playAudioAndUpdateUI _ ?t ?c] =>
      change t with (latestPlayRequestToken c)
  end.
  now rewrite request_accepted.
Qed.

(** X12. [addSongToQueue(song)] appends [song].  When [renderQueue()] throws,
    that is all.  When it returns, a toast is shown, and playback starts
    when the queue was empty, nothing was selected and [song] has an
    id; in every other case cursor, token, pending calls, loading
    indicator and audio element stay as they were. *)
Theorem queueing_starts_playback_only_when_idle (song : Track) (a : App) :
  let m := queueManager a in
  let pushed := with_queueManager (λ m, set_songQueue (songQueue m ++ [song]) m) a in
  let a' := addSongToQueue song a in
  songQueue (queueManager a') = songQueue m ++ [song]
  ∧ (renderQueue (queueManager pushed) = false → a' = pushed)
  ∧ (renderQueue (queueManager pushed) = true →
     notifications a' = ("Added to queue", "info") :: notifications a
     ∧ (songQueue m = [] ∧ currentSongIndex m = -1 ∧ truthy (id song) = true →
          currentSongIndex (queueManager a') = 0
          ∧ latestPlayRequestToken a' = latestPlayRequestToken a + 1
          ∧ pending a'
            = <[nextTaskId a := AwaitStream song (latestPlayRequestToken a + 1)]>
                (pending a)
          ∧ isSongLoading a' = true)
     ∧ (songQueue m ≠ [] ∨ currentSongIndex m ≠ -1 ∨ truthy (id song) = false →
          currentSongIndex (queueManager a') = currentSongIndex m
          ∧ latestPlayRequestToken a' = latestPlayRequestToken a
          ∧ pending a' = pending a
          ∧ isSongLoading a' = isSongLoading a
          ∧ audioPlayer a' = audioPlayer a)).
Proof.
  intros m pushed a'. unfold a', addSongToQueue. cbv zeta. fold pushed.
  destruct (renderQueue (queueManager pushed)) eqn:Er;
    [|split; [reflexivity | split; [reflexivity | discriminate]]].
  set (a1 := showNotification _ _ _).
  change (queueManager a1) with (set_songQueue (songQueue m ++ [song]) m).
  change (songQueue (set_songQueue (songQueue m ++ [song]) m)) with (songQueue m ++ [song]).
  change (currentSongIndex (set_songQueue (songQueue m ++ [song]) m))
    with (currentSongIndex m).
  destruct ((currentSongIndex m =? -1) && (length (songQueue m ++ [song]) =? 1)%nat) eqn:E.
  - apply andb_true_iff in E as [Ec El].
    apply Z.eqb_eq in Ec. apply Nat.eqb_eq in El.
    rewrite length_app in El. simpl in El.
    assert (songQueue m = []) as Hq by (destruct (songQueue m); [reflexivity | simpl in El; lia]).
    rewrite Hq. cbn [app head].
    destruct (truthy (id song)) eqn:Hid.
    + rewrite playSong_first_track;
        [| exact Hid | unfold a1, pushed; simpl; fold m; now rewrite Hq | exact Ec
         | exact Er].
      unfold a1, pushed. simpl. fold m. rewrite Hq.
      repeat split; try reflexivity; intuition congruence.
    + unfold playSong. rewrite Hid. unfold a1, pushed. simpl. fold m. rewrite Hq.
      repeat split; try reflexivity; intuition congruence.
  - assert (¬ (songQueue m = [] ∧ currentSongIndex m = -1)) as Hbusy.
    { intros [Hq Hc]. rewrite Hq, Hc in E. discriminate. }
    simpl. repeat split; try reflexivity; intuition congruence.
Qed.

(** X13. After [addSongToPlayNext(song)], [next()] makes [song] the current
    track and requests its stream; the recommendations are not touched. *)
Theorem play_next_is_played_next (song : Track) (a : App) :
  cursor_ok (queueManager a) →
  truthy (id song) = true →
  ∃ a', run [AddSongToPlayNext song; Next] a = Some a'
        ∧ getCurrentItem (queueManager a') = Some song
        ∧ currentSongIndex (queueManager a') = currentSongIndex (queueManager a) + 1
        ∧ length (songQueue (queueManager a')) = S (length (songQueue (queueManager a)))
        ∧ upNextSongs (queueManager a') = upNextSongs (queueManager a)
        ∧ pending a' !! nextTaskId a
          = Some (AwaitStream song (latestPlayRequestToken a + 1)).
Proof.
  intros Hok Hid. eexists. split; [reflexivity|].
  set (m := queueManager a) in *.
  assert (0 ≤ currentSongIndex m + 1 ≤ Z.of_nat (length (songQueue m))) as Hr
    by (unfold cursor_ok in Hok; lia).
  assert (∃ b, addSongToPlayNext song a = b
               ∧ queueManager b
                 = set_songQueue
                     (splice_put (currentSongIndex m + 1) song (songQueue m)) m
               ∧ latestPlayRequestToken b = latestPlayRequestToken a
               ∧ pending b = pending a
               ∧ nextTaskId b = nextTaskId a) as (b & -> & Hbq & Hbt & Hbp & Hbn).
  { eexists. split; [reflexivity|]. unfold addSongToPlayNext. cbv zeta.
    now destruct (renderQueue _). }
  unfold playNextOrUpNext. cbv zeta.
  change (queueManager (next_token b)) with (queueManager b). rewrite Hbq.
  cbn [songQueue currentSongIndex set_songQueue].
  rewrite splice_put_length.
  replace (currentSongIndex m <? Z.of_nat (S (length (songQueue m))) - 1) with true
    by (symmetry; apply Z.ltb_lt; lia).
  rewrite (splice_put_lookup _ _ _ Hr).
  match goal with
  | |- context [playAudioAndUpdateUI _ ?t ?b] =>
      change t with (latestPlayRequestToken b)
  end.
  rewrite request_accepted by exact Hid.
  simpl. rewrite Hbq, Hbt, Hbp, Hbn. simpl. rewrite splice_put_length.
  repeat split; try reflexivity.
  - unfold getCurrentItem. simpl. now apply splice_put_lookup.
  - apply lookup_insert_eq.
Qed.

(** X14. With the cursor past the first track, [previous()] followed by
    [next()] restores the queue manager and advances the token by two;
    [previous()] late in the track changes nothing. *)
Theorem next_undoes_previous (a : App) :
  let m := queueManager a in
  0 < currentSongIndex m < Z.of_nat (length (songQueue m)) →
  let a' := playNextOrUpNext (previous false a) in
  queueManager a' = m
  ∧ latestPlayRequestToken a' = latestPlayRequestToken a + 2
  ∧ previous true a = a.
Proof.
  intros m Hc a'. unfold a'.
  assert (queueManager (previous false a)
          = set_currentSongIndex (currentSongIndex m - 1) m
          ∧ latestPlayRequestToken (previous false a) = latestPlayRequestToken a + 1)
    as [Hq Ht].
  { unfold previous. cbv zeta. fold m.
    replace (length (songQueue m) =? 0)%nat with false
      by (symmetry; apply Nat.eqb_neq; lia).
    replace (0 <? currentSongIndex m) with true by (symmetry; apply Z.ltb_lt; lia).
    rewrite playAudioAndUpdateUI_queueManager.
    split; [reflexivity|].
    unfold playAudioAndUpdateUI. repeat match goal with
      | |- context [match ?c with _ => _ end] => destruct c
      end; reflexivity. }
  split; [|split].
  - unfold playNextOrUpNext. cbv zeta.
    change (queueManager (next_token (previous false a)))
      with (queueManager (previous false a)).
    rewrite Hq. cbn [songQueue currentSongIndex set_currentSongIndex].
    replace (currentSongIndex m - 1 <? Z.of_nat (length (songQueue m)) - 1) with true
      by (symmetry; apply Z.ltb_lt; lia).
    rewrite playAudioAndUpdateUI_queueManager. simpl. rewrite Hq. simpl.
    replace (currentSongIndex m - 1 + 1) with (currentSongIndex m) by lia.
    now destruct m.
  - unfold playNextOrUpNext. cbv zeta.
    repeat match goal with
      | |- context [match ?c with _ => _ end] => destruct c
      end; unfold playAudioAndUpdateUI;
      repeat match goal with
      | |- context [match ?c with _ => _ end] => destruct c
      end; simpl; lia.
  - unfold previous. cbv zeta. now destruct (_ =? _)%nat.
Qed.

(** X15. When [audioPlayer.play()] has succeeded for a track whose [artists]
    is a non-empty string, [join] throws: the title is updated, but the
    artist line, the history, the prefetch cache and the
    recommendations are not, nothing is awaited, the audio goes on, and
    an error is shown. *)
Theorem bare_artist_string_stops_the_update (song : Track) (name : string)
    (k : nat) (token : Z) (a : App) :
  pending a !! k = Some (AwaitPlay song token) →
  artists song = ArtistScalar (SStr name) →
  name ≠ "" →
  ∃ a', step (Settle k (PlaySettled (Fulfilled ()))) a = Some a'
        ∧ currentSongTitle (nowPlaying a') = title song
        ∧ currentSongArtist (nowPlaying a') = currentSongArtist (nowPlaying a)
        ∧ nowPlayingShown (nowPlaying a') = nowPlayingShown (nowPlaying a)
        ∧ queueManager a' = queueManager a
        ∧ pending a' = delete k (pending a)
        ∧ audioPlayer a' = audioPlayer a
        ∧ isSongLoading a' = false
        ∧ ∃ message, notifications a' = (message, "error") :: notifications a.
Proof.
  intros Hk Hart Hname. simpl. rewrite Hk. simpl.
  unfold playAudio_afterPlay. rewrite Hart. simpl.
  apply HistoryFacts.truthy_nonempty in Hname. rewrite Hname.
  eexists. split; [reflexivity|]. simpl. repeat split. eauto.
Qed.

(** X16. A track that [fetchUpNext] has put into the buffer has an [artists]
    array: once it plays, the player bar shows its title and its artists
    and no error is shown. *)
Theorem recommended_track_is_shown (o : UpNextsReply) (a b : App) (t : Track) :
  t ∈ upNextSongs (queueManager (fetchUpNext_resume (Fulfilled o) a)) →
  let b' := playAudio_afterPlay t (Fulfilled ()) b in
  notifications b' = notifications b
  ∧ nowPlayingShown (nowPlaying b') = true
  ∧ currentSongTitle (nowPlaying b') = title t
  ∧ ∃ names, artists t = ArtistArray names
             ∧ currentSongArtist (nowPlaying b')
               = String.concat ", " (map scalar_text names).
Proof.
  intros Hin b'.
  assert (is_array (artists t) = true) as Harr.
  { unfold fetchUpNext_resume in Hin. simpl in Hin.
    apply list_elem_of_fmap in Hin as (s & -> & _).
    apply RecommendationFacts.normalize_is_array. }
  destruct (artists t) as [v|names] eqn:Ea; [discriminate|].
  unfold b', playAudio_afterPlay. rewrite Ea. simpl.
  unfold on_exit, fetchUpNext, prefetchNext. cbv zeta.
  repeat match goal with
         | |- context [match ?c with _ => _ end] => destruct c
         end; simpl; repeat split; eauto.
Qed.

End ControlFacts.

(** ** Escaping *)

Module MarkupFacts.
Import Js Markup.

Lemma append_cons (a : ascii) (x y : string) :
  String a x +:+ y = String a (x +:+ y).
Proof. reflexivity. Qed.

Lemma append_nil (y : string) : EmptyString +:+ y = y.
Proof. reflexivity. Qed.

Lemma append_assoc (x y z : string) : (x +:+ y) +:+ z = x +:+ (y +:+ z).
Proof.
  induction x as [|a x IH]; [reflexivity|].
  rewrite !append_cons. now f_equal.
Qed.

Lemma replace_all_app (c : ascii) (by_ x y : string) :
  replace_all c by_ (x +:+ y) = replace_all c by_ x +:+ replace_all c by_ y.
Proof.
  induction x as [|a x IH]; [reflexivity|].
  rewrite append_cons. cbn [replace_all]. rewrite IH.
  destruct (Ascii.eqb a c); [|reflexivity].
  now rewrite append_assoc.
Qed.

Lemma escapeHTML_app (x y : string) :
  escapeHTML (VString (x +:+ y)) = escapeHTML (VString x) +:+ escapeHTML (VString y).
Proof. unfold escapeHTML. now rewrite !replace_all_app. Qed.

Lemma escapeHTML_char (c : ascii) :
  escapeHTML (VString (String c EmptyString)) = entity c.
Proof.
  unfold escapeHTML, entity. cbn [replace_all].
  destruct (Ascii.eqb_spec c "&") as [->|H1]; [reflexivity|].
  cbn [replace_all].
  destruct (Ascii.eqb_spec c "<") as [->|H2]; [reflexivity|].
  cbn [replace_all].
  destruct (Ascii.eqb_spec c ">") as [->|H3]; [reflexivity|].
  cbn [replace_all].
  destruct (Ascii.eqb_spec c dquote) as [->|H4]; [reflexivity|].
  cbn [replace_all].
  destruct (Ascii.eqb_spec c "'") as [->|H5]; reflexivity.
Qed.

Lemma escapeHTML_each (s : string) : escapeHTML (VString s) = escape_each s.
Proof.
  induction s as [|c s IH]; [reflexivity|].
  change (String c s) with (String c EmptyString +:+ s).
  rewrite escapeHTML_app, escapeHTML_char, IH. reflexivity.
Qed.

Lemma list_ascii_app (x y : string) :
  list_ascii_of_string (x +:+ y) = list_ascii_of_string x ++ list_ascii_of_string y.
Proof.
  induction x as [|a x IH]; [reflexivity|].
  rewrite append_cons. simpl. now rewrite IH.
Qed.

Lemma entity_cases (c : ascii) :
  (c = "&"%char ∧ entity c = "&amp;")
  ∨ (c = "<"%char ∧ entity c = "&lt;")
  ∨ (c = ">"%char ∧ entity c = "&gt;")
  ∨ (c = dquote ∧ entity c = "&quot;")
  ∨ (c = "'"%char ∧ entity c = "&#039;")
  ∨ ((c ∉ "&"%char :: markup) ∧ entity c = String c EmptyString).
Proof.
  unfold entity.
  destruct (Ascii.eqb_spec c "&") as [->|H1]; [auto|].
  destruct (Ascii.eqb_spec c "<") as [->|H2]; [auto|].
  destruct (Ascii.eqb_spec c ">") as [->|H3]; [auto 6|].
  destruct (Ascii.eqb_spec c dquote) as [->|H4]; [auto 6|].
  destruct (Ascii.eqb_spec c "'") as [->|H5]; [auto 7|].
  do 5 right. split; [|reflexivity].
  unfold markup. rewrite !not_elem_of_cons.
  repeat split; try assumption. apply not_elem_of_nil.
Qed.

Lemma entity_no_markup (c : ascii) :
  Forall (λ x, x ∉ markup) (list_ascii_of_string (entity c)).
Proof.
  destruct (entity_cases c) as [[_ ->]|[[_ ->]|[[_ ->]|[[_ ->]|[[_ ->]|[H ->]]]]]];
    simpl; repeat constructor;
    try (apply not_elem_of_cons in H as [_ H]; exact H);
    unfold markup; rewrite !not_elem_of_cons;
    repeat split; try discriminate; apply not_elem_of_nil.
Qed.

(** X17. [escapeHTML(str)] holds no [<], [>], double quote or apostrophe;
    on a string the five replacements, made one after the other, amount
    to replacing every character once; on any other value the result is
    the empty string. *)
Theorem escapeHTML_leaves_no_markup (str : Value) :
  Forall (λ c, c ∉ markup) (list_ascii_of_string (escapeHTML str))
  ∧ match str with
    | VString s => escapeHTML str = escape_each s
    | _ => escapeHTML str = ""
    end.
Proof.
  split.
  - destruct str as [| | | |s|]; try constructor.
    rewrite escapeHTML_each.
    induction s as [|c s IH]; [constructor|].
    cbn [escape_each]. rewrite list_ascii_app. apply Forall_app.
    split; [apply entity_no_markup | exact IH].
  - destruct str; try reflexivity. apply escapeHTML_each.
Qed.

Lemma escape_each_starts (c : ascii) (s : string) :
  ∃ x r, escape_each (String c s) = String x r.
Proof.
  cbn [escape_each].
  destruct (entity_cases c) as [[_ ->]|[[_ ->]|[[_ ->]|[[_ ->]|[[_ ->]|[_ ->]]]]]];
    rewrite append_cons; eauto.
Qed.

Lemma escape_each_inj (s s' : string) : escape_each s = escape_each s' → s = s'.
Proof.
  revert s'.
  induction s as [|c s IH]; intros [|c' s'] H.
  - reflexivity.
  - destruct (escape_each_starts c' s') as (x & r & E). rewrite E in H. discriminate.
  - destruct (escape_each_starts c s) as (x & r & E). rewrite E in H. discriminate.
  - cbn [escape_each] in H.
    destruct (entity_cases c) as [[-> Ec]|[[-> Ec]|[[-> Ec]|[[-> Ec]|[[-> Ec]|[Hc Ec]]]]]];
    destruct (entity_cases c') as [[-> Ec']|[[-> Ec']|[[-> Ec']|[[-> Ec']|[[-> Ec']|[Hc' Ec']]]]]];
    rewrite ?Ec, ?Ec' in H; rewrite ?append_cons, ?append_nil in H;
    try discriminate;
    try (injection H as H; f_equal; now apply IH);
    try (injection H as -> H; f_equal; now apply IH);
    try (injection H as H _; exfalso; subst;
         first [apply Hc | apply Hc']; left).
Qed.

(** X18. Two strings have the same escaped text exactly when they are equal. *)
Theorem escapeHTML_loses_nothing (s s' : string) :
  escapeHTML (VString s) = escapeHTML (VString s') ↔ s = s'.
Proof.
  split; [|now intros ->].
  rewrite !escapeHTML_each. apply escape_each_inj.
Qed.

End MarkupFacts.

(** ** Text and the main process *)

Module TextFacts.
Import Text.

Section Units.
Context {C : Type} (space : C → bool).

Lemma trimStart_drop (s : list C) :
  ∃ n, trimStart space s = drop n s.
Proof.
  induction s as [|c r [n IH]]; [now exists 0%nat|].
  simpl. destruct (space c); [now exists (S n) | now exists 0%nat].
Qed.

Lemma trimEnd_take (s : list C) :
  ∃ n, trimEnd space s = take n s.
Proof.
  induction s as [|c r [n IH]]; [now exists 0%nat|].
  simpl. destruct (trimEnd space r) as [|x r'] eqn:E.
  - destruct (space c); [now exists 0%nat|]. exists 1%nat. simpl. now rewrite take_0.
  - exists (S n). simpl. now rewrite <- IH.
Qed.

Lemma trim_window (s : list C) :
  ∃ n k, trim space s = take k (drop n s).
Proof.
  unfold trim. destruct (trimStart_drop s) as [n ->].
  destruct (trimEnd_take (drop n s)) as [k ->]. eauto.
Qed.

Lemma trimStart_head (s : list C) (c : C) :
  head (trimStart space s) = Some c → space c = false.
Proof.
  induction s as [|x r IH]; [discriminate|].
  simpl. destruct (space x) eqn:E; [exact IH|].
  simpl. intros [= <-]. exact E.
Qed.

Lemma trimEnd_head (s : list C) :
  trimEnd space s = [] ∨ head (trimEnd space s) = head s.
Proof.
  destruct s as [|c r]; [now left|].
  simpl. destruct (trimEnd space r); [|now right].
  destruct (space c); [now left | now right].
Qed.

Lemma trimEnd_last (s : list C) (c : C) :
  last (trimEnd space s) = Some c → space c = false.
Proof.
  induction s as [|x r IH]; [discriminate|].
  simpl. destruct (trimEnd space r) as [|y r'] eqn:E.
  - destruct (space x) eqn:Ex; [discriminate|]. simpl. intros [= <-]. exact Ex.
  - intros H. apply IH. rewrite <- H. reflexivity.
Qed.

Lemma trim_head (s : list C) (c : C) :
  head (trim space s) = Some c → space c = false.
Proof.
  unfold trim. intros H.
  destruct (trimEnd_head (trimStart space s)) as [E|E].
  - rewrite E in H. discriminate.
  - rewrite E in H. eapply trimStart_head, H.
Qed.

Lemma trim_last (s : list C) (c : C) :
  last (trim space s) = Some c → space c = false.
Proof. apply trimEnd_last. Qed.

Lemma trim_length (s : list C) : (length (trim space s) ≤ length s)%nat.
Proof.
  destruct (trim_window s) as (n & k & ->).
  rewrite length_take, length_drop. lia.
Qed.

Lemma trim_Forall (P : C → Prop) (s : list C) :
  Forall P s → Forall P (trim space s).
Proof.
  intros H. destruct (trim_window s) as (n & k & ->).
  now apply Forall_take, Forall_drop.
Qed.

Lemma replace_runs_length (by_ : C) (in_run : bool) (s : list C) :
  (length (replace_runs space by_ in_run s) ≤ length s)%nat.
Proof.
  revert in_run. induction s as [|c r IH]; intros in_run; [reflexivity|].
  simpl. destruct (space c); [destruct in_run|]; simpl;
    match goal with |- context [replace_runs space by_ ?b r] => specialize (IH b) end;
    lia.
Qed.

Lemma replace_runs_Forall (P : C → Prop) (by_ : C) (in_run : bool) (s : list C) :
  P by_ →
  Forall (λ c, space c = false → P c) s →
  Forall P (replace_runs space by_ in_run s).
Proof.
  intros Hby. revert in_run.
  induction s as [|c r IH]; intros in_run H; [constructor|].
  apply Forall_cons in H as [Hc Hr]. simpl.
  destruct (space c) eqn:E; [destruct in_run|]; auto.
Qed.

Lemma single_cons (by_ c : C) (s : list C) :
  (c = by_ → head s ≠ Some by_) → single by_ s → single by_ (c :: s).
Proof.
  intros Hc Hs [|i] [H1 H2]; simpl in *.
  - injection H1 as ->. apply Hc; [reflexivity|].
    destruct s; [discriminate | exact H2].
  - apply (Hs i). auto.
Qed.

Lemma single_window (by_ : C) (s : list C) (n k : nat) :
  single by_ s → single by_ (take k (drop n s)).
Proof.
  intros Hs i [H1 H2].
  apply lookup_take_Some in H1 as [H1 _]. apply lookup_take_Some in H2 as [H2 _].
  rewrite lookup_drop in H1, H2.
  apply (Hs (n + i)%nat). split; [exact H1|].
  now replace (S (n + i)) with (n + S i)%nat by lia.
Qed.

Lemma replace_runs_single (by_ : C) (in_run : bool) (s : list C) :
  space by_ = true →
  single by_ (replace_runs space by_ in_run s)
  ∧ (in_run = true → head (replace_runs space by_ in_run s) ≠ Some by_).
Proof.
  intros Hby. revert in_run.
  induction s as [|c r IH]; intros in_run.
  - split; [intros i [H _]; discriminate | discriminate].
  - simpl. destruct (space c) eqn:E; [destruct in_run|].
    + apply IH.
    + destruct (IH true) as [Hs Hh]. split; [|discriminate].
      apply single_cons; auto.
    + destruct (IH false) as [Hs _]. split.
      * apply single_cons; [|exact Hs]. intros ->. congruence.
      * intros _. simpl. intros [= ->]. congruence.
Qed.
End Units.

End TextFacts.

Module MainFacts.
Import Js Player Props Text Main TextFacts.

Local Arguments getArtistNames : simpl never.

(** *** Formatting *)

Lemma truthy_scalar_str (v : Scalar) :
  truthy_scalar v = true → ∃ s, v = SStr s ∧ truthy s = true.
Proof. destruct v; try discriminate. eauto. Qed.

Lemma getArtistNames_names (item : option Item) :
  ∃ names, getArtistNames item = map SStr names
           ∧ Forall (λ n, truthy n = true) names.
Proof.
  destruct item as [it|]; [|exists []; split; [reflexivity | constructor]].
  unfold getArtistNames.
  assert (∀ o : option Named,
            match o with Some x => truthy_scalar (name_of x) | None => false end = true →
            ∃ names, [default SUndefined (name_of <$> o)] = map SStr names
                     ∧ Forall (λ n, truthy n = true) names) as Hone.
  { intros [x|] H; [|discriminate].
    apply truthy_scalar_str in H as (s & Hs & Ht).
    exists [s]. simpl. rewrite Hs. split; [reflexivity | now repeat constructor]. }
  destruct (match item_artist it with
            | Some x => truthy_scalar (name_of x) | None => false end) eqn:Ea;
    [now apply Hone|].
  assert (∀ l : list Named,
            ∃ names, filter (λ v, truthy_scalar v = true) (map name_of l) = map SStr names
                     ∧ Forall (λ n, truthy n = true) names) as Hmany.
  { induction l as [|x l (names & IH & Hall)].
    - exists []. split; [reflexivity | constructor].
    - cbn [map]. rewrite filter_cons.
      destruct (decide (truthy_scalar (name_of x) = true)) as [H|H]; [|eauto].
      apply truthy_scalar_str in H as (s & -> & Ht).
      exists (s :: names). rewrite IH. split; [reflexivity | now constructor]. }
  destruct (item_artists it) as [[|x l]|].
  - destruct (match item_author it with
              | Some x => truthy_scalar (name_of x) | None => false end) eqn:Eb;
      [now apply Hone | exists []; split; [reflexivity | constructor]].
  - apply Hmany.
  - destruct (match item_author it with
              | Some x => truthy_scalar (name_of x) | None => false end) eqn:Eb;
      [now apply Hone | exists []; split; [reflexivity | constructor]].
Qed.

(** X19. Every song of [items.map(formatSong).filter(Boolean)] has an id, a
    title and an [artists] array of non-empty names, which the renderer
    joins without an exception. *)
Theorem formatted_songs_are_playable (items : list (option Item)) :
  Forall (λ t,
            truthy (id t) = true
            ∧ truthy (title t) = true
            ∧ ∃ names, artists t = ArtistArray (map SStr names)
                       ∧ Forall (λ n, truthy n = true) names
                       ∧ artists_text (artists t) = Some (String.concat ", " names))
         (formatSongs items).
Proof.
  apply Forall_forall. intros t Hin.
  apply list_elem_of_omap in Hin as (item & _ & Hf).
  unfold formatSong in Hf. destruct item as [it|]; [|discriminate].
  destruct (truthy_scalar (item_videoId it)) eqn:Ev; [|discriminate].
  destruct (truthy_scalar (item_name it)) eqn:En; [|discriminate].
  injection Hf as <-. cbn [id title artists].
  apply truthy_scalar_str in Ev as (v & -> & Hv).
  apply truthy_scalar_str in En as (n & -> & Hn).
  split; [exact Hv|]. split; [exact Hn|].
  destruct (getArtistNames_names (Some it)) as (names & -> & Hall).
  exists names. repeat split; [exact Hall|].
  cbn [artists_text]. do 2 f_equal.
  clear. induction names as [|x l IH]; [reflexivity|]. simpl. now rewrite IH.
Qed.

(** *** Stream URLs *)

Lemma valid_id_is_truthy (s : string) :
  Preload.isValidVideoId (VString s) = true → truthy s = true.
Proof.
  simpl. intros H. apply andb_true_iff in H as [H _].
  destruct s; [discriminate | reflexivity].
Qed.

Lemma resolveAudioStream_outcome (songId : string) (exec : ExecResult) :
  let url := match exec with ExecOutput out => trim_string out | ExecError => "" end in
  ∃ r, resolveAudioStream songId exec = Fulfilled r
       ∧ if Preload.isValidVideoId (VString songId) && truthy url
         then r = Some url
         else no_url r = true.
Proof.
  intros url. unfold resolveAudioStream, Preload.getAudioStream.
  destruct (Preload.isValidVideoId (VString songId)) eqn:Ev.
  - cbn [head default Datatypes.id]. unfold getAudioStreamHandler.
    cbn [truthy_value]. rewrite (valid_id_is_truthy _ Ev). cbn [negb andb].
    destruct exec as [|out]; [exists None; split; reflexivity|].
    exists (Some (trim_string out)). split; [reflexivity|].
    unfold url. destruct (truthy (trim_string out)) eqn:Et; [reflexivity|].
    simpl. now rewrite Et.
  - exists None. split; reflexivity.
Qed.

(** X20. A stream request settled through the preload script and the handler
    of [get-audio-stream], whatever [yt-dlp] did: a stale request
    changes nothing but the loading indicator; the current one plays
    the trimmed output when the id is well-formed and the output is not
    blank, and otherwise shows one error and leaves the audio element
    untouched. *)
Theorem stream_outcome_reaches_the_player (a : App) (k : nat) (song : Track)
    (token : Z) (exec : ExecResult) :
  pending a !! k = Some (AwaitStream song token) →
  let url := match exec with ExecOutput out => trim_string out | ExecError => "" end in
  ∃ a', step (Settle k (StreamSettled (resolveAudioStream (id song) exec))) a = Some a'
        ∧ nowPlaying a' = nowPlaying a
        ∧ if negb (token =? latestPlayRequestToken a) then
            audioPlayer a' = audioPlayer a
            ∧ notifications a' = notifications a
            ∧ queueManager a' = queueManager a
            ∧ isSongLoading a' = false
          else if Preload.isValidVideoId (VString (id song)) && truthy url then
            audioPlayer a' = mkAudio url false
            ∧ notifications a' = notifications a
            ∧ pending a' !! nextTaskId a = Some (AwaitPlay song token)
            ∧ isSongLoading a' = isSongLoading a
          else
            audioPlayer a' = audioPlayer a
            ∧ notifications a'
              = ("Could not fetch stream URL", "error") :: notifications a
            ∧ queueManager a' = queueManager a
            ∧ isSongLoading a' = false.
Proof.
  intros Hk url.
  destruct (resolveAudioStream_outcome (id song) exec) as (r & -> & Hr).
  fold url in Hr.
  cbn [step]. rewrite Hk. cbn [mbind option_bind resume].
  eexists. split; [reflexivity|].
  unfold playAudio_afterStream.
  change (latestPlayRequestToken (retire k a)) with (latestPlayRequestToken a).
  destruct (negb (token =? latestPlayRequestToken a)); [now repeat split|].
  destruct (Preload.isValidVideoId (VString (id song)) && truthy url) eqn:Eok.
  - subst r. apply andb_true_iff in Eok as [_ Hu].
    cbn [no_url]. rewrite Hu. cbn [negb default].
    repeat split. simpl. apply lookup_insert_eq.
  - rewrite Hr. now repeat split.
Qed.

(** A failed resolution is received as a call that returned nothing:
    the handler has no [reject], and the preload script answers an id
    it refuses with [null]. *)
Lemma received_failure_is_empty (o : Outcome (option string)) :
  received_failure o → ∃ url, o = Fulfilled url ∧ no_url url = true.
Proof.
  intros [H|(songId & exec & Hf & ->)]; [exact H|].
  destruct (resolveAudioStream_outcome songId exec) as (r & Hr & Hc).
  exists r. split; [exact Hr|].
  unfold resolution_fails in Hf.
  destruct (Preload.isValidVideoId (VString songId)); [|exact Hc].
  destruct exec as [|out]; [exact Hc|].
  cbn [negb orb] in Hf. apply negb_true_iff in Hf.
  rewrite Hf in Hc. exact Hc.
Qed.

(** C9. When the stream of a pending request is not obtained (the call
    returns nothing, as it does when the preload script refuses the id
    or [yt-dlp] fails or prints nothing), the audio element, the player
    bar, the queue manager and the token are left as they were and the
    loading indicator goes off; the toast [Could not fetch stream URL]
    is shown, once, when the token of the request is the current one,
    and no toast is shown when it is not. *)
Theorem failed_resolution_is_shown_or_dropped (a : App) (k : nat) (song : Track)
    (token : Z) (o : Outcome (option string)) :
  pending a !! k = Some (AwaitStream song token) →
  received_failure o →
  ∃ a', step (Settle k (StreamSettled o)) a = Some a'
        ∧ audioPlayer a' = audioPlayer a
        ∧ nowPlaying a' = nowPlaying a
        ∧ queueManager a' = queueManager a
        ∧ latestPlayRequestToken a' = latestPlayRequestToken a
        ∧ pending a' = delete k (pending a)
        ∧ isSongLoading a' = false
        ∧ (token = latestPlayRequestToken a →
           notifications a'
           = ("Could not fetch stream URL", "error") :: notifications a)
        ∧ (token ≠ latestPlayRequestToken a →
           notifications a' = notifications a).
Proof.
  intros Hk Hfail.
  destruct (received_failure_is_empty o Hfail) as (url & -> & Hurl).
  cbn [step]. rewrite Hk. cbn [mbind option_bind resume].
  eexists. split; [reflexivity|].
  unfold playAudio_afterStream.
  change (latestPlayRequestToken (retire k a)) with (latestPlayRequestToken a).
  destruct (token =? latestPlayRequestToken a) eqn:Et; cbn [negb].
  - apply Z.eqb_eq in Et. rewrite Hurl. repeat split; congruence.
  - apply Z.eqb_neq in Et. repeat split; congruence.
Qed.

(** *** The default path *)

Lemma is_space_32 : is_space 32 = true.
Proof. reflexivity. Qed.

(** X21. The stem of the default path of a download holds none of the
    reserved characters; its only white space is the space, never two in
    a row, none at either end; and it is no longer than the name given. *)
Theorem default_path_is_clean (filename : list N) :
  let stem := defaultStem filename in
  defaultPath filename = stem ++ [46; 109; 112; 51]%N
  ∧ Forall (λ c, (c ∉ reserved) ∧ (is_space c = true → c = 32%N)) stem
  ∧ (∀ i, ¬ (stem !! i = Some 32%N ∧ stem !! S i = Some 32%N))
  ∧ head stem ≠ Some 32%N
  ∧ last stem ≠ Some 32%N
  ∧ (length stem ≤ length filename)%nat.
Proof.
  intros stem. split; [reflexivity|].
  unfold stem, defaultStem. repeat split.
  - apply trim_Forall, replace_runs_Forall.
    + split; [|reflexivity]. unfold reserved. rewrite !not_elem_of_cons.
      repeat split; try discriminate. apply not_elem_of_nil.
    + unfold replace_reserved. apply Forall_forall. intros c Hin Hc.
      split; [|congruence].
      apply list_elem_of_fmap in Hin as (x & -> & _).
      case_bool_decide as Hx; [|exact Hx].
      unfold reserved. rewrite !not_elem_of_cons.
      repeat split; try discriminate. apply not_elem_of_nil.
  - destruct (trim_window is_space
                (replace_runs is_space 32%N false (replace_reserved filename)))
      as (n & k & ->).
    apply single_window, replace_runs_single, is_space_32.
  - intros H. apply trim_head in H. discriminate.
  - intros H. apply trim_last in H. discriminate.
  - etransitivity; [apply trim_length|].
    etransitivity; [apply replace_runs_length|].
    unfold replace_reserved. now rewrite length_map.
Qed.

End MainFacts.

(** ** Favourites, playlists, recently played *)

Module LibraryFacts.
Import Js Player Props Markup Library JsFacts QueueFacts.

Local Arguments splice_drop1 : simpl never.
Local Arguments findIndex : simpl never.
Local Arguments at_index : simpl never.
Local Arguments some_with_id : simpl never.

Lemma some_with_id_true (songId : string) (arr : list Track) :
  some_with_id songId arr = true ↔ songId ∈ map id arr.
Proof.
  unfold some_with_id. rewrite existsb_exists. split.
  - intros (s & Hin & Hs). apply same_id_true in Hs as <-.
    apply list_elem_of_fmap. exists s. split; [reflexivity|].
    now apply list_elem_of_In.
  - intros Hin. apply list_elem_of_fmap in Hin as (s & -> & Hin).
    exists s. split; [now apply list_elem_of_In | now apply same_id_true].
Qed.

Lemma some_with_id_false (songId : string) (arr : list Track) :
  some_with_id songId arr = false ↔ songId ∉ map id arr.
Proof.
  rewrite <- some_with_id_true. destruct (some_with_id songId arr); split; congruence.
Qed.

Lemma findIndex_absent (songId : string) (arr : list Track) :
  findIndex (same_id songId) arr = -1 ↔ songId ∉ map id arr.
Proof.
  split.
  - intros E Hin. apply list_elem_of_fmap in Hin as (s & -> & Hin).
    destruct (findIndex_exists (same_id (id s)) arr s Hin) as (y & Hy & _).
    { now apply same_id_true. }
    rewrite E in Hy. discriminate.
  - intros Hnot. apply findIndex_none, Forall_forall. intros s Hin.
    destruct (same_id songId s) eqn:E; [|reflexivity].
    apply same_id_true in E. exfalso. apply Hnot.
    apply list_elem_of_fmap. eauto.
Qed.

Lemma NoDup_ids_delete (i : nat) (arr : list Track) :
  NoDup (map id arr) → NoDup (map id (delete i arr)).
Proof.
  intros H. eapply sublist_NoDup; [exact H|].
  change (map id) with (fmap (M := list) id).
  apply fmap_sublist, sublist_delete.
Qed.

(** Writing a list of songs to storage keeps their ids. *)
Lemma stored_ids (arr : list Track) : map id (stored_song <$> arr) = map id arr.
Proof. induction arr as [|x arr IH]; [reflexivity|]. simpl. now f_equal. Qed.

Lemma toggleLikeSong_app (s : Library * App) :
  queueManager (snd (toggleLikeSong s)) = queueManager (snd s).
Proof.
  destruct s as [l a]. unfold toggleLikeSong.
  destruct (getCurrentItem _); [|reflexivity].
  now destruct (-1 <? _).
Qed.

(** X22. [addSongToFavorites] and [toggleLikeSong] keep the favourites free
    of duplicate ids; after [toggleLikeSong] with a current track the
    like button is marked exactly when a favourite has the id of the
    current track, and storage holds the favourites as
    [JSON.stringify] writes them, with the same ids in the same order. *)
Theorem favourites_stay_distinct (song : option Track) (l : Library) (a : App) :
  NoDup (map id (likedSongs l)) →
  let l1 := fst (addSongToFavorites song (l, a)) in
  let l2 := fst (toggleLikeSong (l, a)) in
  NoDup (map id (likedSongs l1))
  ∧ NoDup (map id (likedSongs l2))
  ∧ ∀ currentSong,
      getCurrentItem (queueManager a) = Some currentSong →
      (likeBtnLiked l2 = true ↔ id currentSong ∈ map id (likedSongs l2))
      ∧ storedLikedSongs l2 = stored_song <$> likedSongs l2
      ∧ map id (storedLikedSongs l2) = map id (likedSongs l2).
Proof.
  intros Hnd l1 l2. split; [|split].
  - unfold l1, addSongToFavorites.
    destruct song as [song|]; [|exact Hnd].
    destruct (negb (truthy (id song))); [exact Hnd|].
    destruct (some_with_id (id song) (likedSongs l)) eqn:E; [exact Hnd|].
    apply some_with_id_false in E. simpl. now constructor.
  - unfold l2, toggleLikeSong.
    destruct (getCurrentItem (queueManager a)) as [cur|]; [|exact Hnd].
    cbv zeta.
    destruct (-1 <? findIndex (same_id (id cur)) (likedSongs l)) eqn:E.
    + apply Z.ltb_lt in E. simpl.
      destruct (findIndex_range (same_id (id cur)) (likedSongs l)) as [H|H]; [lia|].
      rewrite splice_drop1_in_range by exact H. now apply NoDup_ids_delete.
    + apply Z.ltb_ge in E. simpl.
      destruct (findIndex_range (same_id (id cur)) (likedSongs l)) as [H|H]; [|lia].
      apply findIndex_absent in H. now constructor.
  - intros cur Hcur.
    assert (storedLikedSongs l2 = stored_song <$> likedSongs l2) as Hsaved.
    { unfold l2, toggleLikeSong. rewrite Hcur. cbv zeta. now destruct (-1 <? _). }
    split; [|split; [exact Hsaved|]].
    + unfold l2, toggleLikeSong. rewrite Hcur. cbv zeta.
      destruct (-1 <? _); simpl; rewrite Hcur; apply some_with_id_true.
    + rewrite Hsaved. apply stored_ids.
Qed.

(** X23. When the current track is not a favourite, [toggleLikeSong] puts it
    first and marks the button, and a second [toggleLikeSong] restores
    the favourites and unmarks the button; storage then holds the
    original favourites as [JSON.stringify] writes them. *)
Theorem toggling_twice_restores_favourites (l : Library) (a : App) (cur : Track) :
  getCurrentItem (queueManager a) = Some cur →
  id cur ∉ map id (likedSongs l) →
  let s1 := toggleLikeSong (l, a) in
  let s2 := toggleLikeSong s1 in
  likedSongs (fst s1) = cur :: likedSongs l
  ∧ likeBtnLiked (fst s1) = true
  ∧ likedSongs (fst s2) = likedSongs l
  ∧ likeBtnLiked (fst s2) = false
  ∧ storedLikedSongs (fst s2) = stored_song <$> likedSongs l
  ∧ queueManager (snd s2) = queueManager a.
Proof.
  intros Hcur Hnot s1 s2.
  assert (s1 = (updateLikeButtonState
                  (saveLikedSongs (set_likedSongs (cur :: likedSongs l) l))
                  (showNotification "Added to Favorites" "success" a),
                showNotification "Added to Favorites" "success" a)) as E1.
  { unfold s1, toggleLikeSong. rewrite Hcur. cbv zeta.
    apply findIndex_absent in Hnot. rewrite Hnot. reflexivity. }
  assert (findIndex (same_id (id cur)) (cur :: likedSongs l) = 0) as E0.
  { unfold findIndex. simpl. unfold same_id.
    rewrite decide_True by (now apply bool_decide_eq_true). reflexivity. }
  assert (some_with_id (id cur) (cur :: likedSongs l) = true) as Ein.
  { apply some_with_id_true. simpl. left. }
  assert (some_with_id (id cur) (likedSongs l) = false) as Eout
    by (now apply some_with_id_false).
  unfold s2. rewrite E1. unfold toggleLikeSong.
  cbn [fst snd queueManager showNotification updateLikeButtonState saveLikedSongs
       set_likedSongs set_likeBtnLiked likedSongs likeBtnLiked storedLikedSongs].
  rewrite Hcur. cbv zeta. cbn [likedSongs]. rewrite E0, Ein.
  cbn [Z.ltb Z.compare fst snd queueManager showNotification updateLikeButtonState
       saveLikedSongs set_likedSongs set_likeBtnLiked likedSongs likeBtnLiked
       storedLikedSongs].
  rewrite Hcur.
  assert (splice_drop1 0 (cur :: likedSongs l) = likedSongs l) as ->
    by (rewrite splice_drop1_in_range by (simpl; lia); reflexivity).
  rewrite Eout. now repeat split.
Qed.

(** X24. [updateRecentlyPlayed(song)] puts [song], as [JSON.stringify] writes
    it, first, keeps the order of the other entries and drops those
    with its id; a list without duplicate ids stays so, and a list of
    at most 50 entries stays so. *)
Theorem recently_played_is_bounded_and_distinct (song : Track) (l : Library) :
  let r := recentlyPlayed l in
  let r' := recentlyPlayed (updateRecentlyPlayed song l) in
  head r' = Some (stored_song song)
  ∧ r' `sublist_of` stored_song song :: filter (λ item, id item ≠ id song) r
  ∧ (NoDup (map id r) → NoDup (map id r'))
  ∧ ((length r ≤ 50)%nat → (length r' ≤ 50)%nat)
  ∧ ((length r < 50)%nat →
     r' = stored_song song :: filter (λ item, id item ≠ id song) r).
Proof.
  intros r r'. unfold r', updateRecentlyPlayed. cbv zeta. fold r.
  cbn [recentlyPlayed set_recentlyPlayed].
  set (f := filter (λ item, id item ≠ id song) r).
  assert (length f ≤ length r)%nat as Hlen by apply length_filter.
  assert (NoDup (map id r) → NoDup (map id (stored_song song :: f))) as Hnd.
  { intros H. simpl. constructor.
    - intros Hin. apply list_elem_of_fmap in Hin as (s & Hs & Hin).
      apply list_elem_of_filter in Hin as [Hne _]. congruence.
    - eapply sublist_NoDup; [exact H|].
      change (map id) with (fmap (M := list) id).
      apply fmap_sublist, sublist_filter. }
  destruct (50 <? length (stored_song song :: f))%nat eqn:E.
  - apply Nat.ltb_lt in E. simpl in E.
    unfold pop. rewrite removelast_firstn_len.
    change (firstn ?n ?x) with (take n x).
    repeat split.
    + destruct f; simpl in E; [lia | reflexivity].
    + apply sublist_take.
    + intros H. eapply sublist_NoDup; [exact (Hnd H)|].
      change (map id) with (fmap (M := list) id). apply fmap_sublist, sublist_take.
    + intros H. rewrite length_take. simpl. lia.
    + intros H. lia.
  - apply Nat.ltb_ge in E. simpl in E. repeat split; auto; simpl; lia.
Qed.

Lemma push_song_lookup (i j : nat) (song : Track) (ps : list UserPlaylist) :
  push_song i song ps !! j
  = if decide (i = j)
    then (λ p, mkUserPlaylist (pl_id p) (pl_name p) (pl_songs p ++ [song])) <$> ps !! j
    else ps !! j.
Proof.
  unfold push_song. destruct (decide (i = j)) as [->|Hne].
  - apply list_lookup_alter_eq.
  - now apply list_lookup_alter_ne.
Qed.

(** X25. [addSongToPlaylist] keeps every playlist free of duplicate ids and
    the playlists in place; it changes at most the first playlist with
    the given id, by appending [song], as [JSON.stringify] writes it,
    when its id is not in it yet. *)
Theorem adding_to_a_playlist_keeps_it_distinct (playlistId : string)
    (song : option Track) (l : Library) (a : App) :
  let ps := userPlaylists l in
  let ps' := userPlaylists (fst (addSongToPlaylist playlistId song (l, a))) in
  (Forall (λ p, NoDup (map id (pl_songs p))) ps →
   Forall (λ p, NoDup (map id (pl_songs p))) ps')
  ∧ map pl_id ps' = map pl_id ps
  ∧ ∀ i p, ps !! i = Some p →
      ps' !! i = Some p
      ∨ ∃ t, song = Some t
             ∧ pl_id p = playlistId
             ∧ (∀ j q, (j < i)%nat → ps !! j = Some q → pl_id q ≠ playlistId)
             ∧ (id t ∉ map id (pl_songs p))
             ∧ ps' !! i
               = Some (mkUserPlaylist (pl_id p) (pl_name p)
                         (pl_songs p ++ [stored_song t])).
Proof.
  intros ps ps'. unfold ps', addSongToPlaylist. cbv zeta.
  destruct song as [song|]; [|now repeat split; auto].
  destruct (negb (truthy (id song))); [now repeat split; auto|].
  fold ps.
  destruct (list_find (λ p, pl_id p = playlistId) ps) as [[i0 p0]|] eqn:Ef;
    [|now repeat split; auto].
  apply list_find_Some in Ef as (Hi0 & Hp0 & Hfirst).
  destruct (some_with_id (id song) (pl_songs p0)) eqn:Es; [now repeat split; auto|].
  apply some_with_id_false in Es.
  cbn [fst userPlaylists set_userPlaylists]. repeat split.
  - intros Hall. apply Forall_lookup. intros j q Hq.
    rewrite push_song_lookup in Hq. destruct (decide (i0 = j)) as [<-|Hne].
    + rewrite Hi0 in Hq. injection Hq as <-. simpl.
      rewrite map_app. simpl. apply NoDup_app. repeat split.
      * eapply Forall_lookup_1 in Hall; [|exact Hi0]. exact Hall.
      * intros x Hx Hx'. apply list_elem_of_singleton in Hx'. now subst x.
      * apply NoDup_singleton.
    + eapply Forall_lookup_1 in Hall; [|exact Hq]. exact Hall.
  - apply list_eq. intros j. rewrite !list_lookup_fmap, push_song_lookup.
    destruct (decide (i0 = j)) as [<-|Hne]; [|reflexivity].
    rewrite Hi0. reflexivity.
  - intros i p Hp. rewrite push_song_lookup.
    destruct (decide (i0 = i)) as [<-|Hne]; [|now left].
    right. rewrite Hi0 in Hp. injection Hp as <-.
    exists song. repeat split; auto.
    + intros j q Hj Hq. eapply Hfirst; eauto.
    + now rewrite Hi0.
Qed.

End LibraryFacts.

(** ** The navigation history *)

Module NavigationFacts.
Import Js Navigation JsFacts.

Local Arguments at_index : simpl never.

Lemma slice0_in_range {A} (arr : list A) (i : Z) :
  0 ≤ i ≤ Z.of_nat (length arr) → slice0 i arr = take (Z.to_nat i) arr.
Proof. intros H. unfold slice0. now rewrite rel_index_in_range. Qed.

Lemma pushState_recorded (state : State) (n : Nav) :
  isNavigatingHistory n = false →
  -1 ≤ historyIndex n < Z.of_nat (length (historyStack n)) →
  historyStack (pushState state n)
    = take (Z.to_nat (historyIndex n + 1)) (historyStack n) ++ [state]
  ∧ historyIndex (pushState state n) = historyIndex n + 1
  ∧ Z.of_nat (length (historyStack (pushState state n))) = historyIndex n + 2.
Proof.
  intros Hflag Hr. unfold pushState. rewrite Hflag. cbv zeta.
  destruct (historyIndex n <? Z.of_nat (length (historyStack n)) - 1) eqn:E.
  - apply Z.ltb_lt in E. rewrite slice0_in_range by lia.
    cbn [historyStack historyIndex updateNavButtons].
    repeat split. rewrite length_app, length_take. simpl. lia.
  - apply Z.ltb_ge in E. cbn [historyStack historyIndex updateNavButtons].
    rewrite take_ge by lia. repeat split. rewrite length_app. simpl. lia.
Qed.

Lemma pushState_nav_ok (state : State) (n : Nav) :
  nav_ok n → nav_ok (pushState state n).
Proof.
  intros Hok. destruct (isNavigatingHistory n) eqn:Hflag.
  - unfold pushState. now rewrite Hflag.
  - destruct Hok as (Hr & _ & _ & _).
    destruct (pushState_recorded state n Hflag) as (Hs & Hi & Hl); [lia|].
    assert (isNavigatingHistory (pushState state n) = false) as Hf'
      by (unfold pushState; rewrite Hflag; cbv zeta; destruct (_ <? _); reflexivity).
    unfold nav_ok. rewrite Hf'. repeat split; try lia; try discriminate;
      unfold pushState; rewrite Hflag; reflexivity.
Qed.

Lemma goBack_nav_ok (n : Nav) : nav_ok n → nav_ok (goBack n).
Proof.
  intros Hok. unfold goBack.
  destruct (0 <? historyIndex n) eqn:E; [|exact Hok].
  apply Z.ltb_lt in E. destruct Hok as (Hr & _ & _ & Hl). cbv zeta.
  cbn [historyStack historyIndex set_historyIndex].
  destruct (at_index (historyStack n) (historyIndex n - 1)) as [s|] eqn:Es.
  - unfold nav_ok. simpl. repeat split; lia.
  - exfalso. assert (is_Some (at_index (historyStack n) (historyIndex n - 1))) as [x Hx]
      by (apply at_index_is_Some; lia).
    congruence.
Qed.

Lemma goForward_nav_ok (n : Nav) : nav_ok n → nav_ok (goForward n).
Proof.
  intros Hok. unfold goForward.
  destruct (historyIndex n <? Z.of_nat (length (historyStack n)) - 1) eqn:E;
    [|exact Hok].
  apply Z.ltb_lt in E. destruct Hok as (Hr & _ & _ & Hl). cbv zeta.
  cbn [historyStack historyIndex set_historyIndex].
  destruct (at_index (historyStack n) (historyIndex n + 1)) as [s|] eqn:Es.
  - unfold nav_ok. simpl. repeat split; lia.
  - exfalso. assert (is_Some (at_index (historyStack n) (historyIndex n + 1))) as [x Hx]
      by (apply at_index_is_Some; lia).
    congruence.
Qed.

Lemma step_nav_ok (e : Event) (n n' : Nav) :
  step e n = Some n' → nav_ok n → nav_ok n'.
Proof.
  intros Hstep Hok. destruct e; simpl in Hstep.
  - injection Hstep as <-. now apply pushState_nav_ok.
  - injection Hstep as <-. now apply goBack_nav_ok.
  - injection Hstep as <-. now apply goForward_nav_ok.
  - destruct (0 <? loading n)%nat; [|discriminate]. injection Hstep as <-.
    destruct Hok as (Hr & Hb & Hf & _). unfold nav_ok. simpl.
    repeat split; try lia; try assumption; discriminate.
Qed.

(** X26. After [initialize()] and any sequence of navigations, presses of the
    two buttons and loads that complete: [historyIndex] is on an entry
    of [historyStack], the buttons are disabled exactly at the two ends,
    and [isNavigatingHistory] is set only while a [loadState] waits for
    its loader. *)
Theorem history_index_stays_on_an_entry (backDisabled forwardDisabled : bool)
    (es : list Event) (n : Nav) :
  run es (initialize (blank backDisabled forwardDisabled)) = Some n →
  (∃ state, at_index (historyStack n) (historyIndex n) = Some state)
  ∧ navBackDisabled n = (historyIndex n <=? 0)
  ∧ navForwardDisabled n = (Z.of_nat (length (historyStack n)) - 1 <=? historyIndex n)
  ∧ (isNavigatingHistory n = true → (0 < loading n)%nat).
Proof.
  assert (∀ es n0 n, run es n0 = Some n → nav_ok n0 → nav_ok n) as Hrun.
  { clear. induction es as [|e es IH]; intros n0 n Hr H; simpl in Hr.
    - now injection Hr as <-.
    - destruct (step e n0) as [n1|] eqn:E; [|discriminate]. simpl in Hr.
      eapply IH; [exact Hr|]. eapply step_nav_ok; eauto. }
  intros Hr.
  assert (nav_ok (initialize (blank backDisabled forwardDisabled))) as H0.
  { unfold nav_ok. simpl. repeat split; try lia; discriminate. }
  destruct (Hrun es _ n Hr H0) as (Hi & Hb & Hf & Hl).
  split; [|auto]. apply at_index_is_Some. exact Hi.
Qed.

(** X27. [goBack] then [goForward], and [goForward] then [goBack], leave the
    stack and the index as they were; at the first entry [goBack]
    changes nothing, and at the last one [goForward] changes nothing. *)
Theorem back_and_forward_undo_each_other (n : Nav) :
  (0 < historyIndex n < Z.of_nat (length (historyStack n)) →
     historyStack (goForward (goBack n)) = historyStack n
     ∧ historyIndex (goForward (goBack n)) = historyIndex n
     ∧ historyIndex (goBack n) = historyIndex n - 1)
  ∧ (0 ≤ historyIndex n < Z.of_nat (length (historyStack n)) - 1 →
       historyStack (goBack (goForward n)) = historyStack n
       ∧ historyIndex (goBack (goForward n)) = historyIndex n
       ∧ historyIndex (goForward n) = historyIndex n + 1)
  ∧ (historyIndex n ≤ 0 → goBack n = n)
  ∧ (Z.of_nat (length (historyStack n)) - 1 ≤ historyIndex n → goForward n = n).
Proof.
  assert (∀ (o : option State) m,
            historyStack (updateNavButtons (loadState o m)) = historyStack m
            ∧ historyIndex (updateNavButtons (loadState o m)) = historyIndex m) as Hload
    by (intros [s|] m; now split).
  assert (∀ m, 0 < historyIndex m →
            historyStack (goBack m) = historyStack m
            ∧ historyIndex (goBack m) = historyIndex m - 1) as Hback.
  { intros m H. unfold goBack.
    replace (0 <? historyIndex m) with true by (symmetry; apply Z.ltb_lt; lia).
    cbv zeta. destruct (Hload (at_index (historyStack (set_historyIndex (historyIndex m - 1) m))
                                 (historyIndex (set_historyIndex (historyIndex m - 1) m)))
                              (set_historyIndex (historyIndex m - 1) m)) as [-> ->].
    now split. }
  assert (∀ m, historyIndex m < Z.of_nat (length (historyStack m)) - 1 →
            historyStack (goForward m) = historyStack m
            ∧ historyIndex (goForward m) = historyIndex m + 1) as Hfwd.
  { intros m H. unfold goForward.
    replace (historyIndex m <? Z.of_nat (length (historyStack m)) - 1) with true
      by (symmetry; apply Z.ltb_lt; lia).
    cbv zeta. destruct (Hload (at_index (historyStack (set_historyIndex (historyIndex m + 1) m))
                                 (historyIndex (set_historyIndex (historyIndex m + 1) m)))
                              (set_historyIndex (historyIndex m + 1) m)) as [-> ->].
    now split. }
  repeat apply conj.
  - intros H. destruct (Hback n) as [Hs Hi]; [lia|].
    destruct (Hfwd (goBack n)) as [Hs' Hi']; [rewrite Hs, Hi; lia|].
    rewrite Hs', Hi', Hs, Hi. repeat split. lia.
  - intros H. destruct (Hfwd n) as [Hs Hi]; [lia|].
    destruct (Hback (goForward n)) as [Hs' Hi']; [rewrite Hi; lia|].
    rewrite Hs', Hi', Hs, Hi. repeat split. lia.
  - intros H. unfold goBack.
    now replace (0 <? historyIndex n) with false by (symmetry; apply Z.ltb_ge; lia).
  - intros H. unfold goForward.
    now replace (historyIndex n <? Z.of_nat (length (historyStack n)) - 1) with false
      by (symmetry; apply Z.ltb_ge; lia).
Qed.

(** X28. [pushState(state)] changes nothing while [isNavigatingHistory] is
    set; otherwise it drops the entries after the current one, appends
    [state], and moves the index onto it, with the forward button
    disabled. *)
Theorem navigation_drops_the_forward_entries (state : State) (n : Nav) :
  -1 ≤ historyIndex n < Z.of_nat (length (historyStack n)) →
  let n' := pushState state n in
  if isNavigatingHistory n then n' = n
  else
    historyStack n' = take (Z.to_nat (historyIndex n + 1)) (historyStack n) ++ [state]
    ∧ historyIndex n' = historyIndex n + 1
    ∧ at_index (historyStack n') (historyIndex n') = Some state
    ∧ navForwardDisabled n' = true
    ∧ navBackDisabled n' = (historyIndex n <? 0).
Proof.
  intros Hr n'. destruct (isNavigatingHistory n) eqn:Hflag.
  - unfold n', pushState. now rewrite Hflag.
  - destruct (pushState_recorded state n Hflag Hr) as (Hs & Hi & Hl).
    fold n' in Hs, Hi, Hl.
    assert (navForwardDisabled n'
            = (Z.of_nat (length (historyStack n')) - 1 <=? historyIndex n')
            ∧ navBackDisabled n' = (historyIndex n' <=? 0)) as [Hf Hb]
      by (unfold n', pushState; rewrite Hflag; now split).
    repeat split; try assumption.
    + rewrite Hs, Hi. apply at_index_Some. split; [lia|].
      rewrite lookup_app_r by (rewrite length_take; lia).
      rewrite length_take.
      replace (Z.to_nat (historyIndex n + 1)
               - Z.to_nat (historyIndex n + 1) `min` length (historyStack n))%nat
        with 0%nat by lia.
      reflexivity.
    + rewrite Hf. apply Z.leb_le. lia.
    + rewrite Hb, Hi. destruct (historyIndex n <? 0) eqn:E.
      * apply Z.ltb_lt in E. apply Z.leb_le. lia.
      * apply Z.ltb_ge in E. apply Z.leb_gt. lia.
Qed.

End NavigationFacts.

(** ** The video overlay *)

Module VideoFacts.
Import Js Player Video.

Lemma pause_then_play (a : App) :
  paused (audioPlayer a) = false →
  audioPlayer (audio_play (audio_pause a)) = audioPlayer a.
Proof. intros H. simpl. destruct (audioPlayer a). simpl in *. now subst. Qed.

(** X29. [playVideo] pauses the audio, and [hideVideoPlayer], whether the
    stream call has not settled, has resolved or was rejected, leaves
    the audio element as it was before, and the overlay hidden and
    reset; while the video is shown [togglePlayPause] changes nothing. *)
Theorem closing_the_video_gives_the_audio_back (video : Track) (o : Overlay) (a : App)
    (settled : option (Outcome (option string))) :
  isVideoLoading o = false →
  let s1 := playVideo video (o, a) in
  let s2 := match settled with Some r => playVideo_resume r s1 | None => s1 end in
  let s3 := hideVideoPlayer s2 in
  paused (audioPlayer (snd s1)) = true
  ∧ audioPlayer (snd s3) = audioPlayer a
  ∧ queueManager (snd s3) = queueManager a
  ∧ isVideoLoading (fst s3) = false
  ∧ wasAudioPlayingBeforeVideo (fst s3) = false
  ∧ visible (fst s3) = false
  ∧ videoSrc (fst s3) = ""
  ∧ ∀ url, truthy url = true →
      let shown := playVideo_resume (Fulfilled (Some url)) s1 in
      visible (fst shown) = true ∧ togglePlayPause shown = shown.
Proof.
  intros Hidle s1 s2 s3. unfold s3, s2, s1, playVideo. rewrite Hidle. cbv zeta.
  assert (∀ b w url, truthy url = true →
            let shown :=
              playVideo_resume (Fulfilled (Some url))
                (mkOverlay true w (isClosingVideoPlayer o) (videoSrc o) (videoPaused o)
                           (visible o) (cancelled o) (S (awaited o)), b) in
            visible (fst shown) = true ∧ togglePlayPause shown = shown) as Hshown.
  { intros b w url Hurl. simpl. rewrite Hurl. simpl. now split. }
  destruct (paused (audioPlayer a)) eqn:Hp; cbn [negb].
  - destruct settled as [[[url|]|message]|]; simpl;
      try destruct (truthy url); simpl; rewrite ?Hp; repeat split;
      try apply Hshown; assumption.
  - pose proof (pause_then_play a Hp) as Hback. simpl in Hback.
    destruct settled as [[[url|]|message]|]; simpl;
      try destruct (truthy url); simpl; rewrite ?Hback; repeat split;
      try apply Hshown; assumption.
Qed.

(** X30. A video URL that arrives after the overlay was closed is ignored,
    and closing sends one [cancelVideoStream]; but when another video
    was requested in between, the late URL of the first is the one
    shown. *)
Theorem late_video_url_is_ignored (video : Track) (o : Overlay) (a : App)
    (url : string) :
  isVideoLoading o = false →
  truthy url = true →
  let s := hideVideoPlayer (playVideo video (o, a)) in
  let s' := playVideo_resume (Fulfilled (Some url)) s in
  cancelled (fst s) = S (cancelled o)
  ∧ snd s' = snd s
  ∧ visible (fst s') = false
  ∧ videoSrc (fst s') = ""
  ∧ awaited (fst s') = awaited o
  ∧ ∀ other,
      let t := playVideo_resume (Fulfilled (Some url)) (playVideo other s) in
      visible (fst t) = true ∧ videoSrc (fst t) = url ∧ awaited (fst t) = S (awaited o).
Proof.
  intros Hidle Hurl s s'. unfold s', s, playVideo. rewrite Hidle. cbv zeta.
  simpl. rewrite Hurl. simpl. repeat split.
Qed.

End VideoFacts.

(** ** Examples *)

Module Examples.
Import Js Player Props Session Samples.

(** X1 for the queue A, B with A current and the stream of B resolving. *)
Lemma prefetch_round_trip_witness :
  ∃ a', step (Settle (nextTaskId playing_A_prefetched_B)
                (PrefetchSettled (Fulfilled (Some cachedB))))
          (prefetchNext playing_A_prefetched_B) = Some a'
        ∧ ∀ songId,
            getPrefetchedUrl songId (queueManager a')
            = if bool_decide (songId = id songB) then Some cachedB else None.
Proof.
  apply (PlaybackFacts.prefetch_round_trip playing_A_prefetched_B songB
           (Fulfilled (Some cachedB))).
  reflexivity.
Defined.

(** X2 for X and the queue A, B. *)
Lemma bare_track_becomes_current_witness :
  let m := queueManager on_last_track in
  let m' := setSongForPlayback songX None m in
  id <$> getCurrentItem m' = Some (id songX)
  ∧ ((∃ s, s ∈ songQueue m ∧ id s = id songX) → songQueue m' = songQueue m)
  ∧ ((∀ s, s ∈ songQueue m → id s ≠ id songX) →
       getCurrentItem m' = Some songX
       ∧ currentSongIndex m' = currentSongIndex m + 1
       ∧ songQueue m'
         = take (Z.to_nat (currentSongIndex m + 1)) (songQueue m)
           ++ songX :: drop (Z.to_nat (currentSongIndex m + 1)) (songQueue m)).
Proof.
  apply (PlaybackFacts.bare_track_becomes_current songX (queueManager on_last_track)).
  right. vm_compute. split; [discriminate | reflexivity].
Defined.

(** X3 for the removal of A while B is current. *)
Lemma removing_another_track_keeps_current_witness :
  let m := queueManager on_last_track in
  let a' := removeItem 0 on_last_track in
  getCurrentItem (queueManager a') = getCurrentItem m
  ∧ latestPlayRequestToken a' = latestPlayRequestToken on_last_track
  ∧ pending a' = pending on_last_track
  ∧ audioPlayer a' = audioPlayer on_last_track
  ∧ (0 ≤ 0 < Z.of_nat (length (songQueue m)) →
       songQueue (queueManager a') = delete (Z.to_nat 0) (songQueue m))
  ∧ (¬ 0 ≤ 0 < Z.of_nat (length (songQueue m)) → a' = on_last_track).
Proof.
  apply (PlaybackFacts.removing_another_track_keeps_current 0 on_last_track).
  - right. vm_compute. split; [discriminate | reflexivity].
  - vm_compute. discriminate.
Defined.

(** X5 on the last track of the queue A, B. *)
Lemma skipping_past_the_end_witness :
  let a' := playNextOrUpNext on_last_track in
  queueManager a' = queueManager on_last_track
  ∧ audioPlayer a' = mkAudio (src (audioPlayer on_last_track)) true
  ∧ latestPlayRequestToken a' = latestPlayRequestToken on_last_track + 1
  ∧ pending a' = pending on_last_track
  ∧ ∀ k song token,
      pending on_last_track !! k = Some (AwaitStream song token) →
      token ≤ latestPlayRequestToken on_last_track →
      stale_handle a' k = true.
Proof.
  apply (PlaybackFacts.skipping_past_the_end on_last_track); reflexivity.
Defined.

(** X6 for [next()] in the initial state. *)
Lemma token_only_grows_witness :
  latestPlayRequestToken initial
    ≤ latestPlayRequestToken (playNextOrUpNext initial)
    ≤ latestPlayRequestToken initial + 1.
Proof.
  apply (RequestFacts.token_only_grows Next initial (playNextOrUpNext initial)).
  reflexivity.
Defined.

(** X7 for the two requests issued back to back. *)
Lemma reachable_requests_hold_distinct_tokens_witness :
  1 ≤ latestPlayRequestToken two_requests
  ∧ (1 = 2 → 0%nat = 1%nat)
  ∧ (0%nat ≠ 1%nat →
     stale_handle two_requests 0 = true ∨ stale_handle two_requests 1 = true).
Proof.
  apply (RequestFacts.reachable_requests_hold_distinct_tokens
           [PlaySong (Some songA) None; PlaySong (Some songB) None]
           two_requests 0 1 songA songB 1 2); reflexivity.
Defined.

(** X8 for the request of A. *)
Lemma current_request_plays_witness :
  ∃ a', run [ Settle 0 (StreamSettled (Fulfilled (Some urlA)));
              Settle (nextTaskId requested_A) (PlaySettled (Fulfilled ())) ]
          requested_A = Some a'
        ∧ audioPlayer a' = mkAudio urlA false
        ∧ currentSongTitle (nowPlaying a') = title songA
        ∧ currentSongArtist (nowPlaying a') = "Ann"
        ∧ nowPlayingShown (nowPlaying a') = true
        ∧ head (playedHistory (queueManager a')) = Some (id songA)
        ∧ prefetchedUrl (queueManager a') = None
        ∧ songQueue (queueManager a') = songQueue (queueManager requested_A)
        ∧ currentSongIndex (queueManager a')
          = currentSongIndex (queueManager requested_A)
        ∧ isSongLoading a' = false
        ∧ notifications a' = notifications requested_A.
Proof.
  apply (RequestFacts.current_request_plays requested_A 0 songA urlA "Ann");
    reflexivity.
Defined.

(** X9 for the session of two requests. *)
Lemma session_history_is_bounded_and_distinct_witness :
  let h := playedHistory (queueManager after_late_stream_of_A) in
  (length h ≤ 50)%nat ∧ NoDup h ∧ "" ∉ h.
Proof.
  apply (SessionFacts.session_history_is_bounded_and_distinct session_AB
           after_late_stream_of_A).
  vm_compute. reflexivity.
Defined.

(** X10 right after A was requested. *)
Lemma loading_indicator_has_a_suspended_request_witness :
  ∃ k song token,
    pending requested_A !! k = Some (AwaitStream song token)
    ∨ pending requested_A !! k = Some (AwaitPlay song token).
Proof.
  apply (SessionFacts.loading_indicator_has_a_suspended_request
           [PlaySong (Some songA) None] requested_A); reflexivity.
Defined.

(** X11 for B played from the album A, B. *)
Lemma collection_track_is_requested_witness :
  let a' := playSong (Some songB) (Some albumAB) initial in
  ∃ current,
    getCurrentItem (queueManager a') = Some current
    ∧ id current = id songB
    ∧ songQueue (queueManager a') = tracklist_of albumAB
    ∧ latestPlayRequestToken a' = latestPlayRequestToken initial + 1
    ∧ (renderQueue (queueManager a') = true →
       pending a'
       = <[nextTaskId initial
             := AwaitStream current (latestPlayRequestToken initial + 1)]>
           (pending initial)
       ∧ isSongLoading a' = true)
    ∧ (renderQueue (queueManager a') = false →
       pending a' = pending initial
       ∧ isSongLoading a' = isSongLoading initial
       ∧ notifications a' = notifications initial).
Proof.
  apply (ControlFacts.collection_track_is_requested songB albumAB initial).
  - right. left.
  - reflexivity.
  - reflexivity.
Defined.

(** X13 for X inserted while B, the last track, is current. *)
Lemma play_next_is_played_next_witness :
  ∃ a', run [AddSongToPlayNext songX; Next] on_last_track = Some a'
        ∧ getCurrentItem (queueManager a') = Some songX
        ∧ currentSongIndex (queueManager a')
          = currentSongIndex (queueManager on_last_track) + 1
        ∧ length (songQueue (queueManager a'))
          = S (length (songQueue (queueManager on_last_track)))
        ∧ upNextSongs (queueManager a') = upNextSongs (queueManager on_last_track)
        ∧ pending a' !! nextTaskId on_last_track
          = Some (AwaitStream songX (latestPlayRequestToken on_last_track + 1)).
Proof.
  apply (ControlFacts.play_next_is_played_next songX on_last_track).
  - right. vm_compute. split; [discriminate | reflexivity].
  - reflexivity.
Defined.

(** X14 on the second track of the queue A, B. *)
Lemma next_undoes_previous_witness :
  let a' := playNextOrUpNext (previous false on_last_track) in
  queueManager a' = queueManager on_last_track
  ∧ latestPlayRequestToken a' = latestPlayRequestToken on_last_track + 2
  ∧ previous true on_last_track = on_last_track.
Proof.
  apply (ControlFacts.next_undoes_previous on_last_track).
  vm_compute. split; reflexivity.
Defined.

(** X15 for X, whose [artists] is the string Xi. *)
Lemma bare_artist_string_stops_the_update_witness :
  ∃ a', step (Settle 1 (PlaySettled (Fulfilled ()))) starting_X = Some a'
        ∧ currentSongTitle (nowPlaying a') = title songX
        ∧ currentSongArtist (nowPlaying a') = currentSongArtist (nowPlaying starting_X)
        ∧ nowPlayingShown (nowPlaying a') = nowPlayingShown (nowPlaying starting_X)
        ∧ queueManager a' = queueManager starting_X
        ∧ pending a' = delete 1%nat (pending starting_X)
        ∧ audioPlayer a' = audioPlayer starting_X
        ∧ isSongLoading a' = false
        ∧ ∃ message, notifications a' = (message, "error") :: notifications starting_X.
Proof.
  apply (ControlFacts.bare_artist_string_stops_the_update songX "Xi" 1 1 starting_X).
  - reflexivity.
  - reflexivity.
  - discriminate.
Defined.

(** X16 for X as the one recommendation. *)
Lemma recommended_track_is_shown_witness :
  let b' := playAudio_afterPlay (normalize songX) (Fulfilled ()) initial in
  notifications b' = notifications initial
  ∧ nowPlayingShown (nowPlaying b') = true
  ∧ currentSongTitle (nowPlaying b') = title (normalize songX)
  ∧ ∃ names, artists (normalize songX) = ArtistArray names
             ∧ currentSongArtist (nowPlaying b')
               = String.concat ", " (map scalar_text names).
Proof.
  apply (ControlFacts.recommended_track_is_shown (ArrayOf [Some songX]) initial initial
           (normalize songX)).
  left.
Defined.

(** X20 for the request of A and the URL of A followed by a line feed. *)
Lemma stream_outcome_reaches_the_player_witness :
  let url := Text.trim_string printed_A in
  ∃ a', step (Settle 0 (StreamSettled (Main.resolveAudioStream (id songA)
                                         (Main.ExecOutput printed_A))))
          requested_A = Some a'
        ∧ nowPlaying a' = nowPlaying requested_A
        ∧ if negb (1 =? latestPlayRequestToken requested_A) then
            audioPlayer a' = audioPlayer requested_A
            ∧ notifications a' = notifications requested_A
            ∧ queueManager a' = queueManager requested_A
            ∧ isSongLoading a' = false
          else if Preload.isValidVideoId (VString (id songA)) && truthy url then
            audioPlayer a' = mkAudio url false
            ∧ notifications a' = notifications requested_A
            ∧ pending a' !! nextTaskId requested_A = Some (AwaitPlay songA 1)
            ∧ isSongLoading a' = isSongLoading requested_A
          else
            audioPlayer a' = audioPlayer requested_A
            ∧ notifications a'
              = ("Could not fetch stream URL", "error") :: notifications requested_A
            ∧ queueManager a' = queueManager requested_A
            ∧ isSongLoading a' = false.
Proof.
  apply (MainFacts.stream_outcome_reaches_the_player requested_A 0 songA 1
           (Main.ExecOutput printed_A)).
  reflexivity.
Defined.

(** C9 for the first of two requests, superseded by the second, when
    [yt-dlp] ends with an error. *)
Lemma failed_resolution_is_shown_or_dropped_witness :
  ∃ a', step (Settle 0 (StreamSettled
                          (Main.resolveAudioStream (id songA) Main.ExecError)))
          two_requests = Some a'
        ∧ audioPlayer a' = audioPlayer two_requests
        ∧ nowPlaying a' = nowPlaying two_requests
        ∧ queueManager a' = queueManager two_requests
        ∧ latestPlayRequestToken a' = latestPlayRequestToken two_requests
        ∧ pending a' = delete 0%nat (pending two_requests)
        ∧ isSongLoading a' = false
        ∧ (1 = latestPlayRequestToken two_requests →
           notifications a'
           = ("Could not fetch stream URL", "error") :: notifications two_requests)
        ∧ (1 ≠ latestPlayRequestToken two_requests →
           notifications a' = notifications two_requests).
Proof.
  apply (MainFacts.failed_resolution_is_shown_or_dropped two_requests 0 songA 1
           (Main.resolveAudioStream (id songA) Main.ExecError)).
  - reflexivity.
  - right. exists (id songA), Main.ExecError. split; reflexivity.
Defined.

(** The same failure for the request that is current: B's. *)
Lemma current_failure_scenario :
  let failure := Settle 1 (StreamSettled
                             (Main.resolveAudioStream (id songB) Main.ExecError)) in
  pending two_requests !! 1%nat = Some (AwaitStream songB 2)
  ∧ latestPlayRequestToken two_requests = 2
  ∧ (notifications <$> step failure two_requests)
    = Some [("Could not fetch stream URL", "error")]
  ∧ (audioPlayer <$> step failure two_requests) = Some (audioPlayer two_requests).
Proof. vm_compute. repeat split. Qed.

(** X, whose [artists] is a bare string, is queued while nothing
    plays: the queue list cannot be written, so there is no toast and
    X is not started; a later [next()] does request it. *)
Lemma queueing_a_bare_artist_track :
  let a := addSongToQueue songX initial in
  songQueue (queueManager a) = [songX]
  ∧ renderQueue (queueManager a) = false
  ∧ notifications a = []
  ∧ currentSongIndex (queueManager a) = -1
  ∧ latestPlayRequestToken a = 0
  ∧ pending a = ∅
  ∧ pending (playNextOrUpNext a) !! 0%nat = Some (AwaitStream songX 1)
  ∧ pending starting_X !! 1%nat = Some (AwaitPlay songX 1).
Proof. vm_compute. repeat split. Qed.

(** X22 for A added and B, the current track, toggled, with no favourites yet. *)
Lemma favourites_stay_distinct_witness :
  let l1 := fst (Library.addSongToFavorites (Some songA) (no_library, on_last_track)) in
  let l2 := fst (Library.toggleLikeSong (no_library, on_last_track)) in
  NoDup (map id (Library.likedSongs l1))
  ∧ NoDup (map id (Library.likedSongs l2))
  ∧ ∀ currentSong,
      getCurrentItem (queueManager on_last_track) = Some currentSong →
      (Library.likeBtnLiked l2 = true
       ↔ id currentSong ∈ map id (Library.likedSongs l2))
      ∧ Library.storedLikedSongs l2
        = Library.stored_song <$> Library.likedSongs l2
      ∧ map id (Library.storedLikedSongs l2) = map id (Library.likedSongs l2).
Proof.
  apply (LibraryFacts.favourites_stay_distinct (Some songA) no_library on_last_track).
  constructor.
Defined.

(** X23 for B as the current track and no favourites. *)
Lemma toggling_twice_restores_favourites_witness :
  let s1 := Library.toggleLikeSong (no_library, on_last_track) in
  let s2 := Library.toggleLikeSong s1 in
  Library.likedSongs (fst s1) = songB :: Library.likedSongs no_library
  ∧ Library.likeBtnLiked (fst s1) = true
  ∧ Library.likedSongs (fst s2) = Library.likedSongs no_library
  ∧ Library.likeBtnLiked (fst s2) = false
  ∧ Library.storedLikedSongs (fst s2)
    = Library.stored_song <$> Library.likedSongs no_library
  ∧ queueManager (snd s2) = queueManager on_last_track.
Proof.
  apply (LibraryFacts.toggling_twice_restores_favourites no_library on_last_track songB).
  - reflexivity.
  - apply not_elem_of_nil.
Defined.

(** X26 after a search and a step back. *)
Lemma history_index_stays_on_an_entry_witness :
  (∃ state, at_index (Navigation.historyStack after_back)
              (Navigation.historyIndex after_back) = Some state)
  ∧ Navigation.navBackDisabled after_back
    = (Navigation.historyIndex after_back <=? 0)
  ∧ Navigation.navForwardDisabled after_back
    = (Z.of_nat (length (Navigation.historyStack after_back)) - 1
       <=? Navigation.historyIndex after_back)
  ∧ (Navigation.isNavigatingHistory after_back = true →
     (0 < Navigation.loading after_back)%nat).
Proof.
  apply (NavigationFacts.history_index_stays_on_an_entry false false browsing after_back).
  reflexivity.
Defined.

(** X28 for a visit of the settings after a step back. *)
Lemma navigation_drops_the_forward_entries_witness :
  let n := Navigation.loadState_finally after_back in
  let n' := Navigation.pushState (Navigation.ViewState "settings") n in
  if Navigation.isNavigatingHistory n then n' = n
  else
    Navigation.historyStack n'
    = take (Z.to_nat (Navigation.historyIndex n + 1)) (Navigation.historyStack n)
      ++ [Navigation.ViewState "settings"]
    ∧ Navigation.historyIndex n' = Navigation.historyIndex n + 1
    ∧ at_index (Navigation.historyStack n') (Navigation.historyIndex n')
      = Some (Navigation.ViewState "settings")
    ∧ Navigation.navForwardDisabled n' = true
    ∧ Navigation.navBackDisabled n' = (Navigation.historyIndex n <? 0).
Proof.
  apply (NavigationFacts.navigation_drops_the_forward_entries
           (Navigation.ViewState "settings") (Navigation.loadState_finally after_back)).
  vm_compute. split; [discriminate | reflexivity].
Defined.

(** X29 for a video opened while B plays, shown, and closed. *)
Lemma closing_the_video_gives_the_audio_back_witness :
  let s1 := Video.playVideo songB (idle_overlay, after_late_stream_of_A) in
  let s2 := Video.playVideo_resume (Fulfilled (Some videoUrl)) s1 in
  let s3 := Video.hideVideoPlayer s2 in
  paused (audioPlayer (snd s1)) = true
  ∧ audioPlayer (snd s3) = audioPlayer after_late_stream_of_A
  ∧ queueManager (snd s3) = queueManager after_late_stream_of_A
  ∧ Video.isVideoLoading (fst s3) = false
  ∧ Video.wasAudioPlayingBeforeVideo (fst s3) = false
  ∧ Video.visible (fst s3) = false
  ∧ Video.videoSrc (fst s3) = ""
  ∧ ∀ url, truthy url = true →
      let shown := Video.playVideo_resume (Fulfilled (Some url)) s1 in
      Video.visible (fst shown) = true ∧ Video.togglePlayPause shown = shown.
Proof.
  apply (VideoFacts.closing_the_video_gives_the_audio_back songB idle_overlay
           after_late_stream_of_A (Some (Fulfilled (Some videoUrl)))).
  reflexivity.
Defined.

(** X30 for a video closed before its URL arrives. *)
Lemma late_video_url_is_ignored_witness :
  let s := Video.hideVideoPlayer
             (Video.playVideo songB (idle_overlay, after_late_stream_of_A)) in
  let s' := Video.playVideo_resume (Fulfilled (Some videoUrl)) s in
  Video.cancelled (fst s) = S (Video.cancelled idle_overlay)
  ∧ snd s' = snd s
  ∧ Video.visible (fst s') = false
  ∧ Video.videoSrc (fst s') = ""
  ∧ Video.awaited (fst s') = Video.awaited idle_overlay
  ∧ ∀ other,
      let t := Video.playVideo_resume (Fulfilled (Some videoUrl))
                 (Video.playVideo other s) in
      Video.visible (fst t) = true
      ∧ Video.videoSrc (fst t) = videoUrl
      ∧ Video.awaited (fst t) = S (Video.awaited idle_overlay).
Proof.
  apply (VideoFacts.late_video_url_is_ignored songB idle_overlay
           after_late_stream_of_A videoUrl); reflexivity.
Defined.

End Examples.
